(** * Batched beam-search driver of the negotiation generator

    A shallow embedding of [negotiation/neural/generator.py]
    ([Generator.generate_batch] and [Generator._from_beam]) together with the
    collaborators it drives: the neural model (an opaque record of
    functions), the [Beam] class and the decoder state.

    Conventions.
    - Python exceptions are values of [exn]; a computation that may raise
      returns a [result].
    - Steps whose occurrence matters (the loop test, the decoder calls,
      [advance], [beam_update]) are recorded in a log, so the driver lives
      in the writer-and-error monad [M].
    - Tensors handled by the driver itself ([inp], [out], [attn]) are the
      row-major lists of their elements; [view] recomputes the shape.
    - Log-probabilities are an abstract type [Score]; token ids, lengths
      and indices are natural numbers, [gt_prefix] is a Python int.

    The trainer ([negotiation/neural/trainer.py]) and the dataset script
    ([src/scripts/generate_dataset.py]) are embedded in the modules
    [Training] and [Dataset], each with its own exceptions and its own
    state-and-log monad. *)

From stdpp Require Import gmap strings list sorting.
From Stdlib Require Import ZArith Lia.

Set Default Proof Using "Type".

(** ** Exceptions, results and the call log *)

Inductive exn : Type :=
  | NameError (name : string)
  | AttributeError (attr : string)
  | IndexError
  | KeyError (key : string)
  | RuntimeError (msg : string)
  | AssertionError (msg : string).

Inductive result (A : Type) : Type :=
  | Ok (a : A)
  | Raise (e : exn).
Arguments Ok {A} a.
Arguments Raise {A} e.

Inductive event : Type :=
  | EvForced (n : nat)                      (* decoder run over n forced rows *)
  | EvAllDone (i : nat) (all_done : bool)   (* the test of line 134 *)
  | EvDecode (i : nat)                      (* decoder step of iteration i *)
  | EvAdvance (i j : nat) (was_done : bool) (* beam[j].advance at iteration i *)
  | EvBeamUpdate (i j : nat).               (* dec_states.beam_update(j, ..) *)

Definition M (A : Type) : Type := (list event * result A)%type.

Definition ret {A} (a : A) : M A := ([], Ok a).
Definition raise {A} (e : exn) : M A := ([], Raise e).
Definition lift {A} (r : result A) : M A := ([], r).
Definition emit (e : event) : M unit := ([e], Ok tt).

Definition bind {A B} (m : M A) (f : A → M B) : M B :=
  match m with
  | (l, Ok a) => let '(l', r) := f a in (l ++ l', r)
  | (l, Raise e) => (l, Raise e)
  end.

Notation "'let!' x ':=' m 'in' k" := (bind m (fun x => k))
  (at level 10, x name, m at level 100, k at level 200).
Notation "'let!' ' p ':=' m 'in' k" := (bind m (fun p => k))
  (at level 10, p strict pattern, m at level 100, k at level 200).

Definition log {A} (m : M A) : list event := fst m.
Definition outcome {A} (m : M A) : result A := snd m.

(** [[f(x) for x in l]] with a body that may raise. *)
Fixpoint mapM {A B} (f : A → M B) (l : list A) : M (list B) :=
  match l with
  | [] => ret []
  | x :: l' => let! y := f x in let! ys := mapM f l' in ret (y :: ys)
  end.

(** ** Python and tensor primitives used by the driver *)

(** [l[i]] on a Python sequence: negative indices count from the end. *)
Definition py_index {A} (l : list A) (i : Z) : result A :=
  let n := Z.of_nat (length l) in
  let i' := if (i <? 0)%Z then (i + n)%Z else i in
  if (i' <? 0)%Z then Raise IndexError
  else match l !! Z.to_nat i' with
       | Some x => Ok x
       | None => Raise IndexError
       end.

(** [d[key]] on a dict. *)
Definition dict_get (d : gmap string nat) (key : string) : result nat :=
  match d !! key with
  | Some v => Ok v
  | None => Raise (KeyError key)
  end.

(** Reading a local variable that an earlier branch may not have bound. *)
Definition read_local {A} (name : string) (v : option A) : result A :=
  match v with
  | Some a => Ok a
  | None => Raise (NameError name)
  end.

(** [obj.attr] on an attribute that may be missing. *)
Definition getattr {A} (attr : string) (v : option A) : result A :=
  match v with
  | Some a => Ok a
  | None => Raise (AttributeError attr)
  end.

(** [t.repeat(beam_size)] / [t.repeat(1, beam_size, 1)]: the batch dimension
    is tiled [beam_size] times. *)
Definition tile {T} (beam_size : nat) (t : list T) : list T :=
  concat (replicate beam_size t).

(** Consecutive chunks of width [w]; [n] chunks are produced. *)
Fixpoint chunks {T} (n w : nat) (m : list T) : list (list T) :=
  match n with
  | 0 => []
  | S n' => take w m :: chunks n' w (drop w m)
  end.

(** [m.view(d0, d1, -1)] on the row-major data of [m]. *)
Definition view3 {T} (d0 d1 : nat) (m : list T) : result (list (list (list T))) :=
  let n := d0 * d1 in
  if n =? 0 then Raise (RuntimeError "view")
  else
    let w := length m / n in
    if w * n =? length m
    then Ok (chunks d0 d1 (chunks n w m))
    else Raise (RuntimeError "view").

(** [t[:, j]] on a three-dimensional tensor. *)
Fixpoint select_item {T} (t : list (list T)) (j : nat) : result (list T) :=
  match t with
  | [] => Ok []
  | plane :: t' =>
      match plane !! j with
      | None => Raise IndexError
      | Some row =>
          match select_item t' j with
          | Ok rows => Ok (row :: rows)
          | Raise e => Raise e
          end
      end
  end.

(** [torch.stack(rows).t().contiguous().view(1, -1)]: the rows must have one
    common length; the result lists, slot by slot, the entry of every row. *)
Definition stack_t_view (rows : list (list nat)) : result (list nat) :=
  match rows with
  | [] => Raise (RuntimeError "stack")
  | r :: _ =>
      if forallb (λ r', length r' =? length r) rows
      then Ok (concat ((λ k, omap (λ r', r' !! k) rows) <$> seq 0 (length r)))
      else Raise (RuntimeError "stack")
  end.

(** ** Collaborators of the driver *)

(** Modelled from the spec: the decoder state of the model (class
    [DecoderState] of the translation library, not part of the sources).
    The spec gives it two operations, [repeat(k)] and [reorder(indices)] per
    batch slot.  A state is kept as its view hypothesis-slot by batch-item:
    row [k] holds the entries of hypothesis slot [k], one per batch item. *)
Abbreviation DecoderState Cell := (list (list Cell)) (only parsing).

(** Modelled from the spec: [repeat_beam_size_times(beam_size)], which tiles
    the state [beam_size] times along the batch dimension. *)
Definition repeat_beam_size_times {Cell} (beam_size : nat)
    (st : DecoderState Cell) : DecoderState Cell :=
  tile beam_size st.

(** The entry of hypothesis slot [k] of batch item [j]. *)
Definition entry {Cell} (st : DecoderState Cell) (k j : nat) : option Cell :=
  match st !! k with
  | Some row => row !! j
  | None => None
  end.

(** Modelled from the spec: [beam_update(idx, positions, beam_size)], the
    reindexer.  The state is viewed as [beam_size] slots; the entries of
    batch item [idx] are replaced, slot by slot, by the entries the same item
    had at the slots listed in [positions]. *)
Definition beam_update {Cell} (idx : nat) (positions : list nat)
    (beam_size : nat) (st : DecoderState Cell) : result (DecoderState Cell) :=
  if (length st =? beam_size) && (length positions =? beam_size)
     && forallb (λ p, p <? beam_size) positions
     && forallb (λ row : list Cell, idx <? length row) st
  then Ok (imap (λ k row,
                 match positions !! k with
                 | Some p =>
                     match entry st p idx with
                     | Some c => <[idx := c]> row
                     | None => row
                     end
                 | None => row
                 end) st)
  else Raise (RuntimeError "beam_update").

(** The entries of batch item [j], one per hypothesis slot. *)
Definition column {Cell} (j : nat) (st : DecoderState Cell) : list (option Cell) :=
  (λ row : list Cell, row !! j) <$> st.

Section Driver.

(** Types left opaque: the encoder input, the encoder's final states, one
    batch position of a memory bank, one decoder-state entry, the
    previous-turn features, the item title, the decoder output, the word
    scores, the attention weights and the rescoring policy. *)
Context {EncIn EncStates MemCol Cell PrevTurns Title DecOut Score Attn Scorer : Type}.

Definition Mem : Type := list MemCol.

(** The variable [memory_bank] holds either one tensor or the list built
    at line 110. *)
Inductive MemoryBank : Type :=
  | MemTensor (m : Mem)
  | MemList (ms : list Mem).

(** The neural model, consumed through five calls. *)
Record Model : Type := {
  encoder : EncIn → list nat → EncStates * Mem;
  init_decoder_state : EncIn → Mem → EncStates → DecoderState Cell;
  cbow_embedder : PrevTurns → EncStates * Mem;
  decoder : list (list nat) → MemoryBank → DecoderState Cell → list nat →
            DecOut * DecoderState Cell * list Attn;   (* attn["std"] *)
  generator_forward : DecOut → list Score;
}.

(** The interface of [neural.beam.Beam] the driver relies on.  Every method
    that takes arguments may raise. *)
Record BeamClass : Type := {
  beam : Type;
  Beam : nat → nat → Scorer → nat → nat → nat → nat → beam;
    (* Beam(size, n_best, global_scorer, pad, bos, eos, min_length) *)
  done : beam → bool;
  get_current_state : beam → list nat;
  get_current_origin : beam → list nat;
  advance : beam → list (list Score) → list (list Attn) → result beam;
  sort_finished : beam → nat →
                  result (beam * (list Score * list (nat * nat)));
  get_hyp : beam → nat → nat → result (list nat * list (list Attn));
}.

(** The two reserved words of [preprocess.markers] the driver looks up. *)
Record Markers : Type := { PAD : string; EOS : string }.

Record Vocab : Type := { word_to_ind : gmap string nat }.

Record Batch : Type := {
  size : nat;
  context_data_decoder_tokens : list (option (list string));
  encoder_inputs : EncIn;
  lengths : list nat;
  targets : list (list nat);
  prev_turns : option PrevTurns;    (* [None]: the attribute is missing *)
  item_title : option Title;
}.

Record Generator : Type := {
  model : Model;
  vocab : Vocab;
  beam_size : nat;
  n_best : nat;
  max_length : nat;
  global_scorer : Scorer;
  min_length : nat;
}.

(** The dictionary built by [_from_beam] and completed by
    [generate_batch]. *)
Record FromBeam : Type := {
  fb_predictions : list (list (list nat));
  fb_scores : list (list Score);
  fb_attention : list (list (list (list Attn)));
}.

Record Ret : Type := {
  predictions : list (list (list nat));
  scores : list (list Score);
  attention : list (list (list (list Attn)));
  gold_score : list Z;
  batch_entry : Batch;
}.

Variable markers : Markers.
Variable BC : BeamClass.

Section GenerateBatch.

Variable self : Generator.
Variable batch : Batch.
Variable gt_prefix : Z.

(** Lines 72-76. *)
Definition get_bos (b : nat) : result nat :=
  match py_index (context_data_decoder_tokens batch) (Z.of_nat b) with
  | Raise e => Raise e
  | Ok tgt_sent =>
      let bos :=
        match tgt_sent with
        | None | Some [] => Ok (PAD markers)
        | Some (w :: ws) => py_index (w :: ws) (gt_prefix - 1)
        end in
      match bos with
      | Raise e => Raise e
      | Ok bos => dict_get (word_to_ind (vocab self)) bos
      end
  end.

(** Lines 78-85: one beam per batch item. *)
Definition new_beam (b : nat) : M (beam BC) :=
  let! pad := lift (dict_get (word_to_ind (vocab self)) (PAD markers)) in
  let! bos := lift (get_bos b) in
  let! eos := lift (dict_get (word_to_ind (vocab self)) (EOS markers)) in
  ret (Beam BC (beam_size self) (n_best self) (global_scorer self)
            pad bos eos (min_length self)).

Definition make_beams : M (list (beam BC)) :=
  mapM new_beam (seq 0 (size batch)).

(** Line 90. *)
Definition rvar (a : Mem) : Mem := tile (beam_size self) a.

(** Lines 95-96. *)
Definition unbottle {T} (m : list T) : result (list (list (list T))) :=
  view3 (beam_size self) (size batch) m.

(** Lines 98-113: encoder, initial decoder state and the optional
    dialogue context.  The second component is the local variable
    [predict_with_context], bound only in the first branch.

    Lines 106-113 do not parse as they stand: the [if hasattr(batch,
    'prev_turns')] of line 106 is closed by [except:] at line 112.  The
    keyword is read here as [else], so that the test of line 106 decides
    the branch.  Under the other repair, [try: ... except:], the two
    readings differ only for a batch that has [prev_turns] and lacks
    [item_title] (here line 107 raises [AttributeError]; there the
    exception is caught and the fallback of line 113 taken); nothing below
    is stated about such a batch. *)
Definition encode : M (MemoryBank * option bool * DecoderState Cell) :=
  let '(enc_states, enc_memory_bank) :=
    encoder (model self) (encoder_inputs batch) (lengths batch) in
  let dec_states :=
    init_decoder_state (model self) (encoder_inputs batch)
                       enc_memory_bank enc_states in
  match prev_turns batch with
  | Some previous_turns =>
      let! _ := lift (getattr "item_title" (item_title batch)) in
      let '(_, prev_memory_bank) :=
        cbow_embedder (model self) previous_turns in
      ret (MemList [enc_memory_bank; prev_memory_bank], Some true, dec_states)
  | None =>
      ret (MemTensor enc_memory_bank, None, dec_states)
  end.

(** Lines 116-120. *)
Definition forced_prefix (memory_bank : MemoryBank)
    (dec_states : DecoderState Cell) : M (DecoderState Cell) :=
  if (1 <? gt_prefix)%Z then
    let inp := take (Z.to_nat (gt_prefix - 1)) (targets batch) in
    let! _ := emit (EvForced (length inp)) in
    let '(_, dec_states, _) :=
      decoder (model self) inp memory_bank dec_states (lengths batch) in
    ret dec_states
  else ret dec_states.

(** Lines 122-130.  [predict_with_context] is read here. *)
Definition repeat_src (memory_bank : MemoryBank)
    (predict_with_context : option bool) (dec_states : DecoderState Cell)
    : M (MemoryBank * list nat * DecoderState Cell) :=
  let! pwc := lift (read_local "predict_with_context" predict_with_context) in
  let! memory_bank :=
    match pwc, memory_bank with
    | true, MemList ms => ret (MemList (rvar <$> ms))
    | false, MemTensor m => ret (MemTensor (rvar m))
    | true, MemTensor _ => raise (RuntimeError "iteration over a tensor")
    | false, MemList _ => raise (AttributeError "data")
    end in
  let memory_lengths := tile (beam_size self) (lengths batch) in
  ret (memory_bank, memory_lengths,
       repeat_beam_size_times (beam_size self) dec_states).

(** Lines 98-130 together: everything before the stepping loop. *)
Definition prepare : M (MemoryBank * list nat * DecoderState Cell) :=
  let! '(memory_bank, predict_with_context, dec_states) := encode in
  let! dec_states := forced_prefix memory_bank dec_states in
  repeat_src memory_bank predict_with_context dec_states.

Section Stepping.

Variable memory_bank : MemoryBank.
Variable memory_lengths : list nat.

(** The two arguments of [advance] for beam [j] (lines 181-182). *)
Definition item_scores (out : list (list (list Score))) (j : nat)
    : result (list (list Score)) :=
  select_item out j.

Definition item_attn (attn : list Attn) (j : nat)
    : result (list (list Attn)) :=
  match unbottle attn with
  | Raise e => Raise e
  | Ok a =>
      match py_index memory_lengths (Z.of_nat j) with
      | Raise e => Raise e
      | Ok n =>
          match select_item a j with
          | Raise e => Raise e
          | Ok rows => Ok (take n <$> rows)
          end
      end
  end.

(** Lines 179-183: [for j, b in enumerate(beam)], from index [j] on. *)
Fixpoint advance_each (i : nat) (out : list (list (list Score)))
    (attn : list Attn) (j : nat) (bs : list (beam BC))
    (dec_states : DecoderState Cell)
    : M (list (beam BC) * DecoderState Cell) :=
  match bs with
  | [] => ret ([], dec_states)
  | b :: bs' =>
      let! word_probs := lift (item_scores out j) in
      let! attn_j := lift (item_attn attn j) in
      let! _ := emit (EvAdvance i j (done BC b)) in
      let! b' := lift (advance BC b word_probs attn_j) in
      let! _ := emit (EvBeamUpdate i j) in
      let! dec_states :=
        lift (beam_update j (get_current_origin BC b') (beam_size self)
                          dec_states) in
      let! '(bs'', dec_states) :=
        advance_each i out attn (S j) bs' dec_states in
      ret (b' :: bs'', dec_states)
  end.

(** Lines 137-183: the body of one iteration. *)
Definition step (i : nat) (bs : list (beam BC))
    (dec_states : DecoderState Cell)
    : M (list (beam BC) * DecoderState Cell) :=
  let! inp := lift (stack_t_view (get_current_state BC <$> bs)) in
  let! _ := emit (EvDecode i) in
  let '(dec_out, dec_states, attn) :=
    decoder (model self) [inp] memory_bank dec_states memory_lengths in
  let out := generator_forward (model self) dec_out in
  let! out := lift (unbottle out) in
  advance_each i out attn 0 bs dec_states.

(** Lines 133-135: [for i in range(max_length)] with its [break]. *)
Fixpoint stepping (range : list nat) (bs : list (beam BC))
    (dec_states : DecoderState Cell)
    : M (list (beam BC) * DecoderState Cell) :=
  match range with
  | [] => ret (bs, dec_states)
  | i :: range' =>
      let all_done := forallb (done BC) bs in
      let! _ := emit (EvAllDone i all_done) in
      if all_done then ret (bs, dec_states)
      else
        let! '(bs', dec_states') := step i bs dec_states in
        stepping range' bs' dec_states'
  end.

End Stepping.

(** Lines 198-208: the body of [for b in beam]. *)
Definition extract (b : beam BC)
    : M (list (list nat) * list Score * list (list (list Attn))) :=
  let! '(b, (scores, ks)) := lift (sort_finished BC b (n_best self)) in
  let! hyps_attn :=
    mapM (λ '(times, k), lift (get_hyp BC b times k))
         (take (n_best self) ks) in
  ret (fst <$> hyps_attn, scores, snd <$> hyps_attn).

(** Lines 194-209. *)
Definition _from_beam (bs : list (beam BC)) : M FromBeam :=
  let! rows := mapM extract bs in
  ret {| fb_predictions := (λ r, r.1.1) <$> rows;
         fb_scores := (λ r, r.1.2) <$> rows;
         fb_attention := (λ r, r.2) <$> rows |}.

(** Lines 54-192. *)
Definition generate_batch : M Ret :=
  let! bs := make_beams in
  let! '(memory_bank, memory_lengths, dec_states) := prepare in
  let! '(bs, _) :=
    stepping memory_bank memory_lengths (seq 0 (max_length self))
             bs dec_states in
  let! r := _from_beam bs in
  ret {| predictions := fb_predictions r;
         scores := fb_scores r;
         attention := fb_attention r;
         gold_score := replicate (size batch) 0%Z;
         batch_entry := batch |}.

End GenerateBatch.

End Driver.

(** ** The hypothesis beam *)

Module SpecBeam.

(** Cumulative log-probabilities: exact numbers extended with minus
    infinity. *)
Inductive score : Type :=
  | NegInf
  | Fin (z : Z).

Definition score_add (a b : score) : score :=
  match a, b with
  | Fin x, Fin y => Fin (x + y)
  | _, _ => NegInf
  end.

Definition score_leb (a b : score) : bool :=
  match a, b with
  | NegInf, _ => true
  | Fin _, NegInf => false
  | Fin x, Fin y => (x <=? y)%Z
  end.

(** A list of scores in decreasing order. *)
Definition descending (l : list score) : Prop :=
  StronglySorted (λ a b, score_leb b a = true) l.

(** Modelled from the spec: the length-normalisation policy (section 4.2),
    a replaceable function of a cumulative log-probability and a
    hypothesis length; the default returns the log-probability as it is. *)
Definition scorer : Type := score → nat → score.
Definition raw_scorer : scorer := λ s _, s.

(** Stable sort by decreasing key: among equal keys the earlier element
    stays first. *)
Fixpoint insert_desc {X} (key : X → score) (c : X) (l : list X) : list X :=
  match l with
  | [] => [c]
  | d :: l' =>
      if score_leb (key d) (key c) then c :: d :: l'
      else d :: insert_desc key c l'
  end.

Fixpoint sort_desc {X} (key : X → score) (l : list X) : list X :=
  match l with
  | [] => []
  | c :: l' => insert_desc key c (sort_desc key l')
  end.

Section Beam.

Context {Attn : Type}.

(** Modelled from the spec: the data model of a Beam (section 3); the
    class [neural.beam.Beam] is not part of the sources.  [tokens],
    [backpointers] and [attn] are in step order. *)
Record beam : Type := {
  size : nat;
  n_best : nat;
  global_scorer : scorer;
  pad : nat;
  bos : nat;
  eos : nat;
  min_length : nat;
  tokens : list (list nat);
  backpointers : list (list nat);
  scores : list score;
  finished : list (score * nat * nat);   (* score, step, slot *)
  attn : list (list (list Attn));
  done_flag : bool;
}.

(** Modelled from the spec: a fresh Beam; all slots start identical, on
    the beginning-of-sequence token. *)
Definition Beam (size n_best : nat) (global_scorer : scorer)
    (pad bos eos min_length : nat) : beam :=
  {| size := size; n_best := n_best; global_scorer := global_scorer;
     pad := pad; bos := bos; eos := eos; min_length := min_length;
     tokens := [replicate size bos];
     backpointers := [];
     scores := replicate size (Fin 0);
     finished := [];
     attn := [];
     done_flag := false |}.

(** Modelled from the spec: [current_tokens()]. *)
Definition get_current_state (b : beam) : list nat :=
  default [] (last (tokens b)).

(** Modelled from the spec: [current_backpointer_indices()]. *)
Definition get_current_origin (b : beam) : list nat :=
  default [] (last (backpointers b)).

(** Modelled from the spec: [done()]. *)
Definition done (b : beam) : bool := done_flag b.

(** The number of [advance] calls the beam has seen. *)
Definition step_count (b : beam) : nat := length (backpointers b).

(** The candidates of one step: flattened index and total score. *)
Definition candidates (b : beam) (word_probs : list (list score))
    : list (nat * score) :=
  let masked :=
    if step_count b <? min_length b
    then (λ row, <[eos b := NegInf]> row) <$> word_probs
    else word_probs in
  let rows :=
    match backpointers b with
    | [] => take 1 masked
    | _ =>
        imap (λ s row,
              let prior :=
                if bool_decide (get_current_state b !! s = Some (eos b))
                then NegInf
                else default NegInf (scores b !! s) in
              score_add prior <$> row) masked
    end in
  imap (λ i sc, (i, sc)) (concat rows).

(** Modelled from the spec: the update [advance(step_scores,
    step_attention)] makes on a beam that is not done (section 4.1).  The
    end-of-sequence score is masked below [min_length]; the prior score of
    each slot is added (a slot that has finished competes with minus
    infinity; on the first step only row 0 counts); the best [size]
    candidates are kept, ties going to the lower flattened index; each is
    split into origin slot and token; slots that chose end-of-sequence are
    recorded with their normalised score; the beam is done when the best
    slot chose end-of-sequence. *)
Definition advanced (b : beam) (word_probs : list (list score))
    (attn_out : list (list Attn)) : beam :=
  let num_words := length (default [] (head word_probs)) in
  let best := take (size b) (sort_desc snd (candidates b word_probs)) in
  let new_scores := snd <$> best in
  let origins := (λ c, c.1 / num_words) <$> best in
  let toks := (λ c, c.1 `mod` num_words) <$> best in
  let step := S (step_count b) in
  let newly :=
    omap (λ '(i, (tok, sc)),
          if tok =? eos b then Some (global_scorer b sc step, step, i)
          else None)
         (imap (λ i x, (i, x)) (zip toks new_scores)) in
  {| size := size b; n_best := n_best b;
     global_scorer := global_scorer b;
     pad := pad b; bos := bos b; eos := eos b;
     min_length := min_length b;
     tokens := tokens b ++ [toks];
     backpointers := backpointers b ++ [origins];
     scores := new_scores;
     finished := finished b ++ newly;
     attn := attn b ++ [(λ o, default [] (attn_out !! o)) <$> origins];
     done_flag :=
       done_flag b ||
       match toks with
       | t :: _ => t =? eos b
       | [] => false
       end |}.

(** Modelled from the spec: [advance] (sections 3, 4.1 and 7).  A beam
    that is done is terminal: calling [advance] on it is a contract
    violation and fails at once; otherwise the beam is updated. *)
Definition advance (b : beam) (word_probs : list (list score))
    (attn_out : list (list Attn)) : result beam :=
  if done b
  then Raise (AssertionError "advance on a finished beam")
  else Ok (advanced b word_probs attn_out).

(** The slots of the last step that are not recorded as finished. *)
Definition unfinished_slots (b : beam) : list nat :=
  List.filter
    (λ i, forallb (λ '(_, t, k), negb ((t =? step_count b) && (k =? i)))
                  (finished b))
    (seq 0 (size b)).

(** The finished hypotheses by decreasing normalised score, after the
    best unfinished slots of the last step have been force-finished to
    make up for those missing below [minimum]. *)
Definition ranked (b : beam) (minimum : nat) : list (score * nat * nat) :=
  let missing := minimum - length (finished b) in
  let forced :=
    (λ i, (global_scorer b (default NegInf (scores b !! i)) (step_count b),
           step_count b, i))
      <$> take missing (unfinished_slots b) in
  sort_desc (λ f, f.1.1) (finished b ++ forced).

(** Modelled from the spec: [sort_finished(minimum)] (sections 4.1 and
    8): when fewer than [minimum] hypotheses have finished, the best
    unfinished slots of the last step are force-finished; exactly
    [minimum] hypotheses are returned, the best ones, by decreasing
    normalised score.  The spec does not say what happens when the beam
    cannot supply [minimum] hypotheses even so; the call fails then. *)
Definition sort_finished (b : beam) (minimum : nat)
    : result (beam * (list score * list (nat * nat))) :=
  let best := take minimum (ranked b minimum) in
  if length best <? minimum then Raise IndexError
  else
    Ok ({| size := size b; n_best := n_best b;
           global_scorer := global_scorer b;
           pad := pad b; bos := bos b; eos := eos b;
           min_length := min_length b;
           tokens := tokens b; backpointers := backpointers b;
           scores := scores b; finished := ranked b minimum;
           attn := attn b; done_flag := done_flag b |},
        ((λ f, f.1.1) <$> best, (λ f, (f.1.2, f.2)) <$> best)).

(** The walk of [get_hyp]: [j] steps remain below slot [k]. *)
Fixpoint walk (b : beam) (j k : nat) (hyp : list nat)
    (att : list (list Attn)) : result (list nat * list (list Attn)) :=
  match j with
  | 0 => Ok (hyp, att)
  | S j' =>
      match tokens b !! S j' ≫= (λ row, row !! k),
            attn b !! j' ≫= (λ row, row !! k),
            backpointers b !! j' ≫= (λ row, row !! k) with
      | Some tok, Some a, Some k' => walk b j' k' (tok :: hyp) (a :: att)
      | _, _, _ => Raise IndexError
      end
  end.

(** Modelled from the spec: [get_hypothesis(step, slot)], which follows
    the backpointers from [(step, slot)] down to step 0 and returns the
    tokens and attention rows in forward order. *)
Definition get_hyp (b : beam) (timestep k : nat)
    : result (list nat * list (list Attn)) :=
  walk b timestep k [] [].

(** The history of a beam is rectangular: one row of [size] entries per
    step, backpointers within the slots, and every finished hypothesis at a
    step and a slot that exist. *)
Definition wf (b : beam) : Prop :=
  length (tokens b) = S (length (backpointers b))
  ∧ length (attn b) = length (backpointers b)
  ∧ Forall (λ row, length row = size b) (tokens b)
  ∧ Forall (λ row, length row = size b ∧ Forall (λ p, p < size b) row)
           (backpointers b)
  ∧ Forall (λ row, length row = size b) (attn b)
  ∧ Forall (λ f : score * nat * nat,
              f.1.2 ≤ length (backpointers b) ∧ f.2 < size b)
           (finished b).

(** The class as the driver sees it. *)
Definition spec_beam : BeamClass (Score := score) (Attn := Attn)
                                 (Scorer := scorer) :=
  @Build_BeamClass score Attn scorer
    beam Beam done get_current_state get_current_origin
    advance sort_finished get_hyp.

End Beam.

Arguments beam : clear implicits.

End SpecBeam.

(** ** A small model and two batches *)

Module Scenario.

(** Vocabulary PAD=0, BOS=1, EOS=2, hello=3, bye=4. *)
Definition the_markers : Markers := {| PAD := "<pad>"; EOS := "</s>" |}.

Definition the_vocab : Vocab :=
  {| word_to_ind :=
       <["<pad>" := 0]> (<["<go>" := 1]> (<["</s>" := 2]>
       (<["hello" := 3]> (<["bye" := 4]> ∅)))) |}.

(** The word scores of a position depend only on the encoder input of its
    batch item: input 0 prefers end-of-sequence, then hello, then bye; any
    other input prefers hello, then bye, and avoids end-of-sequence. *)
Definition profile (x : nat) : list SpecBeam.score :=
  match x with
  | 0 => SpecBeam.Fin <$> [-9; -9; -1; -2; -3]%Z
  | _ => SpecBeam.Fin <$> [-9; -9; -9; -1; -2]%Z
  end.

Definition positions (mb : @MemoryBank nat) : list nat :=
  match mb with
  | MemTensor m => m
  | MemList ms => default [] (head ms)
  end.

(** The memory of a position is its encoder input; the decoder state is
    carried unchanged; every position attends with two weights. *)
Definition toy : @Model (list nat) unit nat nat (list nat) (list nat) SpecBeam.score nat :=
  {| encoder := λ inputs _, (tt, inputs);
     init_decoder_state := λ _ mem _, [mem];
     cbow_embedder := λ prev, (tt, prev);
     decoder := λ _ mb st _,
                (positions mb, st, positions mb ≫= (λ x, [x; S x]));
     generator_forward := λ dec_out, dec_out ≫= profile |}.

Definition ToyGenerator : Type :=
  @Generator (list nat) unit nat nat (list nat) (list nat)
             SpecBeam.score nat SpecBeam.scorer.
Definition ToyBatch : Type := @Batch (list nat) (list nat) unit.

Definition gen (k nb maxlen minlen : nat) : ToyGenerator :=
  {| model := toy; vocab := the_vocab; beam_size := k; n_best := nb;
     max_length := maxlen; global_scorer := SpecBeam.raw_scorer;
     min_length := minlen |}.

Definition two_items : ToyBatch :=
  {| size := 2;
     context_data_decoder_tokens := [Some ["<go>"; "hello"]; None];
     encoder_inputs := [0; 1];
     lengths := [2; 1];
     targets := [[1; 0]; [3; 0]];
     prev_turns := Some [7; 8];
     item_title := Some tt |}.

Definition first_item : ToyBatch :=
  {| size := 1;
     context_data_decoder_tokens := [Some ["<go>"; "hello"]];
     encoder_inputs := [0];
     lengths := [2];
     targets := [[1]; [3]];
     prev_turns := Some [7];
     item_title := Some tt |}.

Definition second_item : ToyBatch :=
  {| size := 1;
     context_data_decoder_tokens := [None];
     encoder_inputs := [1];
     lengths := [1];
     targets := [[0]; [0]];
     prev_turns := Some [8];
     item_title := Some tt |}.

Definition no_context : ToyBatch :=
  {| size := 1;
     context_data_decoder_tokens := [Some ["<go>"; "hello"]];
     encoder_inputs := [0];
     lengths := [2];
     targets := [[1]; [3]];
     prev_turns := None;
     item_title := None |}.

Definition run (g : ToyGenerator) (b : ToyBatch) (gt_prefix : Z) :=
  generate_batch the_markers SpecBeam.spec_beam g b gt_prefix.

End Scenario.

(** ** Reading the log *)

Definition is_decode (e : event) : bool :=
  match e with
  | EvDecode _ => true
  | _ => false
  end.

(** The number of decoding steps a run performed. *)
Definition steps_performed (l : list event) : nat :=
  length (List.filter is_decode l).

(** The loop iteration an event belongs to. *)
Definition iteration (e : event) : option nat :=
  match e with
  | EvForced _ => None
  | EvAllDone i _ | EvDecode i | EvAdvance i _ _ | EvBeamUpdate i _ => Some i
  end.

(** The [advance] calls of iteration [i], in the order of the log. *)
Definition advances_at (i : nat) (l : list event) : list event :=
  List.filter (λ e, match e with
                    | EvAdvance i' _ _ => i' =? i
                    | _ => false
                    end) l.

(** The calls one iteration makes on the beams [bs], the first of which has
    index [j]: for each beam, [advance] (logged with the beam's [done()]
    before the call) and then [beam_update]. *)
Definition step_calls {Score Attn Scorer} (BC : @BeamClass Score Attn Scorer)
    (i j : nat) (bs : list (beam BC)) : list event :=
  concat (imap (λ k b, [EvAdvance i (j + k) (done BC b);
                        EvBeamUpdate i (j + k)]) bs).

(** ** Comparing runs *)

Section Comparisons.

Context {EncIn EncStates MemCol Cell PrevTurns Title DecOut Score Attn Scorer : Type}.

Local Abbreviation Model :=
  (@Model EncIn EncStates MemCol Cell PrevTurns DecOut Score Attn).
Local Abbreviation Generator :=
  (@Generator EncIn EncStates MemCol Cell PrevTurns DecOut Score Attn Scorer).
Local Abbreviation Batch := (@Batch EncIn PrevTurns Title).
Local Abbreviation Ret := (@Ret EncIn PrevTurns Title Score Attn).

(** The same generator around another model. *)
Definition with_model (self : Generator) (m : Model) : Generator :=
  {| model := m; vocab := vocab self; beam_size := beam_size self;
     n_best := n_best self; max_length := max_length self;
     global_scorer := global_scorer self; min_length := min_length self |}.

(** Two decoder states of the same shape with related entries. *)
Definition state_rel (Rc : Cell → Cell → Prop)
    : list (list Cell) → list (list Cell) → Prop :=
  Forall2 (Forall2 Rc).

(** Two models return the same word scores and the same attention weights
    at every decoder step, from related states and on to related states. *)
Definition same_step_outputs (m1 m2 : Model)
    (mb1 mb2 : @MemoryBank MemCol) (ml : list nat)
    (Rc : Cell → Cell → Prop) : Prop :=
  ∀ inp st1 st2,
    state_rel Rc st1 st2 →
    let r1 := decoder m1 [inp] mb1 st1 ml in
    let r2 := decoder m2 [inp] mb2 st2 ml in
    generator_forward m1 r1.1.1 = generator_forward m2 r2.1.1
    ∧ r1.2 = r2.2
    ∧ state_rel Rc r1.1.2 r2.1.2.

(** The outputs of the model on a batch agree, on the slice of batch item
    [j], with its outputs on that item alone ([batch1], of size one): the
    state entries of the item, its word scores and its attention rows as
    the driver reads them. *)
Definition slices_agree (self : Generator) (batch batch1 : Batch) (j : nat)
    (mb mb1 : @MemoryBank MemCol) (ml ml1 : list nat) : Prop :=
  ∀ cur c inp inp1 st st1,
    stack_t_view cur = Ok inp →
    cur !! j = Some c →
    stack_t_view [c] = Ok inp1 →
    column j st = column 0 st1 →
    let r := decoder (model self) [inp] mb st ml in
    let r1 := decoder (model self) [inp1] mb1 st1 ml1 in
    column j r.1.2 = column 0 r1.1.2
    ∧ (∀ out,
         unbottle self batch (generator_forward (model self) r.1.1) = Ok out →
         ∃ out1,
           unbottle self batch1 (generator_forward (model self) r1.1.1)
           = Ok out1
           ∧ item_scores out j = item_scores out1 0)
    ∧ item_attn self batch ml r.2 j = item_attn self batch1 ml1 r1.2 0.

(** A decoder state of [k] hypothesis slots by [n] batch items. *)
Definition shaped (k n : nat) (st : list (list Cell)) : Prop :=
  length st = k ∧ Forall (λ row, length row = n) st.

(** The model keeps to the shapes the driver expects: for a state of
    [beam_size] slots by [batch.size] items the decoder returns a state of
    the same shape, word scores of one row of [vocab_size] entries per
    position and attention of one row of [src_len] entries per position. *)
Definition well_shaped (self : Generator) (batch : Batch)
    (mb : @MemoryBank MemCol) (ml : list nat) (vocab_size src_len : nat)
    : Prop :=
  ∀ inp st,
    shaped (beam_size self) (size batch) st →
    let r := decoder (model self) [inp] mb st ml in
    length (generator_forward (model self) r.1.1)
    = beam_size self * size batch * vocab_size
    ∧ length r.2 = beam_size self * size batch * src_len
    ∧ shaped (beam_size self) (size batch) r.1.2.

(** The results for batch item [j] in [r] are those of item 0 in [r1]. *)
Definition same_item (r : Ret) (j : nat) (r1 : Ret) : Prop :=
  predictions r !! j = predictions r1 !! 0
  ∧ scores r !! j = scores r1 !! 0
  ∧ attention r !! j = attention r1 !! 0.

(** A Beam class that fails fast: [advance] on a beam that is done does
    not return. *)
Definition fails_fast (BC : @BeamClass Score Attn Scorer) : Prop :=
  ∀ b word_probs attn_out b',
    done BC b = true → advance BC b word_probs attn_out ≠ Ok b'.

End Comparisons.

(** ** The remaining helpers of [generate_batch] *)

Definition is_advance (e : event) : bool :=
  match e with
  | EvAdvance _ _ _ => true
  | _ => false
  end.

(** [m.view(d0, -1)] on the row-major data of [m]. *)
Definition view2 {T} (d0 : nat) (m : list T) : result (list (list T)) :=
  if d0 =? 0 then Raise (RuntimeError "view")
  else
    let w := length m / d0 in
    if w * d0 =? length m
    then Ok (chunks d0 w m)
    else Raise (RuntimeError "view").

Section Bottle.

Context {EncIn EncStates MemCol Cell PrevTurns Title DecOut Score Attn Scorer : Type}.

(** Lines 92-93. *)
Definition bottle {T}
    (self : @Generator EncIn EncStates MemCol Cell PrevTurns DecOut Score Attn
                       Scorer)
    (batch : @Batch EncIn PrevTurns Title) (m : list T)
    : result (list (list T)) :=
  view2 (size batch * beam_size self) m.

End Bottle.

(** ** Further batches for the toy model *)

Module Cases.

(** Two items with the same encoder input, whose beams finish at the same
    step; its first item alone is [Scenario.first_item]. *)
Definition twins : Scenario.ToyBatch :=
  {| size := 2;
     context_data_decoder_tokens := [Some ["<go>"; "hello"]; None];
     encoder_inputs := [0; 0];
     lengths := [2; 1];
     targets := [[1; 0]; [3; 0]];
     prev_turns := Some [7; 8];
     item_title := Some tt |}.

(** A batch of size 0. *)
Definition no_items : Scenario.ToyBatch :=
  {| size := 0;
     context_data_decoder_tokens := [];
     encoder_inputs := [];
     lengths := [];
     targets := [];
     prev_turns := Some [];
     item_title := Some tt |}.

End Cases.

(** * The trainer

    A shallow embedding of [negotiation/neural/trainer.py]: the class
    [Trainer] with [__init__], [learn], [train_epoch], [validate],
    [epoch_step], [drop_checkpoint] and [_gradient_accumulation].

    The model, the two loss objects, the optimizer, the data generator and
    [torch.save] are opaque: each is a function on an abstract world [W]
    (parameters, gradients, optimizer state, clock, file system).  A
    computation of the trainer takes a world and gives the calls it made on
    these collaborators, in order, the world it leaves and what it returned
    or raised.  A data iterator is a Python generator that yields the number
    of batches and then the batches; one that yields nothing is exhausted.
    What the trainer prints is left out. *)

Module Training.

Inductive exn : Type :=
  | StopIteration
  | AssertionError.

Inductive try (A : Type) : Type :=
  | Returned (a : A)
  | Raised (e : exn).
Arguments Returned {A} a.
Arguments Raised {A} e.

Inductive loss_kind : Type := TrainLoss | ValidLoss.

(** The calls on the collaborators.  [Forward b (Some d)] is the call of the
    model with a fourth argument [dec_state = d], [Forward b None] the call
    with three arguments. *)
Inductive call {Batch DecState : Type} : Type :=
  | ModelTrain
  | ModelEval
  | ZeroGrad
  | Forward (batch : Batch) (dec_state : option (option DecState))
  | ComputeLoss (which : loss_kind) (batch : Batch)
  | Backward
  | OptimStep
  | Detach
  | NewStatistics
  | Report (epoch batch_idx : nat)
  | DataGenerator (name : string) (cuda : bool)
  | UpdateLearningRate (epoch : nat)
  | TorchSave (epoch : nat) (path : string).
Arguments call : clear implicits.

(** [m.module if isinstance(m, nn.DataParallel) else m]. *)
Inductive wrapped (A : Type) : Type :=
  | Bare (a : A)
  | DataParallel (module : A).
Arguments Bare {A} a.
Arguments DataParallel {A} module.

Definition unwrap {A} (m : wrapped A) : A :=
  match m with
  | Bare a => a
  | DataParallel module => module
  end.

(** [sub in s] on Python strings. *)
Fixpoint contains (sub s : string) : bool :=
  String.prefix sub s
  || match s with
     | EmptyString => false
     | String _ s' => contains sub s'
     end.

Section Trainer.

Context {W Inputs Targets Lengths Outputs Attns DecState LossVal BStat
         Stats Time Ppl Loss Extra Data Net Gen Tensor OptimState
         NumBatches : Type}.

Record Batch : Type := {
  encoder_inputs : Inputs;
  decoder_inputs : Inputs;
  targets : Targets;
  lengths : Lengths;
}.

(** The options read by the trainer. *)
Record Opt : Type := {
  epochs : Z;
  start_checkpoint_at : Z;
  model_path : string;
  model_filename : string;
  other_options : Extra;
}.

Definition Iter : Type := option (NumBatches * list Batch).

Definition ReportFunc : Type :=
  Opt → nat → nat → NumBatches → Time → Stats → W → W * Stats.

(** The dictionary saved by [drop_checkpoint]. *)
Record Checkpoint : Type := {
  ck_model : gmap string Tensor;
  ck_generator : gmap string Tensor;
  ck_opt : Opt;
  ck_epoch : nat;
  ck_optim : OptimState;
}.

(** The collaborators. *)
Record Collaborators : Type := {
  model_train : W → W;
  model_eval : W → W;
  model_zero_grad : W → W;
  model_call : Inputs → Inputs → Lengths → option (option DecState) →
               W → W * (Outputs * Attns * option DecState);
  compute_loss : loss_kind → Targets → Outputs → W → W * (LossVal * BStat);
  loss_backward : LossVal → W → W;
  optim_step : W → W;
  optim_update_learning_rate : Ppl → nat → W → W;
  dec_state_detach : DecState → W → W;
  Statistics : W → W * Stats;
  stats_update : Stats → BStat → Stats;
  stats_start_time : Stats → Time;
  stats_ppl : Stats → Ppl;
  stats_mean_loss : Stats → Loss;
  use_gpu : Opt → bool;
  data_generator : Data → string → bool → W → W * Iter;
  net_generator : Net → wrapped Gen;
  net_state_dict : Net → W → gmap string Tensor;
  gen_state_dict : Gen → W → gmap string Tensor;
  optim_state : W → OptimState;
  format_loss : Loss → string;     (* '{:.2f}' *)
  format_int : nat → string;       (* '{:d}' *)
  torch_save : Checkpoint → string → W → W;
}.

Variable C : Collaborators.

Local Abbreviation call := (call Batch DecState).

Definition Run (A : Type) : Type := W → list call * W * try A.

Definition ret {A} (a : A) : Run A := λ w, ([], w, Returned a).
Definition raise {A} (e : exn) : Run A := λ w, ([], w, Raised e).
Definition bind {A B} (m : Run A) (k : A → Run B) : Run B :=
  λ w, match m w with
       | (l, w', Returned a) =>
           let '(l', w'', r) := k a w' in (l ++ l', w'', r)
       | (l, w', Raised e) => (l, w', Raised e)
       end.
(** A call that changes the world, and one that also returns a value. *)
Definition act (c : call) (f : W → W) : Run unit :=
  λ w, ([c], f w, Returned tt).
Definition ask {A} (c : call) (f : W → W * A) : Run A :=
  λ w, let '(w', a) := f w in ([c], w', Returned a).

Notation "'let*' x ':=' m 'in' k" := (bind m (fun x => k))
  (at level 10, x name, m at level 100, k at level 200).
Notation "'let*' ' p ':=' m 'in' k" := (bind m (fun p => k))
  (at level 10, p strict pattern, m at level 100, k at level 200).

Definition calls {A} (r : list call * W * try A) : list call := r.1.1.
Definition world {A} (r : list call * W * try A) : W := r.1.2.
Definition returned {A} (r : list call * W * try A) : try A := r.2.

(** [it.next()]. *)
Definition next (it : Iter) : Run (NumBatches * list Batch) :=
  match it with
  | Some first_and_rest => ret first_and_rest
  | None => raise StopIteration
  end.

Record Trainer : Type := {
  model : wrapped Net;
  pad_id : nat;
  shard_size : nat;
  data_type : string;
  norm_method : string;
  grad_accum_count : Z;
  cuda : bool;
}.

(** Lines 117-135. *)
Definition __init__ (model : wrapped Net) (pad_id shard_size : nat)
    (data_type norm_method : string) (grad_accum_count : Z) : Run Trainer :=
  let self := {| model := model; pad_id := pad_id; shard_size := shard_size;
                 data_type := data_type; norm_method := norm_method;
                 grad_accum_count := grad_accum_count; cuda := false |} in
  if (0 <? grad_accum_count)%Z
  then let* _ := act ModelTrain (model_train C) in ret self
  else raise AssertionError.

(** Lines 289-311: the body of [for batch in true_batchs]. *)
Fixpoint accumulate_each (true_batchs : list Batch)
    (total_stats report_stats : Stats) : Run (Stats * Stats) :=
  match true_batchs with
  | [] => ret (total_stats, report_stats)
  | batch :: rest =>
      let dec_state := None in
      let* _ := act ZeroGrad (model_zero_grad C) in
      let* '(outputs, attns, dec_state) :=
        ask (Forward batch (Some dec_state))
            (model_call C (encoder_inputs batch) (decoder_inputs batch)
                        (lengths batch) (Some dec_state)) in
      let* '(loss, batch_stats) :=
        ask (ComputeLoss TrainLoss batch)
            (compute_loss C TrainLoss (targets batch) outputs) in
      let* _ := act Backward (loss_backward C loss) in
      let* _ := act OptimStep (optim_step C) in
      let total_stats := stats_update C total_stats batch_stats in
      let report_stats := stats_update C report_stats batch_stats in
      let* _ :=
        match dec_state with
        | Some d => act Detach (dec_state_detach C d)
        | None => ret tt
        end in
      accumulate_each rest total_stats report_stats
  end.

(** Lines 285-311. *)
Definition _gradient_accumulation (self : Trainer) (true_batchs : list Batch)
    (total_stats report_stats : Stats) : Run (Stats * Stats) :=
  let* _ :=
    if (1 <? grad_accum_count self)%Z
    then act ZeroGrad (model_zero_grad C)
    else ret tt in
  accumulate_each true_batchs total_stats report_stats.

(** Lines 198-209: [for batch_idx, batch in enumerate(train_iter)], from
    index [batch_idx] on. *)
Fixpoint epoch_loop (self : Trainer) (opt : Opt) (epoch : nat)
    (report_func : option ReportFunc) (num_batches : NumBatches)
    (batches : list Batch) (batch_idx : nat)
    (true_batchs : list Batch) (accum : Z) (total_stats report_stats : Stats)
    : Run (list Batch * Stats * Stats) :=
  match batches with
  | [] => ret (true_batchs, total_stats, report_stats)
  | batch :: rest =>
      let true_batchs := true_batchs ++ [batch] in
      let accum := (accum + 1)%Z in
      let* '(true_batchs, accum, total_stats, report_stats) :=
        if (accum =? grad_accum_count self)%Z
        then
          let* '(total_stats, report_stats) :=
            _gradient_accumulation self true_batchs total_stats
                                   report_stats in
          ret ([], 0%Z, total_stats, report_stats)
        else ret (true_batchs, accum, total_stats, report_stats) in
      let* report_stats :=
        match report_func with
        | Some f =>
            ask (Report epoch batch_idx)
                (f opt epoch batch_idx num_batches
                   (stats_start_time C total_stats) report_stats)
        | None => ret report_stats
        end in
      epoch_loop self opt epoch report_func num_batches rest (S batch_idx)
                 true_batchs accum total_stats report_stats
  end.

(** Lines 177-218.  The assignment to [self.cuda] makes the trainer part of
    the result. *)
Definition train_epoch (self : Trainer) (train_iter : Iter) (opt : Opt)
    (epoch : nat) (report_func : option ReportFunc)
    : Run (Trainer * Stats) :=
  let* _ := act ModelTrain (model_train C) in
  let* total_stats := ask NewStatistics (Statistics C) in
  let* report_stats := ask NewStatistics (Statistics C) in
  let true_batchs := [] in
  let accum := 0%Z in
  let* '(num_batches, batches) := next train_iter in
  let self :=
    {| model := model self; pad_id := pad_id self;
       shard_size := shard_size self; data_type := data_type self;
       norm_method := norm_method self;
       grad_accum_count := grad_accum_count self;
       cuda := use_gpu C opt |} in
  let* '(true_batchs, total_stats, report_stats) :=
    epoch_loop self opt epoch report_func num_batches batches 0
               true_batchs accum total_stats report_stats in
  let* '(total_stats, _) :=
    if 0 <? length true_batchs
    then _gradient_accumulation self true_batchs total_stats report_stats
    else ret (total_stats, report_stats) in
  ret (self, total_stats).

(** Lines 232-240: the body of [for batch in valid_iter]. *)
Fixpoint validate_each (batches : list Batch) (stats : Stats) : Run Stats :=
  match batches with
  | [] => ret stats
  | batch :: rest =>
      let* '(outputs, attns, _) :=
        ask (Forward batch None)
            (model_call C (encoder_inputs batch) (decoder_inputs batch)
                        (lengths batch) None) in
      let* '(_, batch_stats) :=
        ask (ComputeLoss ValidLoss batch)
            (compute_loss C ValidLoss (targets batch) outputs) in
      validate_each rest (stats_update C stats batch_stats)
  end.

(** Lines 220-245. *)
Definition validate (self : Trainer) (valid_iter : Iter) : Run Stats :=
  let* _ := act ModelEval (model_eval C) in
  let* stats := ask NewStatistics (Statistics C) in
  let* '(num_val_batches, batches) := next valid_iter in
  let* stats := validate_each batches stats in
  let* _ := act ModelTrain (model_train C) in
  ret stats.

(** Lines 247-248. *)
Definition epoch_step (self : Trainer) (ppl : Ppl) (epoch : nat) : Run unit :=
  act (UpdateLearningRate epoch) (optim_update_learning_rate C ppl epoch).

(** Lines 259-276: the dictionary that is saved. *)
Definition checkpoint (self : Trainer) (opt : Opt) (epoch : nat) (w : W)
    : Checkpoint :=
  let real_model := unwrap (model self) in
  let real_generator := unwrap (net_generator C real_model) in
  let model_state_dict := net_state_dict C real_model w in
  let model_state_dict :=
    filter (λ kv, contains "generator" kv.1 = false) model_state_dict in
  let generator_state_dict := gen_state_dict C real_generator w in
  {| ck_model := model_state_dict;
     ck_generator := generator_state_dict;
     ck_opt := opt;
     ck_epoch := epoch;
     ck_optim := optim_state C w |}.

(** Lines 277-281. *)
Definition checkpoint_path (opt : Opt) (epoch : nat) (valid_stats : Stats)
    : string :=
  model_path opt +:+ "/" +:+ model_filename opt +:+ "_loss"
  +:+ format_loss C (stats_mean_loss C valid_stats)
  +:+ "_e" +:+ format_int C epoch +:+ ".pt".

(** Lines 250-283. *)
Definition drop_checkpoint (self : Trainer) (opt : Opt) (epoch : nat)
    (valid_stats : Stats) : Run unit :=
  λ w,
    let checkpoint := checkpoint self opt epoch w in
    let path := checkpoint_path opt epoch valid_stats in
    act (TorchSave (ck_epoch checkpoint) path) (torch_save C checkpoint path) w.

(** Lines 148-174: the body of [for epoch in range(opt.epochs)]. *)
Fixpoint learn_epochs (self : Trainer) (opt : Opt) (data : Data)
    (report_func : option ReportFunc) (range : list nat) : Run Trainer :=
  match range with
  | [] => ret self
  | epoch :: rest =>
      let* train_iter :=
        ask (DataGenerator "train" (use_gpu C opt))
            (data_generator C data "train" (use_gpu C opt)) in
      let* '(self, train_stats) :=
        train_epoch self train_iter opt epoch report_func in
      let* valid_iter :=
        ask (DataGenerator "dev" (use_gpu C opt))
            (data_generator C data "dev" (use_gpu C opt)) in
      let* valid_stats := validate self valid_iter in
      let* _ := epoch_step self (stats_ppl C valid_stats) epoch in
      let* _ :=
        if (start_checkpoint_at opt <=? Z.of_nat epoch)%Z
        then drop_checkpoint self opt epoch valid_stats
        else ret tt in
      learn_epochs self opt data report_func rest
  end.

(** Lines 137-174.  The Python method returns nothing; the trainer is
    returned here because [train_epoch] assigns to [self.cuda]. *)
Definition learn (self : Trainer) (opt : Opt) (data : Data)
    (report_func : option ReportFunc) : Run Trainer :=
  learn_epochs self opt data report_func (seq 0 (Z.to_nat (epochs opt))).

(** The trainer with another [grad_accum_count]. *)
Definition with_grad_accum_count (self : Trainer) (count : Z) : Trainer :=
  {| model := model self; pad_id := pad_id self;
     shard_size := shard_size self; data_type := data_type self;
     norm_method := norm_method self;
     grad_accum_count := count;
     cuda := cuda self |}.

(** The statistics [train_epoch] returned. *)
Definition total_stats_of (r : try (Trainer * Stats)) : try Stats :=
  match r with
  | Returned (_, total_stats) => Returned total_stats
  | Raised e => Raised e
  end.

End Trainer.

(** *** Reading the calls *)

(** For each call of the report function, its [batch_idx] and the number of
    optimizer steps made before it. *)
Fixpoint reports_with_steps {Batch DecState} (steps : nat)
    (l : list (call Batch DecState)) : list (nat * nat) :=
  match l with
  | [] => []
  | OptimStep :: l' => reports_with_steps (S steps) l'
  | Report _ batch_idx :: l' =>
      (batch_idx, steps) :: reports_with_steps steps l'
  | _ :: l' => reports_with_steps steps l'
  end.

Definition optimizer_steps {Batch DecState}
    (l : list (call Batch DecState)) : nat :=
  length (List.filter (λ c, match c with OptimStep => true | _ => false end)
                      l).

(** The calls that change parameters, gradients or optimizer state. *)
Definition changes_parameters {Batch DecState}
    (c : call Batch DecState) : bool :=
  match c with
  | ZeroGrad | Backward | OptimStep | UpdateLearningRate _ => true
  | _ => false
  end.

(** The calls [train_epoch] may make, and those [validate] may make. *)
Definition training_call {Batch DecState} (c : call Batch DecState) : bool :=
  match c with
  | ModelTrain | NewStatistics | ZeroGrad | Forward _ (Some None)
  | ComputeLoss TrainLoss _ | Backward | OptimStep | Detach
  | Report _ _ => true
  | _ => false
  end.

Definition validation_call {Batch DecState} (c : call Batch DecState)
    : bool :=
  match c with
  | ModelEval | ModelTrain | NewStatistics | Forward _ None
  | ComputeLoss ValidLoss _ => true
  | _ => false
  end.

(** The epochs of the checkpoints saved and of the learning-rate updates,
    in the order of the calls. *)
Definition saved_epochs {Batch DecState}
    (l : list (call Batch DecState)) : list nat :=
  omap (λ c, match c with TorchSave epoch _ => Some epoch | _ => None end) l.

Definition learning_rate_updates {Batch DecState}
    (l : list (call Batch DecState)) : list nat :=
  omap (λ c, match c with UpdateLearningRate epoch => Some epoch
                     | _ => None end) l.

End Training.

(** ** A toy world for the trainer

    The world is a parameter and a gradient.  The model adds the parameter
    to its input, the loss is the distance to the target, [backward] adds
    the loss to the gradient and the optimizer adds the gradient to the
    parameter. *)

Module TrainingToy.

Definition World : Type := (nat * nat)%type.

Definition ToyBatch : Type := @Training.Batch nat nat nat.

Definition batch (x y : nat) : ToyBatch :=
  {| Training.encoder_inputs := x; Training.decoder_inputs := x;
     Training.targets := y; Training.lengths := 1 |}.

Definition batches : list ToyBatch := [batch 1 0; batch 2 1; batch 3 1].

Definition digit (k : nat) : string :=
  String (Ascii.ascii_of_nat (48 + k)) "".

Definition toy
    : @Training.Collaborators World nat nat nat nat unit unit nat nat
        (list nat) nat nat nat unit unit unit unit nat nat nat :=
  {| Training.model_train := id;
     Training.model_eval := id;
     Training.model_zero_grad := λ w, (w.1, 0);
     Training.model_call := λ enc _ _ _ w, (w, (w.1 + enc, tt, None));
     Training.compute_loss := λ _ tgt out w, (w, (out - tgt, out));
     Training.loss_backward := λ loss w, (w.1, w.2 + loss);
     Training.optim_step := λ w, (w.1 + w.2, w.2);
     Training.optim_update_learning_rate := λ _ _ w, w;
     Training.dec_state_detach := λ _ w, w;
     Training.Statistics := λ w, (w, []);
     Training.stats_update := λ stats b, stats ++ [b];
     Training.stats_start_time := λ _, 0;
     Training.stats_ppl := length;
     Training.stats_mean_loss := foldr Nat.add 0;
     Training.use_gpu := λ _, false;
     Training.data_generator := λ _ _ _ w, (w, Some (3, batches));
     Training.net_generator := λ _, Training.Bare tt;
     Training.net_state_dict :=
       λ _ w, <["encoder.weight" := w.1]>
                (<["decoder.generator.bias" := w.2]> ∅);
     Training.gen_state_dict := λ _ w, <["bias" := w.2]> ∅;
     Training.optim_state := λ w, w.2;
     Training.format_loss := digit;
     Training.format_int := digit;
     Training.torch_save := λ _ _ w, w |}.

Definition trainer (count : Z) : @Training.Trainer unit :=
  {| Training.model := Training.DataParallel tt; Training.pad_id := 0;
     Training.shard_size := 32; Training.data_type := "text";
     Training.norm_method := "sents";
     Training.grad_accum_count := count; Training.cuda := false |}.

Definition options : @Training.Opt unit :=
  {| Training.epochs := 3; Training.start_checkpoint_at := 1;
     Training.model_path := "checkpoints";
     Training.model_filename := "model";
     Training.other_options := tt |}.

(** A report function that hands the statistics back. *)
Definition report : @Training.ReportFunc World (list nat) nat unit nat :=
  λ _ _ _ _ _ stats w, (w, stats).

End TrainingToy.

(** * The dataset script

    A shallow embedding of [src/scripts/generate_dataset.py]: [get_system],
    the construction of [agents], [generate_examples] and the two calls at
    the end of the script.

    The systems, the controller and [json.dumps] are opaque, and
    [json.dumps] and the opening of the output file do not fail.  The script
    runs on a state with the global [num_examples], the files written and
    an abstract world [W] for the sessions and the simulation; each
    simulated dialogue and each file written is recorded. *)

Module Dataset.

Inductive exn : Type :=
  | ValueError (msg : string)
  | AssertionError
  | ZeroDivisionError
  | IndexError.

Inductive try (A : Type) : Type :=
  | Returned (a : A)
  | Raised (e : exn).
Arguments Returned {A} a.
Arguments Raised {A} e.

Inductive system {Schema Lexicon : Type} : Type :=
  | SimpleSystem
  | HeuristicSystem
  | NeuralSystem (schema : Schema) (lexicon : Lexicon) (model_path : string).
Arguments system : clear implicits.

(** [Simulated index scenario]: [Controller(scenario, sessions).simulate()]
    for the scenario at [index] of [scenario_db.scenarios_list]. *)
Inductive call {Scenario : Type} : Type :=
  | Simulated (index : Z) (scenario : Scenario)
  | Wrote (path : string).
Arguments call : clear implicits.

(** [l[i]] for an index that is not negative. *)
Definition index {A} (l : list A) (i : nat) : try A :=
  match l !! i with
  | Some x => Returned x
  | None => Raised IndexError
  end.

(** [[f(x) for x in l]]. *)
Fixpoint comprehension {A B} (f : A → try B) (l : list A) : try (list B) :=
  match l with
  | [] => Returned []
  | x :: l' =>
      match f x with
      | Raised e => Raised e
      | Returned y =>
          match comprehension f l' with
          | Raised e => Raised e
          | Returned ys => Returned (y :: ys)
          end
      end
  end.

(** The truth value of an optional string and of an optional int. *)
Definition truthy_string (s : option string) : bool :=
  match s with
  | None | Some EmptyString => false
  | Some _ => true
  end.

Definition truthy_int (z : option Z) : bool :=
  match z with
  | None | Some 0%Z => false
  | Some _ => true
  end.

Section Script.

Context {W Schema Lexicon Scenario KB Session Example : Type}.

Local Abbreviation system := (system Schema Lexicon).
Local Abbreviation call := (call Scenario).

(** The command line. *)
Record Args : Type := {
  agents : option (list string);
  model_path : option string;
  scenario_offset : Z;
  train_max_examples : option Z;
  test_max_examples : option Z;
  train_examples_paths : list string;
  test_examples_paths : list string;
}.

(** What the script builds or imports before line 33. *)
Record Env : Type := {
  schema : Schema;
  lexicon : Lexicon;
  scenarios_list : list Scenario;
  kbs : Scenario → list KB;
  new_session : system → nat → KB → W → W * Session;
  simulate : Scenario → list Session → W → W * Example;
  dumps : list Example → string;   (* json.dumps([e.to_dict() ...]) *)
}.

Variable E : Env.
Variable args : Args.

Record State : Type := {
  num_examples : Z;
  files : gmap string string;
  world : W;
}.

Definition Run (A : Type) : Type := State → list call * State * try A.

Definition ret {A} (a : A) : Run A := λ s, ([], s, Returned a).
Definition raise {A} (e : exn) : Run A := λ s, ([], s, Raised e).
Definition lift {A} (r : try A) : Run A := λ s, ([], s, r).
Definition bind {A B} (m : Run A) (k : A → Run B) : Run B :=
  λ s, match m s with
       | (l, s', Returned a) =>
           let '(l', s'', r) := k a s' in (l ++ l', s'', r)
       | (l, s', Raised e) => (l, s', Raised e)
       end.

Notation "'let*' x ':=' m 'in' k" := (bind m (fun x => k))
  (at level 10, x name, m at level 100, k at level 200).

Definition calls {A} (r : list call * State * try A) : list call := r.1.1.
Definition state {A} (r : list call * State * try A) : State := r.1.2.
Definition returned {A} (r : list call * State * try A) : try A := r.2.

(** Reading and assigning the global, and a call that uses the world. *)
Definition read_num_examples : Run Z := λ s, ([], s, Returned (num_examples s)).
Definition assign_num_examples (n : Z) : Run unit :=
  λ s, ([], {| num_examples := n; files := files s; world := world s |},
        Returned tt).
Definition in_world {A} (l : list call) (f : W → W * A) : Run A :=
  λ s, let '(w, a) := f (world s) in
       (l, {| num_examples := num_examples s; files := files s; world := w |},
        Returned a).
(** [with open(path, 'w') as out: print >>out, text] (lines 59-60), for a
    path that can be opened and a text that has been computed: the file
    then holds the text and a newline.  In the source the file is opened,
    and so emptied, before [json.dumps] and [to_dict] run; they are taken
    to return ([dumps] is a total function of the examples), so the state
    in which the file is open and still empty is never observed. *)
Definition write_file (path text : string) : Run unit :=
  λ s, ([Wrote path],
        {| num_examples := num_examples s;
           files := <[path := text +:+ String (Ascii.ascii_of_nat 10) ""]>
                      (files s);
           world := world s |},
        Returned tt).

(** Lines 33-42. *)
Definition get_system (name : string) : try system :=
  if String.eqb name "simple" then Returned SimpleSystem
  else if String.eqb name "heuristic" then Returned HeuristicSystem
  else if String.eqb name "neural" then
    if truthy_string (model_path args)
    then Returned (NeuralSystem (schema E) (lexicon E)
                                (default "" (model_path args)))
    else Raised AssertionError
  else Raised (ValueError ("Unknown system " +:+ name)).

(** Lines 44-46. *)
Definition agent_names : list string :=
  match agents args with
  | None | Some [] => ["simple"; "simple"]
  | Some names => names
  end.

Definition make_agents : try (list system) :=
  comprehension get_system agent_names.

(** Lines 52-58: the body of [for i in range(max_examples)], [range] times. *)
Fixpoint examples_loop (agents : list system) (range : nat)
    (examples : list Example) : Run (list Example) :=
  match range with
  | 0 => ret examples
  | S range' =>
      let* num := read_num_examples in
      let n := Z.of_nat (length (scenarios_list E)) in
      if (n =? 0)%Z then raise ZeroDivisionError
      else
        let i := (num mod n)%Z in
        let* scenario := lift (index (scenarios_list E) (Z.to_nat i)) in
        let* agent0 := lift (index agents 0) in
        let* kb0 := lift (index (kbs E scenario) 0) in
        let* session0 := in_world [] (new_session E agent0 0 kb0) in
        let* agent1 := lift (index agents 1) in
        let* kb1 := lift (index (kbs E scenario) 1) in
        let* session1 := in_world [] (new_session E agent1 1 kb1) in
        let sessions := [session0; session1] in
        let* ex := in_world [Simulated i scenario]
                            (simulate E scenario sessions) in
        let examples := examples ++ [ex] in
        let* num := read_num_examples in
        let* _ := assign_num_examples (num + 1) in
        examples_loop agents range' examples
  end.

(** Lines 49-59. *)
Definition generate_examples (agents : list system)
    (description examples_path : string) (max_examples : Z) : Run unit :=
  let* examples := examples_loop agents (Z.to_nat max_examples) [] in
  write_file examples_path (dumps E examples).

(** Lines 44-64: the script from the construction of the agents on. *)
Definition script : Run unit :=
  let* agents := lift make_agents in
  let* _ := assign_num_examples (scenario_offset args) in
  let* _ :=
    if truthy_int (train_max_examples args)
    then
      let* path := lift (index (train_examples_paths args) 0) in
      generate_examples agents "train" path
                        (default 0%Z (train_max_examples args))
    else ret tt in
  if truthy_int (test_max_examples args)
  then
    let* path := lift (index (test_examples_paths args) 0) in
    generate_examples agents "test" path
                      (default 0%Z (test_max_examples args))
  else ret tt.

End Script.

(** The positions of the scenarios simulated, in the order of the calls. *)
Definition simulated {Scenario} (l : list (call Scenario)) : list Z :=
  omap (λ c, match c with Simulated i _ => Some i | _ => None end) l.

End Dataset.

(** ** A toy scenario database for the dataset script *)

Module DatasetToy.

Definition env : @Dataset.Env nat unit unit nat nat nat nat :=
  {| Dataset.schema := tt;
     Dataset.lexicon := tt;
     Dataset.scenarios_list := [10; 20; 30];
     Dataset.kbs := λ scenario, [scenario; S scenario];
     Dataset.new_session := λ _ agent kb w, (S w, kb + agent);
     Dataset.simulate := λ scenario sessions w,
                           (S w, scenario + foldr Nat.add 0 sessions);
     Dataset.dumps := λ examples,
                        match examples with [] => "[]" | _ => "[...]" end |}.

Definition arguments (names : option (list string)) : Dataset.Args :=
  {| Dataset.agents := names;
     Dataset.model_path := None;
     Dataset.scenario_offset := 2;
     Dataset.train_max_examples := Some 2%Z;
     Dataset.test_max_examples := Some 1%Z;
     Dataset.train_examples_paths := ["train.json"];
     Dataset.test_examples_paths := ["test.json"] |}.

Definition start : @Dataset.State nat :=
  {| Dataset.num_examples := 2; Dataset.files := ∅; Dataset.world := 0 |}.

End DatasetToy.

(** * Properties of the driver *)

(** ** The monad *)

Lemma outcome_bind {A B} (m : M A) (f : A → M B) :
  outcome (bind m f) =
  match outcome m with
  | Ok a => outcome (f a)
  | Raise e => Raise e
  end.
Proof. destruct m as [l [a|e]]; simpl; [destruct (f a) |]; reflexivity. Qed.

Lemma log_bind {A B} (m : M A) (f : A → M B) :
  log (bind m f) =
  log m ++ match outcome m with
           | Ok a => log (f a)
           | Raise _ => []
           end.
Proof.
  destruct m as [l [a|e]]; simpl; [destruct (f a) | rewrite app_nil_r];
    reflexivity.
Qed.

Lemma outcome_bind_Ok {A B} (m : M A) (f : A → M B) (b : B) :
  outcome (bind m f) = Ok b → ∃ a, outcome m = Ok a ∧ outcome (f a) = Ok b.
Proof.
  rewrite outcome_bind. destruct (outcome m) as [a|e]; [eauto | discriminate].
Qed.

Lemma outcome_lift {A} (r : result A) : outcome (lift r) = r.
Proof. reflexivity. Qed.

Lemma outcome_ret {A} (a : A) : outcome (ret a) = Ok a.
Proof. reflexivity. Qed.

(** Splits a successful sequence into its successful parts. *)
Ltac bind_ok H :=
  repeat match type of H with
         | outcome (bind _ _) = Ok _ =>
             let a := fresh "a" in
             let Ha := fresh "Ha" in
             apply outcome_bind_Ok in H as (a & Ha & H)
         end.

Lemma mapM_Ok {A B} (f : A → M B) (l : list A) (ys : list B) :
  outcome (mapM f l) = Ok ys → Forall2 (λ x y, outcome (f x) = Ok y) l ys.
Proof.
  revert ys. induction l as [|x l IH]; intros ys H; simpl in H.
  - injection H as <-. constructor.
  - bind_ok H. injection H as <-. constructor; auto.
Qed.

Lemma mapM_log_nil {A B} (f : A → M B) (l : list A) :
  (∀ x, log (f x) = []) → log (mapM f l) = [].
Proof.
  intros Hf. induction l as [|x l IH]; simpl; [reflexivity |].
  rewrite log_bind, Hf. destruct (outcome (f x)); [| reflexivity].
  rewrite log_bind, IH. destruct (outcome (mapM f l)); reflexivity.
Qed.

Section DriverFacts.

Context {EncIn EncStates MemCol Cell PrevTurns Title DecOut Score Attn Scorer : Type}.

Local Abbreviation Generator :=
  (@Generator EncIn EncStates MemCol Cell PrevTurns DecOut Score Attn Scorer).
Local Abbreviation Batch := (@Batch EncIn PrevTurns Title).
Local Abbreviation BeamClass := (@BeamClass Score Attn Scorer).

Variable markers : Markers.
Variable BC : BeamClass.
Variable self : Generator.
Variable batch : Batch.
Variable gt_prefix : Z.

Local Abbreviation the_run := (generate_batch markers BC self batch gt_prefix).
Local Abbreviation the_beams := (make_beams markers BC self batch gt_prefix).
Local Abbreviation the_prepare := (prepare self batch gt_prefix).

(** *** The result dictionary *)

(** C10: whatever the model and the batch, the dictionary returned by
    [generate_batch] has a "gold_score" entry made of [batch.size] zeros
    and a "batch" entry that is the input batch itself. *)
Theorem generate_batch_gold_score_and_batch (r : Ret) :
  outcome the_run = Ok r →
  gold_score r = replicate (size batch) 0%Z ∧ batch_entry r = batch.
Proof.
  unfold generate_batch. intros H. bind_ok H.
  destruct a0 as [[mb ml] st]. bind_ok H.
  destruct a0 as [bs st']. bind_ok H.
  injection H as <-. split; reflexivity.
Qed.

(** *** The optional dialogue context *)

Lemma encode_without_context mb pwc st :
  prev_turns batch = None →
  outcome (encode self batch) = Ok (mb, pwc, st) → pwc = None.
Proof.
  unfold encode. intros ->.
  destruct (encoder _ _ _). simpl. congruence.
Qed.

Lemma forced_prefix_log mb st :
  log (forced_prefix self batch gt_prefix mb st) =
  if (1 <? gt_prefix)%Z
  then [EvForced (length (take (Z.to_nat (gt_prefix - 1)) (targets batch)))]
  else [].
Proof.
  unfold forced_prefix. destruct (1 <? gt_prefix)%Z; [| reflexivity].
  rewrite log_bind. simpl. destruct (decoder _ _ _ _ _) as [[? ?] ?].
  reflexivity.
Qed.

Lemma forced_prefix_outcome mb st :
  outcome (forced_prefix self batch gt_prefix mb st) =
  Ok (if (1 <? gt_prefix)%Z
      then (decoder (model self)
                    (take (Z.to_nat (gt_prefix - 1)) (targets batch))
                    mb st (lengths batch)).1.2
      else st).
Proof.
  unfold forced_prefix. destruct (1 <? gt_prefix)%Z; [| reflexivity].
  rewrite outcome_bind. simpl. destruct (decoder _ _ _ _ _) as [[? ?] ?].
  reflexivity.
Qed.

(** A batch without [prev_turns] never gets past line 125: the name
    [predict_with_context] is unbound there. *)
Lemma prepare_without_context :
  prev_turns batch = None →
  outcome the_prepare = Raise (NameError "predict_with_context").
Proof.
  intros Hnone. unfold prepare. rewrite outcome_bind.
  destruct (outcome (encode self batch)) as [[[mb pwc] st]|e] eqn:He.
  - apply encode_without_context in He as ->; [| done].
    rewrite outcome_bind, forced_prefix_outcome. reflexivity.
  - unfold encode in He. rewrite Hnone in He.
    destruct (encoder _ _ _). discriminate.
Qed.

Lemma generate_batch_without_context (bs : list (beam BC)) :
  prev_turns batch = None →
  outcome the_beams = Ok bs →
  outcome the_run = Raise (NameError "predict_with_context").
Proof.
  intros Hnone Hbs. unfold generate_batch.
  rewrite outcome_bind, Hbs, outcome_bind, prepare_without_context by done.
  reflexivity.
Qed.

Lemma generate_batch_needs_context (r : Ret) :
  outcome the_run = Ok r → is_Some (prev_turns batch).
Proof.
  intros H. destruct (prev_turns batch) eqn:Hp; [eauto |].
  unfold generate_batch in H. bind_ok H.
  rewrite prepare_without_context in Ha0 by done. discriminate.
Qed.

(** With [prev_turns] the decoder is given the encoder memory bank and the
    embedded previous turns. *)
Lemma encode_with_context previous_turns title :
  prev_turns batch = Some previous_turns →
  item_title batch = Some title →
  encode self batch =
  ret (MemList [(encoder (model self) (encoder_inputs batch)
                         (lengths batch)).2;
                (cbow_embedder (model self) previous_turns).2],
       Some true,
       init_decoder_state (model self) (encoder_inputs batch)
         (encoder (model self) (encoder_inputs batch) (lengths batch)).2
         (encoder (model self) (encoder_inputs batch) (lengths batch)).1).
Proof.
  intros Hp Ht. unfold encode. rewrite Hp, Ht.
  destruct (encoder _ _ _), (cbow_embedder _ _). reflexivity.
Qed.

(** *** The forced prefix *)

(** What the stages before the loop log once the encoder stage is through:
    the forced pass, when there is one. *)
Lemma prepare_log_encoded mb0 pwc st0 :
  outcome (encode self batch) = Ok (mb0, pwc, st0) →
  log the_prepare =
  if (1 <? gt_prefix)%Z
  then [EvForced (length (take (Z.to_nat (gt_prefix - 1)) (targets batch)))]
  else [].
Proof.
  intros He.
  assert (Hl : log (encode self batch) = []).
  { unfold encode. destruct (encoder _ _ _).
    destruct (prev_turns batch); [| reflexivity].
    rewrite log_bind. simpl. destruct (getattr _ _); [| reflexivity].
    destruct (cbow_embedder _ _). reflexivity. }
  unfold prepare. rewrite log_bind, Hl, He. simpl.
  rewrite log_bind, forced_prefix_log, forced_prefix_outcome.
  assert (Hr : ∀ d, log (repeat_src self batch mb0 pwc d) = []).
  { intros d. unfold repeat_src. rewrite log_bind. simpl.
    destruct (read_local _ _) as [b|]; [| reflexivity].
    rewrite log_bind. destruct b, mb0; reflexivity. }
  rewrite Hr, app_nil_r. reflexivity.
Qed.

Lemma prepare_log_Ok r :
  outcome the_prepare = Ok r →
  log the_prepare =
  if (1 <? gt_prefix)%Z
  then [EvForced (length (take (Z.to_nat (gt_prefix - 1)) (targets batch)))]
  else [].
Proof.
  intros H. unfold prepare in H. bind_ok H. destruct a as [[mb0 pwc] st0].
  by eapply prepare_log_encoded.
Qed.


(** *** Seeding the beams *)

Lemma py_index_of_nat {A} (l : list A) (i : nat) (x : A) :
  py_index l (Z.of_nat i) = Ok x ↔ l !! i = Some x.
Proof.
  unfold py_index.
  destruct (Z.ltb_spec (Z.of_nat i) 0); [lia |].
  destruct (Z.ltb_spec (Z.of_nat i) 0); [lia |].
  rewrite Nat2Z.id. destruct (l !! i); split; congruence.
Qed.

Lemma py_index_positive {A} (l : list A) (i : Z) (x : A) :
  (0 ≤ i)%Z → py_index l i = Ok x → l !! Z.to_nat i = Some x.
Proof.
  intros Hi H. rewrite <- (Z2Nat.id i) in H by done.
  by apply py_index_of_nat in H.
Qed.

Lemma dict_get_Ok (d : gmap string nat) (key : string) (v : nat) :
  dict_get d key = Ok v ↔ d !! key = Some v.
Proof. unfold dict_get. destruct (d !! key); split; congruence. Qed.

Lemma make_beams_length (bs : list (beam BC)) :
  outcome the_beams = Ok bs → length bs = size batch.
Proof.
  intros H%mapM_Ok%Forall2_length. by rewrite length_seq in H.
Qed.

(** C5: the beam of a batch item whose ground-truth decoder context is
    absent or empty is created with the id of the PAD marker as its [bos];
    the beam of an item with a non-empty context is created with the id of
    [tgt_sent[gt_prefix - 1]], which for [gt_prefix >= 1] is the context
    token at position [gt_prefix - 1]. *)
Theorem beams_seeded_with_bos (bs : list (beam BC)) :
  outcome the_beams = Ok bs →
  length bs = size batch ∧
  ∀ j, j < size batch →
    ∃ tgt_sent pad bos eos,
      context_data_decoder_tokens batch !! j = Some tgt_sent ∧
      bs !! j = Some (Beam BC (beam_size self) (n_best self)
                           (global_scorer self) pad bos eos
                           (min_length self)) ∧
      match tgt_sent with
      | None | Some [] =>
          word_to_ind (vocab self) !! PAD markers = Some bos
      | Some (w :: ws) =>
          ∃ word,
            py_index (w :: ws) (gt_prefix - 1) = Ok word ∧
            word_to_ind (vocab self) !! word = Some bos ∧
            ((1 ≤ gt_prefix)%Z →
             (w :: ws) !! Z.to_nat (gt_prefix - 1) = Some word)
      end.
Proof.
  intros H. apply mapM_Ok in H.
  split.
  { apply Forall2_length in H. rewrite length_seq in H. done. }
  intros j Hj.
  destruct (Forall2_lookup_l _ _ _ j j H) as (b & Hb & Hnew).
  { by apply lookup_seq_lt. }
  unfold new_beam in Hnew. bind_ok Hnew.
  rename a into pad, a0 into bos, a1 into eos.
  rewrite outcome_lift in Ha0. unfold get_bos in Ha0.
  destruct (py_index (context_data_decoder_tokens batch) (Z.of_nat j))
    as [tgt_sent|] eqn:Hctx; [| discriminate].
  apply py_index_of_nat in Hctx.
  exists tgt_sent, pad, bos, eos. split; [done |]. split.
  { rewrite Hb. f_equal. by injection Hnew. }
  destruct tgt_sent as [[|w ws]|].
  - by apply dict_get_Ok.
  - destruct (py_index (w :: ws) (gt_prefix - 1)) as [word|] eqn:Hw;
      [| discriminate].
    exists word. split; [done |]. split; [by apply dict_get_Ok |].
    intros Hge. apply py_index_positive in Hw; [done | lia].
  - by apply dict_get_Ok.
Qed.

(** The beams are built whenever the vocabulary knows the two markers and
    every item's start word. *)
Lemma make_beams_Ok :
  is_Some (word_to_ind (vocab self) !! PAD markers) →
  is_Some (word_to_ind (vocab self) !! EOS markers) →
  (∀ j, j < size batch → ∃ bos, get_bos markers self batch gt_prefix j = Ok bos) →
  ∃ bs, the_beams = ([], Ok bs).
Proof.
  intros [pad Hpad] [eos Heos] Hbos. unfold make_beams.
  assert (Hall : ∀ j, j ∈ seq 0 (size batch) →
            ∃ b, new_beam markers BC self batch gt_prefix j = ([], Ok b)).
  { intros j Hj. apply elem_of_seq in Hj. destruct (Hbos j) as [bos Hb]; [lia |].
    unfold new_beam, dict_get. rewrite Hpad, Heos, Hb. simpl. eauto. }
  induction (seq 0 (size batch)) as [|j l IH]; simpl; [by eexists |].
  destruct (Hall j) as [b ->]; [by left |].
  destruct IH as [bs ->]; [intros; apply Hall; by right |].
  simpl. eauto.
Qed.

(** *** The shape of the log *)

Lemma log_lift_bind {A B} (r : result A) (f : A → M B) :
  log (bind (lift r) f) = match r with Ok a => log (f a) | Raise _ => [] end.
Proof. rewrite log_bind. reflexivity. Qed.

Lemma make_beams_log : log the_beams = [].
Proof.
  apply mapM_log_nil. intros b. unfold new_beam.
  repeat (rewrite log_lift_bind; destruct (_ : result nat); [| reflexivity]).
  reflexivity.
Qed.

Lemma extract_log (b : beam BC) : log (extract BC self b) = [].
Proof.
  unfold extract. rewrite log_lift_bind.
  destruct (sort_finished _ _ _) as [[b' [sc ks]]|]; [| reflexivity].
  rewrite log_bind, mapM_log_nil by (by intros [? ?]).
  destruct (outcome _); reflexivity.
Qed.

Lemma from_beam_log (bs : list (beam BC)) : log (_from_beam BC self bs) = [].
Proof.
  unfold _from_beam. rewrite log_bind, mapM_log_nil by apply extract_log.
  destruct (outcome _); reflexivity.
Qed.

Lemma prepare_log_iteration : Forall (λ e, iteration e = None) (log the_prepare).
Proof.
  unfold prepare. rewrite log_bind.
  assert (Hl : log (encode self batch) = []).
  { unfold encode. destruct (encoder _ _ _).
    destruct (prev_turns batch); [| reflexivity].
    rewrite log_lift_bind. destruct (getattr _ _); [| reflexivity].
    destruct (cbow_embedder _ _). reflexivity. }
  rewrite Hl. destruct (outcome (encode self batch)) as [[[mb pwc] st]|];
    [| constructor].
  simpl. rewrite log_bind, forced_prefix_log, forced_prefix_outcome.
  assert (Hr : ∀ d, log (repeat_src self batch mb pwc d) = []).
  { intros d. unfold repeat_src. rewrite log_lift_bind.
    destruct (read_local _ _) as [b|]; [| reflexivity].
    rewrite log_bind. destruct b, mb; reflexivity. }
  rewrite Hr, app_nil_r. destruct (1 <? gt_prefix)%Z; repeat constructor.
Qed.

(** The log of a run: the forced pass, if any, followed by the log of the
    stepping loop. *)
Lemma run_log :
  log the_run =
  match outcome the_beams with
  | Raise _ => []
  | Ok bs =>
      log the_prepare ++
      match outcome the_prepare with
      | Raise _ => []
      | Ok (mb, ml, st) =>
          log (stepping BC self batch mb ml (seq 0 (max_length self)) bs st)
      end
  end.
Proof.
  unfold generate_batch. rewrite log_bind, make_beams_log. simpl.
  destruct (outcome the_beams) as [bs|]; [| reflexivity].
  rewrite log_bind. f_equal.
  destruct (outcome the_prepare) as [[[mb ml] st]|]; [| reflexivity].
  rewrite log_bind.
  destruct (outcome (stepping _ _ _ _ _ _ _ _)) as [[bs' st']|];
    [| by rewrite app_nil_r].
  rewrite log_bind, from_beam_log. simpl.
  destruct (outcome (_from_beam _ _ _)); by rewrite app_nil_r.
Qed.

(** C8, as the code has it: when [gt_prefix > 1] the first [gt_prefix - 1]
    rows of [batch.targets] are run through the decoder, once, before the
    loop; when [gt_prefix <= 1] no forced pass takes place.  The state with
    which [generate_batch] enters the stepping loop is, in the first case,
    the state that decoder call returned and, in the second, the state built
    by [init_decoder_state], in both cases repeated [beam_size] times
    (line 130): it is the state of [init_decoder_state] itself only for a
    beam of size one.  The rest of the run is the loop from that state,
    followed by [_from_beam]. *)
Theorem forced_prefix_then_repeated mb0 pwc st0 bs mb ml st :
  outcome (encode self batch) = Ok (mb0, pwc, st0) →
  outcome the_beams = Ok bs →
  outcome the_prepare = Ok (mb, ml, st) →
  let rest :=
    let! '(bs', _) := stepping BC self batch mb ml
                               (seq 0 (max_length self)) bs st in
    let! r := _from_beam BC self bs' in
    ret {| predictions := fb_predictions r;
           scores := fb_scores r;
           attention := fb_attention r;
           gold_score := replicate (size batch) 0%Z;
           batch_entry := batch |} in
  st0 = init_decoder_state (model self) (encoder_inputs batch)
          (encoder (model self) (encoder_inputs batch) (lengths batch)).2
          (encoder (model self) (encoder_inputs batch) (lengths batch)).1
  ∧ log the_prepare =
      (if (1 <? gt_prefix)%Z
       then [EvForced (length (take (Z.to_nat (gt_prefix - 1)) (targets batch)))]
       else [])
  ∧ st = repeat_beam_size_times (beam_size self)
           (if (1 <? gt_prefix)%Z
            then (decoder (model self)
                          (take (Z.to_nat (gt_prefix - 1)) (targets batch))
                          mb0 st0 (lengths batch)).1.2
            else st0)
  ∧ the_run = (log the_prepare ++ log rest, outcome rest).
Proof.
  intros He Hbs Hp. cbv zeta. split; [| split; [| split]].
  - unfold encode in He. destruct (encoder _ _ _) as [es em]. simpl.
    destruct (prev_turns batch); [| injection He; congruence].
    bind_ok He. destruct (cbow_embedder _ _). injection He; congruence.
  - by eapply prepare_log_encoded.
  - unfold prepare in Hp.
    rewrite outcome_bind, He in Hp. simpl in Hp.
    rewrite outcome_bind, forced_prefix_outcome in Hp.
    unfold repeat_src in Hp. bind_ok Hp. injection Hp as _ _ <-. reflexivity.
  - unfold generate_batch.
    pose proof make_beams_log as Hlog.
    destruct the_beams as [l0 r0]. cbn [log outcome fst snd] in Hlog, Hbs.
    subst l0 r0.
    destruct the_prepare as [lp rp]. cbn [log outcome fst snd] in Hp |- *.
    subst rp. unfold bind at 1 2.
    by destruct (let! '(bs', _) := stepping _ _ _ _ _ _ _ _ in _).
Qed.

Section SteppingFacts.

Variable memory_bank : @MemoryBank MemCol.
Variable memory_lengths : list nat.

Local Abbreviation the_advance_each :=
  (advance_each BC self batch memory_lengths).
Local Abbreviation the_step := (step BC self batch memory_bank memory_lengths).
Local Abbreviation the_stepping :=
  (stepping BC self batch memory_bank memory_lengths).

(** What [advance_each] logs up to a failure, and in full on success: for
    each beam in turn, the call of [advance] with the beam's [done()] before
    the call, then the call of [beam_update]. *)
Lemma step_calls_cons i j b (bs : list (beam BC)) :
  step_calls BC i j (b :: bs) =
  EvAdvance i j (done BC b) :: EvBeamUpdate i j :: step_calls BC i (S j) bs.
Proof.
  unfold step_calls. cbn [imap concat app]. rewrite Nat.add_0_r. do 3 f_equal.
  apply imap_ext. intros k b0 _. unfold compose.
  by replace (j + S k) with (S j + k) by lia.
Qed.

Lemma advance_each_log i out attn j bs st :
  ∃ n, log (the_advance_each i out attn j bs st) = take n (step_calls BC i j bs)
       ∧ (is_Some (match outcome (the_advance_each i out attn j bs st) with
                   | Ok x => Some x | Raise _ => None end) →
          length bs * 2 ≤ n).
Proof.
  revert j st. induction bs as [|b bs IH]; intros j st.
  { exists 0. split; [reflexivity | simpl; lia]. }
  cbn [advance_each]. unfold lift, emit, bind, ret.
  destruct (item_scores _ _) as [wp|].
  2:{ exists 0. split; [reflexivity | by intros [? ?]]. }
  destruct (item_attn _ _ _ _ _) as [aj|].
  2:{ exists 0. split; [reflexivity | by intros [? ?]]. }
  destruct (advance _ _ _ _) as [b'|].
  2:{ exists 1. rewrite step_calls_cons.
      split; [reflexivity | by intros [? ?]]. }
  destruct (beam_update _ _ _ _) as [st'|].
  2:{ exists 2. rewrite step_calls_cons.
      split; [reflexivity | by intros [? ?]]. }
  destruct (IH (S j) st') as (n & Hn & Hok).
  rewrite step_calls_cons.
  set (rest := step_calls BC i (S j) bs) in *.
  destruct (the_advance_each i out attn (S j) bs st')
    as [l [[bs'' st'']|]]; cbn [log outcome fst snd] in *; subst l.
  - exists (2 + n). cbn [app take Nat.add]. rewrite app_nil_r.
    split; [reflexivity |]. intros _.
    assert (length bs * 2 ≤ n) by (apply Hok; eauto). cbn [length]. lia.
  - exists (2 + n). cbn [app take Nat.add].
    split; [reflexivity | by intros [? ?]].
Qed.

Lemma advance_each_length i out attn j bs st bs' st' :
  outcome (the_advance_each i out attn j bs st) = Ok (bs', st') →
  length bs' = length bs.
Proof.
  revert j st bs' st'. induction bs as [|b bs IH]; intros j st bs' st' H.
  { injection H as <- _. reflexivity. }
  cbn [advance_each] in H. bind_ok H. destruct a5 as [bs'' st''].
  injection H as <- _. apply IH in Ha5. cbn [length]. by rewrite Ha5.
Qed.

Lemma step_calls_iteration i j (bs : list (beam BC)) :
  Forall (λ e, iteration e = Some i ∧ is_decode e = false
               ∧ ∀ i' d, e ≠ EvAllDone i' d)
         (step_calls BC i j bs).
Proof.
  revert j. induction bs as [|b bs IH]; intros j; [constructor |].
  rewrite step_calls_cons. repeat constructor; done || apply IH.
Qed.

Lemma step_calls_advance i j (bs : list (beam BC)) i' j' d :
  EvAdvance i' j' d ∈ step_calls BC i j bs ↔
  i' = i ∧ ∃ b, j ≤ j' ∧ bs !! (j' - j) = Some b ∧ d = done BC b.
Proof.
  revert j. induction bs as [|b bs IH]; intros j.
  { split; [by intros ?%elem_of_nil | by intros (_ & b & _ & Hb & _)]. }
  rewrite step_calls_cons, !elem_of_cons, IH. split.
  - intros [H | [H | (-> & b' & Hle & Hb & ->)]]; [| done |].
    + injection H as -> -> ->. split; [done |]. exists b.
      by rewrite Nat.sub_diag.
    + split; [done |]. exists b'. split; [lia |].
      by replace (j' - j) with (S (j' - S j)) by lia.
  - intros (-> & b' & Hle & Hb & ->).
    destruct (decide (j' = j)) as [-> | Hne].
    + rewrite Nat.sub_diag in Hb. injection Hb as ->. by left.
    + right; right. split; [done |]. exists b'. split; [lia |].
      by replace (j' - j) with (S (j' - S j)) in Hb by lia.
Qed.

(** What one iteration logs: nothing when the current tokens cannot be
    stacked, otherwise the decoder call followed by the calls on the beams,
    all of them when the iteration succeeds. *)
Lemma step_log i bs st :
  log (the_step i bs st) = [] ∧ (∀ r, outcome (the_step i bs st) ≠ Ok r)
  ∨ ∃ n, log (the_step i bs st) = EvDecode i :: take n (step_calls BC i 0 bs)
         ∧ (∀ r, outcome (the_step i bs st) = Ok r →
                 length bs * 2 ≤ n ∧ length r.1 = length bs).
Proof.
  unfold step, lift, emit, bind.
  destruct (stack_t_view _) as [inp|].
  2:{ left. split; [reflexivity | by intros ? ?]. }
  right. destruct (decoder _ _ _ _ _) as [[dec_out st1] attn].
  destruct (unbottle _ _ _) as [out|].
  2:{ exists 0. split; [reflexivity | by intros ?]. }
  destruct (advance_each_log i out attn 0 bs st1) as (n & Hn & Hok).
  pose proof (advance_each_length i out attn 0 bs st1) as Hlen.
  destruct (the_advance_each i out attn 0 bs st1) as [l r].
  cbn [log outcome fst snd] in *. subst l. exists n. split; [reflexivity |].
  intros [bs' st'] ->. split; [apply Hok; eauto | by eapply Hlen].
Qed.

Lemma stepping_log_cons i range bs st :
  log (the_stepping (i :: range) bs st) =
  EvAllDone i (forallb (done BC) bs) ::
  if forallb (done BC) bs then []
  else log (the_step i bs st) ++
       match outcome (the_step i bs st) with
       | Ok (bs', st') => log (the_stepping range bs' st')
       | Raise _ => []
       end.
Proof.
  cbn [stepping]. rewrite log_bind. cbn [log emit outcome fst snd app].
  f_equal. destruct (forallb _ _); [reflexivity |].
  rewrite log_bind. destruct (outcome _) as [[? ?]|]; reflexivity.
Qed.

Lemma stepping_outcome_cons i range bs st :
  outcome (the_stepping (i :: range) bs st) =
  if forallb (done BC) bs then Ok (bs, st)
  else match outcome (the_step i bs st) with
       | Ok (bs', st') => outcome (the_stepping range bs' st')
       | Raise e => Raise e
       end.
Proof.
  cbn [stepping]. rewrite outcome_bind. cbn [log emit outcome fst snd].
  destruct (forallb _ _); [reflexivity |].
  rewrite outcome_bind. destruct (outcome _) as [[? ?]|]; reflexivity.
Qed.

Lemma step_log_events i bs st :
  Forall (λ e, iteration e = Some i ∧ ∀ i' d, e ≠ EvAllDone i' d)
         (log (the_step i bs st)).
Proof.
  destruct (step_log i bs st) as [[-> _] | (n & -> & _)]; [constructor |].
  constructor; [done |]. apply Forall_take.
  eapply Forall_impl; [apply step_calls_iteration |].
  intros e (? & _ & ?). done.
Qed.

Lemma step_log_steps i bs st : steps_performed (log (the_step i bs st)) ≤ 1.
Proof.
  unfold steps_performed.
  destruct (step_log i bs st) as [[-> _] | (n & -> & _)]; [simpl; lia |].
  cbn [List.filter is_decode length].
  assert (Hnil : List.filter is_decode (take n (step_calls BC i 0 bs)) = []).
  { pose proof (Forall_take _ n _ (step_calls_iteration i 0 bs)) as Hall.
    induction Hall as [|e l (_ & He & _) _ IH]; [reflexivity |].
    cbn [List.filter]. by rewrite He. }
  rewrite Hnil. simpl. lia.
Qed.

Lemma step_log_advance i bs st i' j d :
  EvAdvance i' j d ∈ log (the_step i bs st) →
  i' = i ∧ ∃ b, bs !! j = Some b ∧ d = done BC b.
Proof.
  destruct (step_log i bs st) as [[-> _] | (n & -> & _)];
    [by intros ?%elem_of_nil |].
  intros [? | H%subseteq_take]%elem_of_cons; [done |].
  apply step_calls_advance in H as (-> & b & _ & Hb & ->).
  rewrite Nat.sub_0_r in Hb. eauto.
Qed.

Lemma step_calls_length i j (bs : list (beam BC)) :
  length (step_calls BC i j bs) = length bs * 2.
Proof.
  revert j. induction bs as [|b bs IH]; intros j; [reflexivity |].
  rewrite step_calls_cons. cbn [length]. rewrite IH. lia.
Qed.

(** A successful iteration calls [advance] on every beam. *)
Lemma step_advances_all i bs st r j b :
  outcome (the_step i bs st) = Ok r →
  bs !! j = Some b →
  EvAdvance i j (done BC b) ∈ log (the_step i bs st).
Proof.
  intros Hok Hb.
  destruct (step_log i bs st) as [[_ Hno] | (n & -> & Hn)];
    [by destruct (Hno r) |].
  destruct (Hn r Hok) as [Hlen _]. right.
  rewrite take_ge by (rewrite step_calls_length; lia).
  apply step_calls_advance. split; [done |]. exists b.
  rewrite Nat.sub_0_r. split; [lia | done].
Qed.

(** Every event of the loop belongs to an iteration of its range. *)
Lemma stepping_log_events range bs st :
  Forall (λ e, ∃ i, i ∈ range ∧ iteration e = Some i)
         (log (the_stepping range bs st)).
Proof.
  revert bs st. induction range as [|i range IH]; intros bs st;
    [constructor |].
  rewrite stepping_log_cons.
  constructor; [exists i; split; [left | done] |].
  destruct (forallb _ _); [constructor |].
  apply Forall_app. split.
  - eapply Forall_impl; [apply step_log_events |].
    intros e [He _]. exists i. split; [left | done].
  - destruct (outcome _) as [[bs' st']|]; [| constructor].
    eapply Forall_impl; [apply IH |].
    intros e (i' & Hi' & He). exists i'. split; [by right | done].
Qed.

Lemma stepping_steps range bs st :
  steps_performed (log (the_stepping range bs st)) ≤ length range.
Proof.
  unfold steps_performed.
  revert bs st. induction range as [|i range IH]; intros bs st;
    [simpl; lia |].
  rewrite stepping_log_cons. cbn [List.filter is_decode length].
  destruct (forallb _ _); [simpl; lia |].
  rewrite List.filter_app, length_app.
  pose proof (step_log_steps i bs st) as H1. unfold steps_performed in H1.
  destruct (outcome _) as [[bs' st']|]; [specialize (IH bs' st') | simpl]; lia.
Qed.

(** [advance] is called in an iteration only after the test of line 134
    has found a beam that is not done. *)
Lemma stepping_advance_guarded range bs st i j d :
  EvAdvance i j d ∈ log (the_stepping range bs st) →
  EvAllDone i false ∈ log (the_stepping range bs st).
Proof.
  revert bs st. induction range as [|i0 range IH]; intros bs st;
    [by intros ?%elem_of_nil |].
  rewrite stepping_log_cons.
  intros [? | H]%elem_of_cons; [done |].
  destruct (forallb _ _); [by apply elem_of_nil in H |].
  apply elem_of_app in H as [H | H].
  - apply step_log_advance in H as [-> _]. left.
  - right. apply elem_of_app. right.
    destruct (outcome _) as [[bs' st']|]; [by apply IH | by apply elem_of_nil in H].
Qed.

(** In a successful run of the loop, an iteration that reaches the decoder
    calls [advance] on every beam. *)
Lemma stepping_advances_all range bs st r i j :
  outcome (the_stepping range bs st) = Ok r →
  EvDecode i ∈ log (the_stepping range bs st) →
  j < length bs →
  ∃ d, EvAdvance i j d ∈ log (the_stepping range bs st).
Proof.
  revert bs st. induction range as [|i0 range IH]; intros bs st Hok;
    [by intros ?%elem_of_nil |].
  rewrite stepping_outcome_cons in Hok. rewrite stepping_log_cons.
  intros [? | H]%elem_of_cons Hj; [done |].
  destruct (forallb _ _); [by apply elem_of_nil in H |].
  destruct (outcome (the_step i0 bs st)) as [[bs' st']|] eqn:Hstep;
    [| discriminate].
  apply elem_of_app in H as [H | H].
  - pose proof (step_log_events i0 bs st) as Hev.
    rewrite Forall_forall in Hev. apply Hev in H as [Hi _].
    injection Hi as ->.
    destruct (lookup_lt_is_Some_2 bs j Hj) as [b Hb].
    exists (done BC b). right. apply elem_of_app. left.
    by eapply step_advances_all.
  - destruct (IH bs' st' Hok H) as [d Hd].
    { destruct (step_log i0 bs st) as [[_ Hno] | (n & _ & Hn)];
        [by destruct (Hno (bs', st')) |].
      destruct (Hn _ Hstep) as [_ Hlen]. simpl in Hlen. lia. }
    exists d. right. apply elem_of_app. by right.
Qed.

(** Once the test of line 134 succeeds, no decoding step follows. *)
Lemma stepping_stops_when_done a n bs st i i' :
  EvAllDone i true ∈ log (the_stepping (seq a n) bs st) →
  EvDecode i' ∈ log (the_stepping (seq a n) bs st) →
  i' < i.
Proof.
  revert a bs st. induction n as [|n IH]; intros a bs st;
    [by intros ?%elem_of_nil |].
  cbn [seq]. rewrite stepping_log_cons.
  destruct (forallb _ _).
  { intros _ [? | ?%elem_of_nil]%elem_of_cons; done. }
  intros [? | Hd]%elem_of_cons [? | He]%elem_of_cons; try done.
  pose proof (step_log_events a bs st) as Hstep.
  rewrite Forall_forall in Hstep.
  apply elem_of_app in Hd as [Hd | Hd].
  { apply Hstep in Hd as [_ Hd]. by destruct (Hd i true). }
  destruct (outcome _) as [[bs' st']|]; [| by apply elem_of_nil in Hd].
  apply elem_of_app in He as [He | He]; [| by eapply IH].
  apply Hstep in He as [He _]. injection He as ->.
  pose proof (stepping_log_events (seq (S a) n) bs' st') as Hall.
  rewrite Forall_forall in Hall.
  apply Hall in Hd as (i0 & Hin & Hi0). injection Hi0 as ->.
  apply elem_of_seq in Hin. lia.
Qed.

(** The [advance] calls of an iteration are made on the beams in index
    order, from beam 0 on; all beams are reached when the iteration
    completes, that is when the loop returns or goes on to a next test. *)
Lemma advances_at_app i (l1 l2 : list event) :
  advances_at i (l1 ++ l2) = advances_at i l1 ++ advances_at i l2.
Proof. apply List.filter_app. Qed.

Lemma advances_at_other i (l : list event) :
  Forall (λ e, iteration e ≠ Some i) l → advances_at i l = [].
Proof.
  induction 1 as [|e l He _ IH]; [done |].
  destruct e as [| | |i' j d|]; cbn in *; try done.
  destruct (Nat.eqb_spec i' i); [congruence | done].
Qed.

Lemma advances_at_step_calls i j n (bs : list (beam BC)) :
  ∃ m, advances_at i (take n (step_calls BC i j bs))
       = imap (λ k d, EvAdvance i (j + k) d) (done BC <$> take m bs)
       ∧ (length bs * 2 ≤ n → length bs ≤ m).
Proof.
  revert j n. induction bs as [|b bs IH]; intros j n.
  { exists 0. unfold step_calls. simpl. rewrite take_nil.
    split; [done | simpl; lia]. }
  rewrite step_calls_cons.
  destruct n as [|[|n]].
  - exists 0. split; [done | simpl; lia].
  - exists 1. split; [| simpl; lia].
    cbn. rewrite Nat.eqb_refl, take_0, Nat.add_0_r. done.
  - destruct (IH (S j) n) as (m & Hm & Hfull).
    exists (S m). split; [| simpl; lia].
    cbn [take advances_at List.filter]. rewrite Nat.eqb_refl.
    fold (advances_at i (take n (step_calls BC i (S j) bs))).
    rewrite Hm. cbn [fmap list_fmap imap]. rewrite Nat.add_0_r. f_equal.
    apply imap_ext. intros k d _. simpl. f_equal. lia.
Qed.

Lemma stepping_advances_ordered a n bs st i :
  ∃ ds,
    advances_at i (log (the_stepping (seq a n) bs st)) = imap (EvAdvance i) ds
    ∧ length ds ≤ length bs
    ∧ (EvDecode i ∈ log (the_stepping (seq a n) bs st) →
       (∃ r, outcome (the_stepping (seq a n) bs st) = Ok r)
       ∨ (∃ d, EvAllDone (S i) d ∈ log (the_stepping (seq a n) bs st)) →
       length ds = length bs).
Proof.
  revert a bs st. induction n as [|n IH]; intros a bs st.
  { exists []. split; [done |]. split; [simpl; lia |].
    by intros ?%elem_of_nil. }
  cbn [seq]. rewrite stepping_log_cons, stepping_outcome_cons.
  destruct (forallb (done BC) bs).
  { exists []. split; [done |]. split; [simpl; lia |].
    intros [? | ?%elem_of_nil]%elem_of_cons; done. }
  pose proof (step_log_events a bs st) as Hstep.
  pose proof (λ bs' st', stepping_log_events (seq (S a) n) bs' st') as Hrest.
  change (EvAllDone a false :: ?l) with ([EvAllDone a false] ++ l).
  rewrite !advances_at_app. cbn [advances_at List.filter app].
  destruct (decide (i = a)) as [-> | Hne].
  - assert (Hnone : advances_at a
              match outcome (the_step a bs st) with
              | Ok (bs', st') => log (the_stepping (seq (S a) n) bs' st')
              | Raise _ => []
              end = []).
    { destruct (outcome (the_step a bs st)) as [[bs' st']|]; [| done].
      apply advances_at_other. eapply Forall_impl; [apply Hrest |].
      intros e (i' & Hin & ->) [= ->]. apply elem_of_seq in Hin. lia. }
    rewrite Hnone, app_nil_r.
    destruct (step_log a bs st) as [[Hlog Hno] | (k & Hlog & Hk)].
    + exists []. rewrite Hlog. split; [done |]. split; [simpl; lia |].
      destruct (outcome (the_step a bs st)) as [[bs' st']|];
        [by destruct (Hno (bs', st')) |].
      rewrite app_nil_r.
      intros [? | ?%elem_of_nil]%elem_of_cons; done.
    + destruct (advances_at_step_calls a 0 k bs) as (m & Hm & Hfull).
      exists (done BC <$> take m bs). rewrite Hlog.
      cbn [advances_at List.filter].
      fold (advances_at a (take k (step_calls BC a 0 bs))).
      rewrite Hm. split; [done |].
      rewrite length_fmap, length_take. split; [lia |].
      intros _ Hdone.
      assert (Hok : ∃ r, outcome (the_step a bs st) = Ok r).
      { destruct (outcome (the_step a bs st)) as [r|] eqn:Hr; [by eexists |].
        destruct Hdone as [[r Hr'] | [d Hd]]; [done |].
        rewrite app_nil_r in Hd.
        apply elem_of_cons in Hd as [Hd | Hd]; [injection Hd; lia |].
        rewrite <- Hlog in Hd.
        rewrite Forall_forall in Hstep. apply Hstep in Hd as [_ Hd].
        by destruct (Hd (S a) d). }
      destruct Hok as [r Hr]. destruct (Hk r Hr) as [Hlen _].
      specialize (Hfull Hlen). lia.
  - assert (Hnone : advances_at i (log (the_step a bs st)) = []).
    { apply advances_at_other. eapply Forall_impl; [apply Hstep |].
      intros e [-> _] [= ->]. done. }
    rewrite Hnone, app_nil_l.
    destruct (outcome (the_step a bs st)) as [[bs' st']|] eqn:Hr.
    + destruct (IH (S a) bs' st') as (ds & Hds & Hle & Hfull).
      assert (Hlen : length bs' = length bs).
      { destruct (step_log a bs st) as [[_ Hno] | (k & _ & Hk)];
          [by destruct (Hno (bs', st')) |].
        by destruct (Hk _ Hr) as [_ ?]. }
      exists ds. split; [done |]. split; [lia |].
      rewrite <- Hlen.
      intros Hdec Hdone.
      assert (Hdec' : EvDecode i ∈ log (the_stepping (seq (S a) n) bs' st')).
      { apply elem_of_cons in Hdec as [? | Hdec]; [done |].
        apply elem_of_app in Hdec as [Hdec | Hdec]; [| done].
        rewrite Forall_forall in Hstep. apply Hstep in Hdec as [Hi _].
        injection Hi as ->. done. }
      apply Hfull; [done |].
      destruct Hdone as [Hret | [d Hd]]; [by left | right].
      exists d.
      apply elem_of_cons in Hd as [Hd | Hd].
      * injection Hd as <- _.
        specialize (Hrest bs' st'). rewrite Forall_forall in Hrest.
        apply Hrest in Hdec' as (i' & Hin & Hi'). injection Hi' as <-.
        apply elem_of_seq in Hin. lia.
      * apply elem_of_app in Hd as [Hd | Hd]; [| done].
        rewrite Forall_forall in Hstep. apply Hstep in Hd as [_ Hd].
        by destruct (Hd (S i) d).
    + exists []. rewrite app_nil_r. split; [done |]. split; [simpl; lia |].
      intros Hdec.
      apply elem_of_cons in Hdec as [? | Hdec]; [done |].
      rewrite Forall_forall in Hstep. apply Hstep in Hdec as [Hi _].
      injection Hi as ->. done.
Qed.

End SteppingFacts.

(** *** The guard of the stepping loop *)

(** C1, as the code has it: [advance] is called in an iteration only when
    the test of line 134 found some beam that is not done.  In every
    iteration the calls of [advance] are made on the beams of the batch in
    index order, from beam 0 on, whether the beam reports done or not
    ([ds] lists what [done()] returned before each call).  They reach every
    beam of the batch in every iteration that has called the decoder, unless
    the exception that ends the run is raised in that iteration: they do so
    when the run returns, when the loop returns, and when the test of the
    next iteration is reached. *)
Theorem advance_only_while_some_beam_pending :
  (∀ i j d, EvAdvance i j d ∈ log the_run → EvAllDone i false ∈ log the_run)
  ∧ (∀ i, ∃ ds,
       advances_at i (log the_run) = imap (EvAdvance i) ds
       ∧ length ds ≤ size batch
       ∧ (EvDecode i ∈ log the_run →
          (∃ r, outcome the_run = Ok r)
          ∨ (∃ bs mb ml st r,
               outcome the_beams = Ok bs
               ∧ outcome the_prepare = Ok (mb, ml, st)
               ∧ outcome (stepping BC self batch mb ml
                            (seq 0 (max_length self)) bs st) = Ok r)
          ∨ (∃ d, EvAllDone (S i) d ∈ log the_run) →
          length ds = size batch)).
Proof.
  pose proof prepare_log_iteration as Hprep.
  split.
  - rewrite Forall_forall in Hprep.
    intros i j d. rewrite run_log.
    destruct (outcome the_beams) as [bs|]; [| by intros ?%elem_of_nil].
    intros [H | H]%elem_of_app; [by apply Hprep in H |].
    apply elem_of_app. right.
    destruct (outcome the_prepare) as [[[mb ml] st]|];
      [| by apply elem_of_nil in H].
    by eapply stepping_advance_guarded.
  - intros i.
    assert (Hnone : advances_at i (log the_prepare) = []).
    { apply advances_at_other. eapply Forall_impl; [apply Hprep |].
      intros e -> [=]. }
    assert (Hout : ∀ r, outcome the_run = Ok r →
              ∃ bs mb ml st r',
                outcome the_beams = Ok bs
                ∧ outcome the_prepare = Ok (mb, ml, st)
                ∧ outcome (stepping BC self batch mb ml
                             (seq 0 (max_length self)) bs st) = Ok r').
    { intros r Hok. unfold generate_batch in Hok. bind_ok Hok.
      destruct a0 as [[mb ml] st]. bind_ok Hok. by eexists _, _, _, _, _. }
    rewrite run_log.
    destruct (outcome the_beams) as [bs|] eqn:Hbs.
    2:{ exists []. split; [done |]. split; [simpl; lia |].
        by intros ?%elem_of_nil. }
    rewrite advances_at_app, Hnone, app_nil_l.
    rewrite Forall_forall in Hprep.
    destruct (outcome the_prepare) as [[[mb ml] st]|] eqn:Hp.
    2:{ exists []. split; [done |]. split; [simpl; lia |].
        rewrite app_nil_r. by intros ?%Hprep. }
    destruct (stepping_advances_ordered mb ml 0 (max_length self) bs st i)
      as (ds & Hds & Hle & Hfull).
    rewrite (make_beams_length _ Hbs) in Hle, Hfull.
    exists ds. split; [done |]. split; [done |].
    intros [H | Hdec]%elem_of_app Hdone; [by apply Hprep in H |].
    apply Hfull; [done |].
    assert (Hloop : (∃ bs0 mb0 ml0 st0 r,
                       Ok bs = Ok bs0
                       ∧ Ok (mb, ml, st) = Ok (mb0, ml0, st0)
                       ∧ outcome (stepping BC self batch mb0 ml0
                                    (seq 0 (max_length self)) bs0 st0) = Ok r)
                    ∨ (∃ d, EvAllDone (S i) d ∈
                         log the_prepare
                         ++ log (stepping BC self batch mb ml
                                   (seq 0 (max_length self)) bs st))).
    { destruct Hdone as [[r Hr] | [Hl | Hd]]; [| by left | by right].
      left. by apply Hout in Hr. }
    destruct Hloop
      as [(bs0 & mb0 & ml0 & st0 & r & [= <-] & [= <- <- <-] & Hr) | [d Hd]].
    + left. by exists r.
    + right. exists d.
      apply elem_of_app in Hd as [Hd | Hd]; [by apply Hprep in Hd | done].
Qed.

(** *** Termination of the stepping loop *)

(** C6: a run performs at most [max_length] decoding steps, whatever the
    batch and the model, and once the test of line 134 finds every beam
    done no decoding step is performed any more. *)
Theorem stepping_loop_bounded :
  steps_performed (log the_run) ≤ max_length self
  ∧ (∀ i i', EvAllDone i true ∈ log the_run →
             EvDecode i' ∈ log the_run → i' < i)
  ∧ (∀ mb ml i range bs st,
       forallb (done BC) bs = true →
       stepping BC self batch mb ml (i :: range) bs st
       = ([EvAllDone i true], Ok (bs, st))).
Proof.
  pose proof prepare_log_iteration as Hprep.
  split; [| split].
  - unfold steps_performed. rewrite run_log.
    destruct (outcome the_beams) as [bs|]; [| simpl; lia].
    rewrite List.filter_app, length_app.
    assert (Hnil : List.filter is_decode (log the_prepare) = []).
    { induction Hprep as [|e l He _ IH]; [reflexivity |].
      cbn [List.filter]. destruct e; try discriminate; done. }
    rewrite Hnil.
    destruct (outcome the_prepare) as [[[mb ml] st]|]; [| simpl; lia].
    pose proof (stepping_steps mb ml (seq 0 (max_length self)) bs st) as H.
    unfold steps_performed in H. rewrite length_seq in H.
    cbn [length Nat.add]. lia.
  - rewrite Forall_forall in Hprep. intros i i'. rewrite run_log.
    destruct (outcome the_beams) as [bs|]; [| by intros ?%elem_of_nil].
    intros [H | H]%elem_of_app [H' | H']%elem_of_app;
      try (by apply Hprep in H); try (by apply Hprep in H').
    destruct (outcome the_prepare) as [[[mb ml] st]|];
      [| by apply elem_of_nil in H].
    by eapply stepping_stops_when_done.
  - intros mb ml i range bs st Hdone. cbn [stepping]. rewrite Hdone.
    reflexivity.
Qed.

(** *** Reindexing the decoder state *)

Lemma beam_update_Ok (idx : nat) (positions : list nat) (k : nat)
    (st st' : list (list Cell)) :
  beam_update idx positions k st = Ok st' →
  length st = k ∧ length positions = k
  ∧ Forall (λ p, p < k) positions
  ∧ Forall (λ row : list Cell, idx < length row) st
  ∧ st' = imap (λ k' row,
                match positions !! k' with
                | Some p =>
                    match entry st p idx with
                    | Some c => <[idx := c]> row
                    | None => row
                    end
                | None => row
                end) st.
Proof.
  unfold beam_update.
  destruct (length st =? k) eqn:H1; [| discriminate].
  destruct (length positions =? k) eqn:H2; [| discriminate].
  destruct (forallb (λ p, p <? k) positions) eqn:H3; [| discriminate].
  destruct (forallb (λ row : list Cell, idx <? length row) st) eqn:H4;
    [| discriminate].
  intros [= <-]. apply Nat.eqb_eq in H1, H2.
  rewrite forallb_forall in H3, H4.
  repeat split; try done.
  - apply Forall_forall. intros p Hp. apply Nat.ltb_lt, H3.
    by apply list_elem_of_In.
  - apply Forall_forall. intros row Hrow. apply Nat.ltb_lt, H4.
    by apply list_elem_of_In.
Qed.

(** The entries of the other batch items are left as they are. *)
Lemma beam_update_frame (idx : nat) (positions : list nat) (k : nat)
    (st st' : list (list Cell)) (k' j : nat) :
  beam_update idx positions k st = Ok st' →
  j ≠ idx → entry st' k' j = entry st k' j.
Proof.
  intros (_ & _ & _ & _ & ->)%beam_update_Ok Hne. unfold entry at 1 3.
  rewrite list_lookup_imap. destruct (st !! k') as [row|]; [| done]. simpl.
  destruct (positions !! k') as [p|]; [| done].
  destruct (entry st p idx); [| done]. by apply list_lookup_insert_ne.
Qed.

(** The entries of batch item [idx] are taken from the slots listed in
    [positions]. *)
Lemma beam_update_item (idx : nat) (positions : list nat) (k : nat)
    (st st' : list (list Cell)) (k' p : nat) :
  beam_update idx positions k st = Ok st' →
  positions !! k' = Some p → entry st' k' idx = entry st p idx.
Proof.
  intros (Hst & Hpos & Hlt & Hrows & ->)%beam_update_Ok Hp.
  assert (Hk' : k' < length st).
  { apply lookup_lt_Some in Hp. lia. }
  destruct (lookup_lt_is_Some_2 st k' Hk') as [row Hrow].
  assert (Hpk : p < length st).
  { rewrite Forall_forall in Hlt. rewrite Hst. apply Hlt.
    by eapply list_elem_of_lookup_2. }
  destruct (lookup_lt_is_Some_2 st p Hpk) as [src Hsrc].
  rewrite Forall_forall in Hrows.
  assert (Hi : idx < length src).
  { apply Hrows. by eapply list_elem_of_lookup_2. }
  destruct (lookup_lt_is_Some_2 src idx Hi) as [c Hc].
  unfold entry at 1. rewrite list_lookup_imap, Hrow. simpl. rewrite Hp.
  unfold entry. rewrite Hsrc, Hc. apply list_lookup_insert_eq.
  apply Hrows. by eapply list_elem_of_lookup_2.
Qed.

Lemma beam_update_length (idx : nat) (positions : list nat) (k : nat)
    (st st' : list (list Cell)) :
  beam_update idx positions k st = Ok st' → length st' = length st.
Proof.
  intros (_ & _ & _ & _ & ->)%beam_update_Ok. apply length_imap.
Qed.

(** The state left by [advance_each]: items before [j0] keep their
    entries; the beam at offset [m] has advanced and the entries of its item
    are those of the slots its origins name. *)
Lemma advance_each_reindex ml i out attn j0 bs st bs' st' :
  outcome (advance_each BC self batch ml i out attn j0 bs st) = Ok (bs', st') →
  (∀ j k', j < j0 → entry st' k' j = entry st k' j)
  ∧ (∀ m b', bs' !! m = Some b' →
       (∃ b word_probs attn_j,
           bs !! m = Some b ∧ advance BC b word_probs attn_j = Ok b')
       ∧ ∀ k' p, get_current_origin BC b' !! k' = Some p →
                 entry st' k' (j0 + m) = entry st p (j0 + m)).
Proof.
  revert j0 st bs' st'.
  induction bs as [|b bs IH]; intros j0 st bs' st' H.
  { injection H as <- <-. split; [done |]. intros m b' Hm.
    by rewrite lookup_nil in Hm. }
  cbn [advance_each] in H. bind_ok H. destruct a5 as [bs'' st''].
  injection H as <- <-.
  rename a into word_probs, a0 into attn_j, a2 into b1, a4 into st1.
  cbn [outcome lift snd] in Ha2, Ha4.
  destruct (IH _ _ _ _ Ha5) as [Hbefore Hat].
  split.
  - intros j k' Hj. rewrite Hbefore by lia.
    eapply beam_update_frame; [eassumption | lia].
  - intros [|m] b' Hm.
    + injection Hm as <-. split; [by exists b, word_probs, attn_j |].
      intros k' p Hp. rewrite Nat.add_0_r, Hbefore by lia.
      by eapply beam_update_item.
    + destruct (Hat m b' Hm) as [(b0 & wp & aj & Hb0 & Hadv) Horig].
      split; [by exists b0, wp, aj |].
      intros k' p Hp. replace (j0 + S m) with (S j0 + m) by lia.
      rewrite (Horig k' p Hp).
      eapply beam_update_frame; [eassumption | lia].
Qed.

(** The loop of lines 179-183 on [l1 ++ l2] is the loop on [l1] followed by
    the loop on [l2], which starts from the state the first one left. *)
Lemma advance_each_app ml i out attn j0 l1 l2 st :
  outcome (advance_each BC self batch ml i out attn j0 (l1 ++ l2) st) =
  match outcome (advance_each BC self batch ml i out attn j0 l1 st) with
  | Ok (bs1, st1) =>
      match outcome (advance_each BC self batch ml i out attn
                       (j0 + length l1) l2 st1) with
      | Ok (bs2, st2) => Ok (bs1 ++ bs2, st2)
      | Raise e => Raise e
      end
  | Raise e => Raise e
  end.
Proof.
  revert j0 st. induction l1 as [|b l1 IH]; intros j0 st.
  { cbn [app advance_each length outcome ret snd]. rewrite Nat.add_0_r.
    by destruct (outcome _) as [[bs2 st2]|]. }
  cbn [app advance_each length].
  rewrite ?outcome_bind.
  destruct (outcome (lift (item_scores out j0))) as [wp|]; [| done].
  rewrite ?outcome_bind.
  destruct (outcome (lift (item_attn self batch ml attn j0))) as [am|];
    [| done].
  rewrite ?outcome_bind. cbn [outcome emit snd].
  rewrite ?outcome_bind.
  destruct (outcome (lift (advance BC b wp am))) as [b'|]; [| done].
  rewrite ?outcome_bind. cbn [outcome emit snd].
  rewrite ?outcome_bind.
  destruct (outcome (lift (beam_update j0 (get_current_origin BC b')
                             (beam_size self) st))) as [st1|]; [| done].
  rewrite ?outcome_bind, IH.
  replace (S j0 + length l1) with (j0 + S (length l1)) by lia.
  destruct (outcome (advance_each BC self batch ml i out attn (S j0) l1 st1))
    as [[bs1 st2]|]; [| done].
  cbn [outcome ret snd].
  by destruct (outcome _) as [[bs2 st3]|].
Qed.

(** C7: in every decoding step that completes, every beam of the batch
    advances, in turn, and right after beam [j] has advanced the decoder
    state is reindexed for batch item [j] with the origins of that beam
    ([st_a] is the state before that [beam_update], left by the updates of
    the beams before [j], and [st_b] the state after it): the entries of
    every other batch item are unchanged, and slot [k'] of item [j] holds
    what slot [origin[k']] of item [j] held.  At the end of the step, when
    the state is handed to the next decoder call, slot [k'] of item [j]
    holds what the decoder had left at slot [origin[k']] of item [j]. *)
Theorem state_reindexed_per_beam mb ml i bs st bs' st' inp :
  outcome (step BC self batch mb ml i bs st) = Ok (bs', st') →
  stack_t_view (get_current_state BC <$> bs) = Ok inp →
  let r := decoder (model self) [inp] mb st ml in
  ∃ out,
    unbottle self batch (generator_forward (model self) r.1.1) = Ok out
    ∧ length bs' = length bs
    ∧ ∀ j b, bs !! j = Some b →
        ∃ b' word_probs attn_j st_a st_b,
          bs' !! j = Some b'
          ∧ advance BC b word_probs attn_j = Ok b'
          ∧ outcome (advance_each BC self batch ml i out r.2 0
                       (take j bs) r.1.2) = Ok (take j bs', st_a)
          ∧ beam_update j (get_current_origin BC b') (beam_size self) st_a
            = Ok st_b
          ∧ outcome (advance_each BC self batch ml i out r.2 0
                       (take (S j) bs) r.1.2) = Ok (take (S j) bs', st_b)
          ∧ (∀ k' j', j' ≠ j → entry st_b k' j' = entry st_a k' j')
          ∧ (∀ k' p, get_current_origin BC b' !! k' = Some p →
                     entry st_b k' j = entry st_a p j)
          ∧ (∀ k' p, get_current_origin BC b' !! k' = Some p →
                     entry st' k' j = entry r.1.2 p j).
Proof.
  intros H Hinp. cbv zeta.
  unfold step in H. rewrite Hinp in H. bind_ok H.
  cbn [outcome lift snd] in Ha. injection Ha as <-.
  destruct (decoder _ _ _ _ _) as [[dec_out st1] attn]. bind_ok H.
  rename a into out. cbn [outcome lift snd] in Ha. cbn [fst snd].
  clear Ha0. exists out. split; [done |]. clear Ha.
  pose proof (advance_each_length _ _ _ _ _ _ _ _ _ H) as Hlen.
  split; [done |].
  intros j b Hb.
  pose proof (lookup_lt_Some _ _ _ Hb) as Hj.
  destruct (advance_each_reindex _ _ _ _ _ _ _ _ _ H) as [_ Hat].
  pose proof H as Hsplit.
  rewrite <- (take_drop j bs), advance_each_app in Hsplit.
  destruct (outcome (advance_each BC self batch ml i out attn 0 (take j bs) st1))
    as [[bs1 st_a]|] eqn:E1; [| discriminate].
  pose proof (advance_each_length _ _ _ _ _ _ _ _ _ E1) as Hlen1.
  rewrite length_take, Nat.min_l in Hlen1 by lia.
  rewrite length_take, Nat.min_l in Hsplit by lia. cbn [Nat.add] in Hsplit.
  rewrite (drop_S _ _ _ Hb) in Hsplit.
  destruct (outcome (advance_each BC self batch ml i out attn j
                       (b :: drop (S j) bs) st_a))
    as [[bs2 st2]|] eqn:E2; [| discriminate].
  injection Hsplit as <- ->.
  cbn [advance_each] in E2.
  apply outcome_bind_Ok in E2 as (word_probs & Ha & E2).
  apply outcome_bind_Ok in E2 as (attn_j & Ha1 & E2).
  apply outcome_bind_Ok in E2 as (? & _ & E2).
  apply outcome_bind_Ok in E2 as (b' & Ha2 & E2).
  apply outcome_bind_Ok in E2 as (? & _ & E2).
  apply outcome_bind_Ok in E2 as (st_b & Ha4 & E2).
  apply outcome_bind_Ok in E2 as ([bs'' st''] & Ha5 & E2).
  injection E2 as <- <-.
  cbn [outcome lift snd] in Ha, Ha1, Ha2, Ha4.
  assert (Hb' : (bs1 ++ b' :: bs'') !! j = Some b').
  { rewrite lookup_app_r by lia. by rewrite Hlen1, Nat.sub_diag. }
  exists b', word_probs, attn_j, st_a, st_b.
  split; [done |]. split; [done |].
  split; [by rewrite take_app_length' |]. split; [done |].
  split.
  { rewrite (take_S_r _ _ _ Hb), advance_each_app, E1.
    rewrite length_take, Nat.min_l by lia.
    cbn [Nat.add advance_each]. rewrite ?outcome_bind.
    cbn [outcome lift emit snd]. rewrite Ha. cbn beta iota.
    rewrite ?outcome_bind. cbn [outcome lift emit snd]. rewrite Ha1.
    cbn beta iota. rewrite ?outcome_bind. cbn [outcome lift emit snd].
    rewrite ?outcome_bind. cbn [outcome lift emit snd]. rewrite Ha2.
    cbn beta iota. rewrite ?outcome_bind. cbn [outcome lift emit snd].
    rewrite ?outcome_bind. cbn [outcome lift emit snd]. rewrite Ha4.
    cbn [outcome bind ret snd].
    by rewrite (take_S_r _ _ _ Hb'), take_app_length'. }
  split; [intros k' j' Hne; by eapply beam_update_frame |].
  split; [intros k' p Hp; by eapply beam_update_item |].
  destruct (Hat j b' Hb') as [_ Horig]. exact Horig.
Qed.

End DriverFacts.

(** ** Two runs whose models answer alike *)

Section Determinism.

Context {EncIn EncStates MemCol Cell PrevTurns Title DecOut Score Attn Scorer : Type}.

Local Abbreviation Model :=
  (@Model EncIn EncStates MemCol Cell PrevTurns DecOut Score Attn).
Local Abbreviation Generator :=
  (@Generator EncIn EncStates MemCol Cell PrevTurns DecOut Score Attn Scorer).
Local Abbreviation Batch := (@Batch EncIn PrevTurns Title).

Variable markers : Markers.
Variable BC : @BeamClass Score Attn Scorer.
Variable self : Generator.
Variable model' : Model.
Variable batch : Batch.
Variable gt_prefix : Z.
Variable Rc : Cell → Cell → Prop.

Local Abbreviation self' := (with_model self model').

(** Two results that are both the same exception, or both values with the
    same beams and related states. *)
Local Abbreviation alike m1 m2 :=
  (log m1 = log m2 ∧
   match outcome m1, outcome m2 with
   | Ok (bs1, s1), Ok (bs2, s2) => bs1 = bs2 ∧ state_rel Rc s1 s2
   | Raise e1, Raise e2 => e1 = e2
   | _, _ => False
   end).

Lemma state_rel_entry st1 st2 k j :
  state_rel Rc st1 st2 →
  option_Forall2 Rc (entry st1 k j) (entry st2 k j).
Proof.
  intros H. unfold entry.
  destruct (st1 !! k) as [row1|] eqn:H1.
  - destruct (Forall2_lookup_l _ _ _ _ _ H H1) as (row2 & -> & Hrow).
    destruct (row1 !! j) as [c1|] eqn:Hc1.
    + destruct (Forall2_lookup_l _ _ _ _ _ Hrow Hc1) as (c2 & -> & Hc).
      by constructor.
    + apply lookup_ge_None in Hc1. apply Forall2_length in Hrow.
      rewrite (proj2 (lookup_ge_None row2 j)) by lia. constructor.
  - apply lookup_ge_None in H1. apply Forall2_length in H.
    rewrite (proj2 (lookup_ge_None st2 k)) by lia. constructor.
Qed.

Lemma beam_update_alike idx positions k st1 st2 :
  state_rel Rc st1 st2 →
  match beam_update idx positions k st1, beam_update idx positions k st2 with
  | Ok s1, Ok s2 => state_rel Rc s1 s2
  | Raise e1, Raise e2 => e1 = e2
  | _, _ => False
  end.
Proof.
  intros H. unfold beam_update.
  rewrite <- (Forall2_length _ _ _ H).
  assert (Hrows : forallb (λ row : list Cell, idx <? length row) st1
                  = forallb (λ row : list Cell, idx <? length row) st2).
  { induction H as [|r1 r2 l1 l2 Hr _ IH]; [reflexivity |].
    cbn [forallb]. by rewrite IH, (Forall2_length _ _ _ Hr). }
  rewrite <- Hrows. destruct (_ && _); [| reflexivity].
  apply Forall2_same_length_lookup. split.
  { rewrite !length_imap. by eapply Forall2_length. }
  intros i row1 row2. rewrite !list_lookup_imap.
  destruct (st1 !! i) as [r1|] eqn:H1; [| discriminate].
  destruct (st2 !! i) as [r2|] eqn:H2; [| discriminate].
  intros [= <-] [= <-].
  assert (Hr : Forall2 Rc r1 r2) by (by eapply Forall2_lookup_lr).
  destruct (positions !! i) as [p|]; [| done].
  destruct (state_rel_entry st1 st2 p idx H) as [c1 c2 Hc|]; [| done].
  by apply Forall2_insert.
Qed.

Lemma advance_each_alike ml i out attn j bs st1 st2 :
  state_rel Rc st1 st2 →
  alike (advance_each BC self batch ml i out attn j bs st1)
        (advance_each BC self batch ml i out attn j bs st2).
Proof.
  revert j st1 st2. induction bs as [|b bs IH]; intros j st1 st2 H.
  { split; [reflexivity | by split]. }
  cbn [advance_each]. unfold lift, emit, bind, ret.
  destruct (item_scores _ _) as [wp|]; [| by split].
  destruct (item_attn _ _ _ _ _) as [aj|]; [| by split].
  destruct (advance _ _ _ _) as [b'|]; [| by split].
  pose proof (beam_update_alike j (get_current_origin BC b') (beam_size self)
                st1 st2 H) as Hupd.
  destruct (beam_update _ _ _ st1) as [s1|], (beam_update _ _ _ st2) as [s2|];
    try done; try (by subst).
  destruct (IH (S j) s1 s2 Hupd) as [Hlog Hout].
  destruct (advance_each _ _ _ _ _ _ _ _ _ s1) as [l1 [[bs1 t1]|]],
           (advance_each _ _ _ _ _ _ _ _ _ s2) as [l2 [[bs2 t2]|]];
    cbn [log outcome fst snd] in *; subst; try done.
  by destruct Hout as [-> ?].
Qed.

Section Loop.

Variable mb1 mb2 : @MemoryBank MemCol.
Variable ml : list nat.
Hypothesis Hsame : same_step_outputs (model self) model' mb1 mb2 ml Rc.

Lemma step_alike i bs st1 st2 :
  state_rel Rc st1 st2 →
  alike (step BC self batch mb1 ml i bs st1)
        (step BC self' batch mb2 ml i bs st2).
Proof using Hsame.
  intros H. unfold step, lift, emit, bind.
  destruct (stack_t_view _) as [inp|]; [| by split].
  destruct (Hsame inp st1 st2 H) as (Hout & Hattn & Hst).
  cbn [model with_model].
  destruct (decoder (model self) _ _ _ _) as [[o1 s1] a1],
           (decoder model' _ _ _ _) as [[o2 s2] a2].
  cbn [fst snd] in *. subst a2. rewrite <- Hout.
  change (unbottle self' batch (generator_forward (model self) o1))
    with (unbottle self batch (generator_forward (model self) o1)).
  destruct (unbottle _ _ _) as [out|]; [| by split].
  destruct (advance_each_alike ml i out a1 0 bs s1 s2 Hst) as [Hlog Hres].
  change (advance_each BC self' batch) with (advance_each BC self batch).
  destruct (advance_each _ _ _ _ _ _ _ _ _ s1) as [l1 r1],
           (advance_each _ _ _ _ _ _ _ _ _ s2) as [l2 r2].
  cbn [log outcome fst snd] in *. subst. by split.
Qed.

Lemma stepping_alike range bs st1 st2 :
  state_rel Rc st1 st2 →
  alike (stepping BC self batch mb1 ml range bs st1)
        (stepping BC self' batch mb2 ml range bs st2).
Proof using Hsame.
  revert bs st1 st2. induction range as [|i range IH]; intros bs st1 st2 H.
  { split; [reflexivity | by split]. }
  rewrite !stepping_log_cons, !stepping_outcome_cons.
  destruct (forallb _ _); [by split |].
  destruct (step_alike i bs st1 st2 H) as [Hlog Hres]. rewrite Hlog.
  destruct (outcome (step _ self _ _ _ _ _ _)) as [[b1 s1]|],
           (outcome (step _ self' _ _ _ _ _ _)) as [[b2 s2]|]; try done.
  destruct Hres as [-> Hs]. destruct (IH b2 s1 s2 Hs) as [Hlog' Hres'].
  by rewrite Hlog'.
Qed.

End Loop.

(** C9: two runs on the same batch with the same configuration, whose
    models return the same word scores and the same attention weights at
    every decoder step, are the same run: the same calls in the same order
    and the same outcome, hence the same predictions, scores and attention.
    Nothing but the scores and the attention enters the selection. *)
Theorem generate_batch_deterministic mb1 mb2 ml st1 st2 :
  outcome (prepare self batch gt_prefix) = Ok (mb1, ml, st1) →
  outcome (prepare self' batch gt_prefix) = Ok (mb2, ml, st2) →
  state_rel Rc st1 st2 →
  same_step_outputs (model self) model' mb1 mb2 ml Rc →
  generate_batch markers BC self' batch gt_prefix
  = generate_batch markers BC self batch gt_prefix.
Proof.
  intros Hp1 Hp2 Hst Hsame. unfold generate_batch.
  change (make_beams markers BC self' batch gt_prefix)
    with (make_beams markers BC self batch gt_prefix).
  destruct (make_beams markers BC self batch gt_prefix) as [lb [bs|]];
    [| reflexivity].
  pose proof (prepare_log_Ok self batch gt_prefix _ Hp1) as Hl1.
  pose proof (prepare_log_Ok self' batch gt_prefix _ Hp2) as Hl2.
  destruct (prepare self batch gt_prefix) as [l1 r1],
           (prepare self' batch gt_prefix) as [l2 r2].
  cbn [log outcome fst snd] in *. subst.
  destruct (stepping_alike mb1 mb2 ml Hsame (seq 0 (max_length self)) bs
                           st1 st2 Hst) as [Hlog Hres].
  unfold bind. cbv beta iota. change (max_length self') with (max_length self).
  destruct (stepping BC self _ _ _ _ _ _) as [ls1 [[b1 s1]|]],
           (stepping BC self' _ _ _ _ _ _) as [ls2 [[b2 s2]|]];
    cbn [log outcome fst snd] in *; subst; try done.
  destruct Hres as [-> _].
  change (_from_beam BC self' b2) with (_from_beam BC self b2).
  reflexivity.
Qed.

End Determinism.

(** ** A batch item inside a batch and on its own *)

Lemma column_eq_iff {Cell} (j j1 : nat) (st st1 : list (list Cell)) :
  column j st = column j1 st1 ↔
  length st = length st1 ∧ ∀ k, entry st k j = entry st1 k j1.
Proof.
  unfold column, entry. split.
  - intros H. split.
    + apply (f_equal length) in H. by rewrite !length_fmap in H.
    + intros k. apply (f_equal (λ l, l !! k)) in H.
      rewrite !list_lookup_fmap in H.
      destruct (st !! k), (st1 !! k); simpl in H; congruence.
  - intros [Hlen H]. apply list_eq. intros k. rewrite !list_lookup_fmap.
    specialize (H k).
    destruct (st !! k) eqn:H1, (st1 !! k) eqn:H2; simpl; try congruence.
    + apply lookup_lt_Some in H1. apply lookup_ge_None in H2. lia.
    + apply lookup_ge_None in H1. apply lookup_lt_Some in H2. lia.
Qed.

Lemma beam_update_frame_column {Cell} idx positions k
    (st st' : list (list Cell)) j :
  beam_update idx positions k st = Ok st' →
  j ≠ idx → column j st' = column j st.
Proof.
  intros H Hne. apply column_eq_iff. split.
  - by eapply beam_update_length.
  - intros k'. by eapply beam_update_frame.
Qed.

(** Reindexing item [j] of a state and reindexing the item alone agree. *)
Lemma beam_update_slice {Cell} j j1 positions k
    (st st' st1 : list (list Cell)) :
  beam_update j positions k st = Ok st' →
  column j st = column j1 st1 →
  ∃ st1', beam_update j1 positions k st1 = Ok st1'
          ∧ column j st' = column j1 st1'.
Proof.
  intros H Hcol.
  pose proof (beam_update_Ok _ _ _ _ _ H) as (Hst & Hpos & Hlt & Hrows & _).
  apply column_eq_iff in Hcol as [Hlen Hent].
  assert (Hrows1 : Forall (λ row : list Cell, j1 < length row) st1).
  { apply Forall_lookup. intros k' row1 Hk'.
    assert (Hk : k' < length st) by (apply lookup_lt_Some in Hk'; lia).
    destruct (lookup_lt_is_Some_2 st k' Hk) as [row Hrow].
    specialize (Hent k'). unfold entry in Hent. rewrite Hrow, Hk' in Hent.
    rewrite Forall_lookup in Hrows. specialize (Hrows k' row Hrow).
    destruct (lookup_lt_is_Some_2 row j Hrows) as [c Hc].
    rewrite Hc in Hent. symmetry in Hent. by apply lookup_lt_Some in Hent. }
  assert (Hok : ∃ st1', beam_update j1 positions k st1 = Ok st1').
  { unfold beam_update.
    rewrite <- Hlen, (proj2 (Nat.eqb_eq _ _) Hst), (proj2 (Nat.eqb_eq _ _) Hpos).
    assert (forallb (λ p, p <? k) positions = true) as ->.
    { apply forallb_forall. intros p Hp%list_elem_of_In. apply Nat.ltb_lt.
      rewrite Forall_forall in Hlt. by apply Hlt. }
    assert (forallb (λ row : list Cell, j1 <? length row) st1 = true) as ->.
    { apply forallb_forall. intros row Hp%list_elem_of_In. apply Nat.ltb_lt.
      rewrite Forall_forall in Hrows1. by apply Hrows1. }
    simpl. eauto. }
  destruct Hok as [st1' H1]. exists st1'. split; [done |].
  apply column_eq_iff. split.
  { rewrite (beam_update_length _ _ _ _ _ H), (beam_update_length _ _ _ _ _ H1).
    done. }
  intros k'. destruct (positions !! k') as [p|] eqn:Hp.
  - rewrite (beam_update_item _ _ _ _ _ _ _ H Hp),
            (beam_update_item _ _ _ _ _ _ _ H1 Hp). apply Hent.
  - apply lookup_ge_None in Hp.
    pose proof (beam_update_length _ _ _ _ _ H) as Hl.
    pose proof (beam_update_length _ _ _ _ _ H1) as Hl1.
    unfold entry.
    rewrite (proj2 (lookup_ge_None st' k')), (proj2 (lookup_ge_None st1' k'));
      [done | lia | lia].
Qed.

Section Batching.

Context {EncIn EncStates MemCol Cell PrevTurns Title DecOut Score Attn Scorer : Type}.

Local Abbreviation Generator :=
  (@Generator EncIn EncStates MemCol Cell PrevTurns DecOut Score Attn Scorer).
Local Abbreviation Batch := (@Batch EncIn PrevTurns Title).

Variable markers : Markers.
Variable BC : @BeamClass Score Attn Scorer.
Variable self : Generator.
Variable batch batch1 : Batch.
Variable j : nat.
Variable gt_prefix : Z.

(** The updates of later beams leave the entries of an earlier item. *)
Lemma advance_each_before ml i out attn j0 bs st bs' st' jx :
  outcome (advance_each BC self batch ml i out attn j0 bs st) = Ok (bs', st') →
  jx < j0 → column jx st' = column jx st.
Proof.
  revert j0 st bs' st'.
  induction bs as [|b bs IH]; intros j0 st bs' st' H Hj.
  { by injection H as _ <-. }
  cbn [advance_each] in H. bind_ok H. destruct a5 as [bs'' st''].
  injection H as _ <-. cbn [outcome lift snd] in Ha4.
  rewrite (IH _ _ _ _ Ha5) by lia.
  eapply beam_update_frame_column; [eassumption | lia].
Qed.

(** What [advance_each] does to the beam at offset [m] and to the entries
    of its batch item. *)
Lemma advance_each_item ml i out attn j0 bs st bs' st' m b :
  outcome (advance_each BC self batch ml i out attn j0 bs st) = Ok (bs', st') →
  bs !! m = Some b →
  ∃ word_probs attn_m b' st_a st_b,
    item_scores out (j0 + m) = Ok word_probs
    ∧ item_attn self batch ml attn (j0 + m) = Ok attn_m
    ∧ advance BC b word_probs attn_m = Ok b'
    ∧ bs' !! m = Some b'
    ∧ column (j0 + m) st_a = column (j0 + m) st
    ∧ beam_update (j0 + m) (get_current_origin BC b') (beam_size self) st_a
      = Ok st_b
    ∧ column (j0 + m) st' = column (j0 + m) st_b.
Proof.
  revert j0 st bs' st' m.
  induction bs as [|b0 bs IH]; intros j0 st bs' st' m H Hm.
  { by rewrite lookup_nil in Hm. }
  cbn [advance_each] in H. bind_ok H. destruct a5 as [bs'' st''].
  injection H as <- <-. cbn [outcome lift snd] in *.
  destruct m as [|m].
  - injection Hm as ->. rewrite Nat.add_0_r.
    exists a, a0, a2, st, a4. repeat split; try done.
    eapply advance_each_before; [eassumption | lia].
  - destruct (IH _ _ _ _ _ Ha5 Hm)
      as (wp & am & b' & st_a & st_b & H1 & H2 & H3 & H4 & H5 & H6 & H7).
    replace (j0 + S m) with (S j0 + m) by lia.
    exists wp, am, b', st_a, st_b. repeat split; try done.
    rewrite H5. eapply beam_update_frame_column; [eassumption | lia].
Qed.

Lemma py_index_nat {A} (l : list A) (i : nat) :
  py_index l (Z.of_nat i) =
  match l !! i with
  | Some x => Ok x
  | None => Raise IndexError
  end.
Proof.
  unfold py_index.
  destruct (Z.ltb_spec (Z.of_nat i) 0); [lia |].
  destruct (Z.ltb_spec (Z.of_nat i) 0); [lia |].
  by rewrite Nat2Z.id.
Qed.

Lemma stack_t_view_single (c : list nat) : ∃ inp, stack_t_view [c] = Ok inp.
Proof.
  unfold stack_t_view. cbn [forallb]. rewrite Nat.eqb_refl. simpl. eauto.
Qed.

Hypothesis Hj : j < size batch.
Hypothesis Hsize1 : size batch1 = 1.
Hypothesis Hctx :
  context_data_decoder_tokens batch1 !! 0
  = context_data_decoder_tokens batch !! j.

(** The beam of item [j] is the beam the item gets on its own. *)
Lemma make_beams_item bs :
  outcome (make_beams markers BC self batch gt_prefix) = Ok bs →
  ∃ b, bs !! j = Some b
       ∧ outcome (make_beams markers BC self batch1 gt_prefix) = Ok [b].
Proof using Hj Hsize1 Hctx.
  intros H. apply mapM_Ok in H.
  destruct (Forall2_lookup_l _ _ _ j j H) as (b & Hb & Hnew).
  { by apply lookup_seq_lt. }
  exists b. split; [done |].
  assert (Hsame : new_beam markers BC self batch1 gt_prefix 0
                  = new_beam markers BC self batch gt_prefix j).
  { unfold new_beam, get_bos.
    change 0%Z with (Z.of_nat 0). by rewrite !py_index_nat, Hctx. }
  unfold make_beams. rewrite Hsize1. cbn [seq mapM].
  rewrite outcome_bind, Hsame, Hnew. reflexivity.
Qed.

Section Loop.

Variable mb mb1 : @MemoryBank MemCol.
Variable ml ml1 : list nat.
Hypothesis Hagree : slices_agree self batch batch1 j mb mb1 ml ml1.

(** One iteration on the batch does to beam [j] and to the state entries of
    item [j] what one iteration on the item alone does. *)
Lemma step_slice i bs st b st1 bs' st' :
  bs !! j = Some b →
  column j st = column 0 st1 →
  outcome (step BC self batch mb ml i bs st) = Ok (bs', st') →
  ∃ b' st1',
    outcome (step BC self batch1 mb1 ml1 i [b] st1) = Ok ([b'], st1')
    ∧ bs' !! j = Some b'
    ∧ column j st' = column 0 st1'.
Proof using Hagree.
  intros Hb Hcol H. unfold step in *.
  destruct (stack_t_view (get_current_state BC <$> bs)) as [inp|] eqn:Hinp;
    [| discriminate].
  destruct (stack_t_view_single (get_current_state BC b)) as [inp1 Hinp1].
  cbn [fmap list_fmap]. rewrite Hinp1.
  assert (Hc : (get_current_state BC <$> bs) !! j
               = Some (get_current_state BC b)).
  { by rewrite list_lookup_fmap, Hb. }
  destruct (Hagree _ _ _ _ _ _ Hinp Hc Hinp1 Hcol) as (Hst & Hout & Hattn).
  unfold bind, lift, emit in *.
  destruct (decoder (model self) [inp] mb st ml) as [[o s] a].
  destruct (decoder (model self) [inp1] mb1 st1 ml1) as [[o1 s1] a1].
  cbn [fst snd] in *.
  destruct (unbottle self batch (generator_forward (model self) o))
    as [out|] eqn:Hu; [| discriminate].
  destruct (Hout out eq_refl) as (out1 & -> & Hsc).
  destruct (advance_each BC self batch ml i out a 0 bs s)
    as [l [[bsx stx]|]] eqn:Hadv; [| discriminate].
  cbn [outcome snd] in H. injection H as -> ->.
  assert (Hadv' : outcome (advance_each BC self batch ml i out a 0 bs s)
                  = Ok (bs', st')) by (by rewrite Hadv).
  destruct (advance_each_item _ _ _ _ _ _ _ _ _ _ _ Hadv' Hb)
    as (wp & am & b' & st_a & st_b & H1 & H2 & H3 & H4 & H5 & H6 & H7).
  cbn [Nat.add] in *.
  destruct (beam_update_slice j 0 _ _ st_a st_b s1 H6) as (st1' & Hupd & Hcol').
  { by rewrite H5. }
  exists b', st1'. split; [| split; [done | by rewrite H7]].
  cbn [advance_each]. unfold bind, lift, emit, ret.
  rewrite <- Hsc, H1, <- Hattn, H2, H3, Hupd. reflexivity.
Qed.

(** The loop on the batch and the loop on the item alone, as long as beam
    [j] is never advanced after it has reported done. *)
Lemma stepping_slice range bs st b st1 bsF stF :
  bs !! j = Some b →
  column j st = column 0 st1 →
  outcome (stepping BC self batch mb ml range bs st) = Ok (bsF, stF) →
  (∀ i, EvAdvance i j true ∉ log (stepping BC self batch mb ml range bs st)) →
  ∃ bF st1F,
    outcome (stepping BC self batch1 mb1 ml1 range [b] st1) = Ok ([bF], st1F)
    ∧ bsF !! j = Some bF.
Proof using Hagree.
  revert bs st b st1.
  induction range as [|i range IH]; intros bs st b st1 Hb Hcol H Hnever.
  { injection H as <- <-. by exists b, st1. }
  rewrite stepping_outcome_cons in H. rewrite stepping_outcome_cons.
  assert (Hlog := stepping_log_cons BC self batch mb ml i range bs st).
  cbn [forallb]. rewrite andb_true_r.
  destruct (forallb (done BC) bs) eqn:Hall.
  - injection H as <- <-.
    rewrite forallb_forall in Hall.
    rewrite (Hall b) by (by eapply list_elem_of_In, list_elem_of_lookup_2).
    by exists b, st1.
  - destruct (outcome (step BC self batch mb ml i bs st))
      as [[bs' st']|] eqn:Hstep; [| discriminate].
    assert (Hpending : done BC b = false).
    { destruct (done BC b) eqn:Hd; [| done].
      destruct (Hnever i). rewrite Hlog. right. apply elem_of_app. left.
      rewrite <- Hd. by eapply step_advances_all. }
    rewrite Hpending.
    destruct (step_slice i bs st b st1 bs' st' Hb Hcol Hstep)
      as (b' & st1' & -> & Hb' & Hcol').
    apply (IH bs' st' b' st1' Hb' Hcol' H).
    intros i' Hin. destruct (Hnever i'). rewrite Hlog. right.
    apply elem_of_app. by right.
Qed.

End Loop.

(** The hypotheses extracted from item [j] of the batch are those extracted
    from the item alone. *)
Lemma from_beam_item bs b fb :
  bs !! j = Some b →
  outcome (_from_beam BC self bs) = Ok fb →
  ∃ fb1,
    outcome (_from_beam BC self [b]) = Ok fb1
    ∧ fb_predictions fb !! j = fb_predictions fb1 !! 0
    ∧ fb_scores fb !! j = fb_scores fb1 !! 0
    ∧ fb_attention fb !! j = fb_attention fb1 !! 0.
Proof.
  intros Hb H. unfold _from_beam in *. bind_ok H. injection H as <-.
  apply mapM_Ok in Ha.
  destruct (Forall2_lookup_l _ _ _ _ _ Ha Hb) as (row & Hrow & Hext).
  cbn [mapM]. rewrite !outcome_bind, Hext. cbn [outcome ret snd].
  eexists. split; [reflexivity |].
  cbn [fb_predictions fb_scores fb_attention fmap list_fmap].
  by rewrite !list_lookup_fmap, Hrow.
Qed.

(** When the model's outputs on the batch agree slice-wise with its outputs
    on item [j] alone, and beam [j] is never advanced after it has reported
    done, the run on the item alone returns, and the predictions, scores and
    attention of item [j] are those of that run. *)
Lemma batching_slice mb mb1 ml ml1 st st1 r :
  outcome (prepare self batch gt_prefix) = Ok (mb, ml, st) →
  outcome (prepare self batch1 gt_prefix) = Ok (mb1, ml1, st1) →
  column j st = column 0 st1 →
  slices_agree self batch batch1 j mb mb1 ml ml1 →
  outcome (generate_batch markers BC self batch gt_prefix) = Ok r →
  (∀ i, EvAdvance i j true
        ∉ log (generate_batch markers BC self batch gt_prefix)) →
  ∃ r1, outcome (generate_batch markers BC self batch1 gt_prefix) = Ok r1
        ∧ same_item r j r1.
Proof using Hj Hsize1 Hctx.
  intros Hp Hp1 Hcol Hagree H Hnever.
  rewrite run_log in Hnever.
  unfold generate_batch in *. bind_ok H. rewrite Ha in Hnever.
  rewrite Ha0 in Hp. injection Hp as ->.
  cbn beta iota in H. bind_ok H. destruct a0 as [bsF stF].
  cbn beta iota in H. bind_ok H. injection H as <-.
  rewrite Ha0 in Hnever. cbn beta iota in Hnever.
  destruct (make_beams_item a Ha) as (b & Hb & Hbeams1).
  destruct (stepping_slice mb mb1 ml ml1 Hagree _ _ _ _ _ _ _ Hb Hcol Ha1)
    as (bF & st1F & Hstep1 & HbF).
  { intros i Hin. destruct (Hnever i). apply elem_of_app. by right. }
  destruct (from_beam_item _ _ _ HbF Ha2) as (fb1 & Hfb1 & Hpred & Hsc & Hat).
  rewrite outcome_bind, Hbeams1. cbn beta iota.
  rewrite outcome_bind, Hp1. cbn beta iota.
  rewrite outcome_bind, Hstep1. cbn beta iota.
  rewrite outcome_bind, Hfb1. cbn [outcome ret snd].
  eexists. split; [reflexivity |]. by repeat split.
Qed.

End Batching.

(** ** The hypothesis beam in the driver *)

Module BeamFacts.

Import SpecBeam.

Lemma score_leb_total (a b : score) :
  score_leb a b = false → score_leb b a = true.
Proof.
  destruct a as [|x], b as [|y]; simpl; try done.
  intros H%Z.leb_gt. apply Z.leb_le. lia.
Qed.

Lemma score_leb_trans (a b c : score) :
  score_leb a b = true → score_leb b c = true → score_leb a c = true.
Proof.
  destruct a as [|x], b as [|y], c as [|z]; simpl; try done.
  intros H1%Z.leb_le H2%Z.leb_le. apply Z.leb_le. lia.
Qed.

Section Sorting.

Context {X : Type} (key : X → score).

Lemma insert_desc_length (c : X) (l : list X) :
  length (insert_desc key c l) = S (length l).
Proof.
  induction l as [|d l IH]; simpl; [done |].
  destruct (score_leb _ _); simpl; by rewrite ?IH.
Qed.

Lemma sort_desc_length (l : list X) : length (sort_desc key l) = length l.
Proof.
  induction l as [|c l IH]; simpl; [done |].
  by rewrite insert_desc_length, IH.
Qed.

Lemma insert_desc_Forall (P : X → Prop) (c : X) (l : list X) :
  P c → Forall P l → Forall P (insert_desc key c l).
Proof.
  intros Hc Hl. induction Hl as [|d l Hd Hl IH]; simpl; [by constructor |].
  destruct (score_leb _ _); repeat constructor; done.
Qed.

Local Abbreviation above := (λ x y : X, score_leb (key y) (key x) = true).

Lemma insert_desc_sorted (c : X) (l : list X) :
  StronglySorted above l → StronglySorted above (insert_desc key c l).
Proof.
  induction 1 as [|d l Hl IH Hd]; simpl; [by repeat constructor |].
  destruct (score_leb (key d) (key c)) eqn:Hdc.
  - constructor; [by constructor |]. constructor; [done |].
    eapply Forall_impl; [exact Hd |]. intros y Hy. simpl in *.
    by eapply score_leb_trans.
  - constructor; [done |]. apply insert_desc_Forall; [| done].
    by apply score_leb_total.
Qed.

Lemma sort_desc_sorted (l : list X) : StronglySorted above (sort_desc key l).
Proof.
  induction l as [|c l IH]; simpl; [constructor | by apply insert_desc_sorted].
Qed.

Lemma sorted_keys (l : list X) :
  StronglySorted above l → descending (key <$> l).
Proof.
  unfold descending. induction 1 as [|d l Hl IH Hd]; simpl; constructor;
    [done |].
  apply Forall_fmap. eapply Forall_impl; [exact Hd | done].
Qed.

End Sorting.

(** Padding: the slots left unfinished and the finished hypotheses together
    are at least as many as the slots. *)
Lemma filter_andb {A} (f g : A → bool) (l : list A) :
  List.filter (λ x, f x && g x) l = List.filter f (List.filter g l).
Proof.
  induction l as [|x l IH]; simpl; [done |].
  destruct (g x); simpl; rewrite ?andb_true_r, ?andb_false_r;
    [destruct (f x) |]; by rewrite IH.
Qed.

Lemma filter_miss (t step s : nat) (l : list nat) :
  s ∉ l → List.filter (λ i, negb ((t =? step) && (s =? i))) l = l.
Proof.
  induction l as [|x l IH]; simpl; [done |].
  intros [Hne Hl]%not_elem_of_cons.
  rewrite (proj2 (Nat.eqb_neq s x) Hne), andb_false_r. simpl. by rewrite IH.
Qed.

Lemma filter_one (t step s : nat) (l : list nat) :
  NoDup l →
  length l ≤ S (length (List.filter (λ i, negb ((t =? step) && (s =? i))) l)).
Proof.
  induction 1 as [|x l Hx Hl IH]; simpl; [lia |].
  destruct ((t =? step) && (s =? x)) eqn:Hhit; simpl; [| lia].
  apply andb_prop in Hhit as [_ ->%Nat.eqb_eq].
  rewrite filter_miss by done. lia.
Qed.

Lemma unrecorded_enough (step : nat) (fin : list (score * nat * nat))
    (l : list nat) :
  NoDup l →
  length l ≤
  length (List.filter
            (λ i, forallb (λ '(_, t, k), negb ((t =? step) && (k =? i))) fin)
            l)
  + length fin.
Proof.
  revert l. induction fin as [|[[sc t] k] fin IH]; intros l Hl.
  { simpl.
    assert (List.filter (λ _ : nat, true) l = l) as ->; [| lia].
    clear. induction l; simpl; congruence. }
  cbn [forallb length]. rewrite filter_andb.
  specialize (IH l Hl).
  assert (Hnd : NoDup (List.filter
                         (λ i, forallb (λ '(_, t, k),
                                        negb ((t =? step) && (k =? i))) fin)
                         l)).
  { apply NoDup_ListNoDup, List.NoDup_filter. by apply NoDup_ListNoDup. }
  pose proof (filter_one t step k _ Hnd). lia.
Qed.

Section Beams.

Context {Attn : Type}.
Implicit Types b : beam Attn.

Lemma advance_size b word_probs attn_out b' :
  advance b word_probs attn_out = Ok b' → size b' = size b.
Proof.
  unfold advance. destruct (done b); [done |]. by intros [= <-].
Qed.

(** A beam with [minimum] slots has [minimum] hypotheses to rank. *)
Lemma ranked_enough b minimum :
  minimum ≤ size b → minimum ≤ length (ranked b minimum).
Proof.
  intros Hmin. unfold ranked. cbv zeta.
  rewrite sort_desc_length, length_app, length_fmap, length_take.
  pose proof (unrecorded_enough (step_count b) (finished b)
                (seq 0 (size b)) (NoDup_seq _ _)) as H.
  rewrite length_seq in H. unfold unfinished_slots. lia.
Qed.

Lemma sorted_take {X} (R : X → X → Prop) (n : nat) (l : list X) :
  StronglySorted R l → StronglySorted R (take n l).
Proof.
  intros H. rewrite <- (take_drop n l) in H.
  by apply StronglySorted_app_1_l in H.
Qed.

(** [sort_finished(minimum)] returns exactly [minimum] hypotheses, ranked
    by decreasing score, the pair [(step, slot)] of each beside its
    score. *)
Lemma sort_finished_ranked b minimum b' scs ks :
  sort_finished b minimum = Ok (b', (scs, ks)) →
  length scs = minimum ∧ length ks = minimum ∧ descending scs
  ∧ tokens b' = tokens b ∧ backpointers b' = backpointers b
  ∧ attn b' = attn b ∧ size b' = size b
  ∧ Forall (λ tk, ∃ sc, (sc, tk.1, tk.2) ∈ ranked b minimum) ks.
Proof.
  unfold sort_finished. cbv zeta.
  destruct (Nat.ltb_spec (length (take minimum (ranked b minimum))) minimum)
    as [| Hlen]; [done |].
  intros [= <- <- <-]. cbn [tokens backpointers attn size].
  rewrite !length_fmap.
  assert (length (take minimum (ranked b minimum)) = minimum).
  { rewrite length_take in *. lia. }
  repeat split; try done.
  - apply (sorted_keys (λ f : score * nat * nat, f.1.1)), sorted_take,
      sort_desc_sorted.
  - apply Forall_fmap, Forall_forall. intros [[sc t] k] Hin. cbn.
    exists sc. by eapply subseteq_take.
Qed.

Lemma sort_finished_returns b minimum :
  minimum ≤ size b → ∃ r, sort_finished b minimum = Ok r.
Proof.
  intros Hmin%ranked_enough. unfold sort_finished. cbv zeta.
  destruct (Nat.ltb_spec (length (take minimum (ranked b minimum))) minimum)
    as [Hlt |]; [| by eexists].
  rewrite length_take in Hlt. lia.
Qed.

End Beams.

End BeamFacts.

Section BeamInvariants.

Context {EncIn EncStates MemCol Cell PrevTurns Title DecOut Score Attn Scorer : Type}.

Local Abbreviation Generator :=
  (@Generator EncIn EncStates MemCol Cell PrevTurns DecOut Score Attn Scorer).
Local Abbreviation Batch := (@Batch EncIn PrevTurns Title).

Variable markers : Markers.
Variable BC : @BeamClass Score Attn Scorer.
Variable self : Generator.
Variable batch : Batch.

Lemma Ok_inj {A} (x y : A) : Ok x = Ok y → x = y.
Proof. by intros [= ->]. Qed.

Lemma new_beam_Ok gt_prefix j b :
  outcome (new_beam markers BC self batch gt_prefix j) = Ok b →
  ∃ pad bos eos,
    b = Beam BC (beam_size self) (n_best self) (global_scorer self)
             pad bos eos (min_length self).
Proof.
  unfold new_beam. intros H. bind_ok H. injection H as <-. eauto.
Qed.

(** The beams after one iteration are the beams before it, advanced. *)
Lemma step_beams mb ml i bs st bs' st' m b' :
  outcome (step BC self batch mb ml i bs st) = Ok (bs', st') →
  bs' !! m = Some b' →
  ∃ b word_probs attn_m,
    bs !! m = Some b ∧ advance BC b word_probs attn_m = Ok b'.
Proof.
  intros H Hb'. unfold step in H. bind_ok H.
  destruct (decoder _ _ _ _ _) as [[dec_out st1] attn]. bind_ok H.
  destruct (advance_each_reindex BC self batch _ _ _ _ _ _ _ _ _ H)
    as [_ Hat].
  apply (Hat m b' Hb').
Qed.

Lemma step_length mb ml i bs st bs' st' :
  outcome (step BC self batch mb ml i bs st) = Ok (bs', st') →
  length bs' = length bs.
Proof.
  intros H. unfold step in H. bind_ok H.
  destruct (decoder _ _ _ _ _) as [[dec_out st1] attn]. bind_ok H.
  by eapply advance_each_length.
Qed.

(** A property of beams that [advance] keeps is kept by the loop, and the
    loop keeps the number of beams. *)
Lemma stepping_preserves (P : beam BC → Prop) mb ml range bs st bs' st' :
  (∀ b word_probs attn_m b',
     advance BC b word_probs attn_m = Ok b' → P b → P b') →
  Forall P bs →
  outcome (stepping BC self batch mb ml range bs st) = Ok (bs', st') →
  Forall P bs' ∧ length bs' = length bs.
Proof.
  intros Hadv. revert bs st.
  induction range as [|i range IH]; intros bs st HP H.
  { by injection H as <- <-. }
  rewrite stepping_outcome_cons in H.
  destruct (forallb _ _); [by injection H as <- <- |].
  destruct (outcome (step _ _ _ _ _ _ _ _)) as [[bs1 st1]|] eqn:Hstep;
    [| discriminate].
  destruct (IH bs1 st1) as [HP' Hlen]; [| done |].
  - apply Forall_lookup. intros m b1 Hb1.
    destruct (step_beams _ _ _ _ _ _ _ _ _ Hstep Hb1) as (b & wp & am & Hb & Ha).
    eapply Hadv; [exact Ha |]. rewrite Forall_lookup in HP. by eapply HP.
  - split; [done |]. rewrite Hlen. by eapply step_length.
Qed.

(** The stages of a run that returns. *)
Lemma generate_batch_Ok gt_prefix r :
  outcome (generate_batch markers BC self batch gt_prefix) = Ok r →
  ∃ bs0 mb ml st bsF stF fb,
    outcome (make_beams markers BC self batch gt_prefix) = Ok bs0
    ∧ outcome (prepare self batch gt_prefix) = Ok (mb, ml, st)
    ∧ outcome (stepping BC self batch mb ml (seq 0 (max_length self)) bs0 st)
      = Ok (bsF, stF)
    ∧ outcome (_from_beam BC self bsF) = Ok fb
    ∧ predictions r = fb_predictions fb
    ∧ scores r = fb_scores fb
    ∧ attention r = fb_attention fb.
Proof.
  unfold generate_batch. intros H.
  apply outcome_bind_Ok in H as (bs0 & Hbs0 & H).
  apply outcome_bind_Ok in H as ([[mb ml] st] & Hprep & H).
  apply outcome_bind_Ok in H as ([bsF stF] & Hloop & H).
  apply outcome_bind_Ok in H as (fb & Hfb & H).
  injection H as <-. by exists bs0, mb, ml, st, bsF, stF, fb.
Qed.

Lemma from_beam_Ok bs fb :
  outcome (_from_beam BC self bs) = Ok fb →
  ∃ rows,
    Forall2 (λ b row, outcome (extract BC self b) = Ok row) bs rows
    ∧ fb_predictions fb = (λ r, r.1.1) <$> rows
    ∧ fb_scores fb = (λ r, r.1.2) <$> rows
    ∧ fb_attention fb = (λ r, r.2) <$> rows.
Proof.
  unfold _from_beam. intros H.
  apply outcome_bind_Ok in H as (rows & Hrows & H). injection H as <-.
  exists rows. by split; [apply mapM_Ok |].
Qed.

Lemma extract_Ok b preds scs atts :
  outcome (extract BC self b) = Ok (preds, scs, atts) →
  ∃ b' ks,
    sort_finished BC b (n_best self) = Ok (b', (scs, ks))
    ∧ length preds = length (take (n_best self) ks)
    ∧ length atts = length (take (n_best self) ks).
Proof.
  unfold extract. intros H.
  apply outcome_bind_Ok in H as ([b' [scs' ks]] & Hsort & H).
  apply outcome_bind_Ok in H as (hyps_attn & Hhyps & H).
  injection H as <- <- <-. exists b', ks.
  apply mapM_Ok, Forall2_length in Hhyps.
  by rewrite !length_fmap.
Qed.

(** With a Beam class that fails fast, a loop that returns has never
    called [advance] on a beam that was done. *)
Lemma stepping_never_advances_done mb ml range bs st r i j :
  fails_fast BC →
  outcome (stepping BC self batch mb ml range bs st) = Ok r →
  EvAdvance i j true ∉ log (stepping BC self batch mb ml range bs st).
Proof.
  intros Hfail. revert bs st.
  induction range as [|i0 range IH]; intros bs st Hok;
    [by intros ?%elem_of_nil |].
  rewrite stepping_outcome_cons in Hok. rewrite stepping_log_cons.
  intros [? | H]%elem_of_cons; [done |].
  destruct (forallb _ _); [by apply elem_of_nil in H |].
  destruct (outcome (step BC self batch mb ml i0 bs st))
    as [[bs' st']|] eqn:Hstep; [| discriminate].
  apply elem_of_app in H as [H | H]; [| by eapply IH].
  apply step_log_advance in H as (-> & b & Hb & Hd).
  assert (Hj : j < length bs') .
  { rewrite (step_length _ _ _ _ _ _ _ Hstep). by eapply lookup_lt_Some. }
  destruct (lookup_lt_is_Some_2 bs' j Hj) as [b' Hb'].
  destruct (step_beams _ _ _ _ _ _ _ _ _ Hstep Hb')
    as (b0 & wp & am & Hb0 & Hadv).
  rewrite Hb in Hb0. injection Hb0 as <-.
  by eapply Hfail.
Qed.

Lemma run_never_advances_done gt_prefix r i j :
  fails_fast BC →
  outcome (generate_batch markers BC self batch gt_prefix) = Ok r →
  EvAdvance i j true ∉ log (generate_batch markers BC self batch gt_prefix).
Proof.
  intros Hfail Hok. rewrite run_log.
  unfold generate_batch in Hok. bind_ok Hok.
  destruct a0 as [[mb ml] st]. bind_ok Hok. destruct a0 as [bsF stF].
  rewrite Ha, Ha0.
  intros [H | H]%elem_of_app.
  - pose proof (prepare_log_iteration self batch gt_prefix) as Hprep.
    rewrite Forall_forall in Hprep. by apply Hprep in H.
  - by eapply stepping_never_advances_done.
Qed.

End BeamInvariants.

(** *** Ranked hypotheses *)


(** *** Batching *)

Lemma spec_beam_fails_fast {Attn : Type} :
  fails_fast (@SpecBeam.spec_beam Attn).
Proof.
  intros b word_probs attn_out b' Hd. cbn in *. unfold SpecBeam.advance.
  by rewrite Hd.
Qed.


(** ** Runs that return *)

(** *** Views *)

Lemma chunks_length {T} (n w : nat) (m : list T) : length (chunks n w m) = n.
Proof.
  revert m. induction n as [|n IH]; intros m; simpl; [done |]. by rewrite IH.
Qed.

Lemma chunks_width {T} (n w : nat) (m : list T) :
  n * w ≤ length m → Forall (λ c, length c = w) (chunks n w m).
Proof.
  revert m. induction n as [|n IH]; intros m Hm; simpl; constructor.
  - rewrite length_take. lia.
  - apply IH. rewrite length_drop. lia.
Qed.

Lemma chunks_elem {T} (n w : nat) (m : list T) (c : list T) (x : T) :
  c ∈ chunks n w m → x ∈ c → x ∈ m.
Proof.
  revert m. induction n as [|n IH]; intros m; simpl.
  { by intros ?%elem_of_nil. }
  intros [-> | Hc]%elem_of_cons Hx.
  - by eapply subseteq_take.
  - eapply subseteq_drop. by eapply IH.
Qed.

(** A tensor of [d0 * d1] rows of [w] entries is viewed as [d0] planes of
    [d1] rows of [w] entries. *)
Lemma view3_Ok {T} (d0 d1 w : nat) (m : list T) :
  0 < d0 → 0 < d1 → length m = d0 * d1 * w →
  ∃ t, view3 d0 d1 m = Ok t
       ∧ length t = d0
       ∧ Forall (λ plane, length plane = d1
                          ∧ Forall (λ row : list T, length row = w) plane) t.
Proof.
  intros H0 H1 Hm. unfold view3.
  destruct (Nat.eqb_spec (d0 * d1) 0) as [Hz | Hnz]; [nia |].
  assert (Hw : length m / (d0 * d1) = w).
  { rewrite Hm, Nat.mul_comm. by apply Nat.div_mul. }
  rewrite Hw. rewrite (proj2 (Nat.eqb_eq _ _)) by lia.
  eexists. split; [done |]. split; [apply chunks_length |].
  assert (Hrows : Forall (λ row : list T, length row = w)
                         (chunks (d0 * d1) w m)).
  { apply chunks_width. lia. }
  assert (Hplanes : Forall (λ plane : list (list T), length plane = d1)
                           (chunks d0 d1 (chunks (d0 * d1) w m))).
  { apply chunks_width. rewrite chunks_length. lia. }
  apply Forall_forall. intros plane Hplane. split.
  - rewrite Forall_forall in Hplanes. by apply Hplanes.
  - apply Forall_forall. intros row Hrow.
    rewrite Forall_forall in Hrows. apply Hrows.
    by eapply chunks_elem.
Qed.

Lemma select_item_Ok {T} (t : list (list (list T))) (d1 w j : nat) :
  Forall (λ plane, length plane = d1
                   ∧ Forall (λ row : list T, length row = w) plane) t →
  j < d1 →
  ∃ rows, select_item t j = Ok rows
          ∧ length rows = length t
          ∧ Forall (λ row, length row = w) rows.
Proof.
  intros Ht Hj. induction Ht as [|plane t [Hlen Hrows] _ IH]; simpl.
  { by exists []. }
  destruct (lookup_lt_is_Some_2 plane j) as [row Hrow]; [lia |].
  rewrite Hrow. destruct IH as (rows & -> & Hl & Hw).
  exists (row :: rows). split; [done |]. split; [simpl; lia |].
  constructor; [| done]. rewrite Forall_forall in Hrows.
  by eapply Hrows, list_elem_of_lookup_2.
Qed.

Lemma stack_t_view_Ok (rows : list (list nat)) (k : nat) :
  rows ≠ [] → Forall (λ r, length r = k) rows →
  ∃ inp, stack_t_view rows = Ok inp.
Proof.
  intros Hne Hall. unfold stack_t_view.
  destruct rows as [|r rows]; [done |].
  assert (forallb (λ r', length r' =? length r) (r :: rows) = true) as ->;
    [| eauto].
  apply forallb_forall. intros r' Hr'%list_elem_of_In. apply Nat.eqb_eq.
  rewrite Forall_forall in Hall.
  rewrite (Hall r') by done. symmetry. apply Hall. left.
Qed.

Lemma beam_update_returns {Cell} (idx : nat) (positions : list nat)
    (k n : nat) (st : list (list Cell)) :
  length st = k → Forall (λ row, length row = n) st →
  length positions = k → Forall (λ p, p < k) positions → idx < n →
  ∃ st', beam_update idx positions k st = Ok st'
         ∧ length st' = k ∧ Forall (λ row, length row = n) st'.
Proof.
  intros Hst Hrows Hpos Hlt Hidx. unfold beam_update.
  rewrite (proj2 (Nat.eqb_eq _ _) Hst), (proj2 (Nat.eqb_eq _ _) Hpos).
  assert (forallb (λ p, p <? k) positions = true) as ->.
  { apply forallb_forall. intros p Hp%list_elem_of_In. apply Nat.ltb_lt.
    rewrite Forall_forall in Hlt. by apply Hlt. }
  assert (forallb (λ row : list Cell, idx <? length row) st = true) as ->.
  { apply forallb_forall. intros row Hp%list_elem_of_In. apply Nat.ltb_lt.
    rewrite Forall_forall in Hrows. rewrite (Hrows row) by done. done. }
  simpl. eexists. split; [done |]. split; [by rewrite length_imap |].
  apply Forall_lookup. intros i row. rewrite list_lookup_imap.
  destruct (st !! i) as [row0|] eqn:Hi; [| discriminate].
  intros [= <-].
  assert (Hlen : length row0 = n).
  { rewrite Forall_forall in Hrows. by eapply Hrows, list_elem_of_lookup_2. }
  destruct (positions !! i); [| done].
  destruct (entry st n0 idx); [| done]. by rewrite length_insert.
Qed.

(** *** The beam keeps its shape *)

Module BeamShape.

Import SpecBeam.

Lemma sort_desc_Forall {X} (key : X → score) (P : X → Prop) (l : list X) :
  Forall P l → Forall P (sort_desc key l).
Proof.
  induction 1 as [|c l Hc _ IH]; simpl; [constructor |].
  by apply BeamFacts.insert_desc_Forall.
Qed.

Lemma concat_uniform_length {T} (rows : list (list T)) (w : nat) :
  Forall (λ r, length r = w) rows → length (concat rows) = length rows * w.
Proof.
  induction 1 as [|r rows Hr _ IH]; simpl; [done |].
  rewrite length_app, IH, Hr. lia.
Qed.

Section Shape.

Context {Attn : Type}.
Implicit Types b : beam Attn.

Lemma Beam_wf k nb gs pad bos eos ml :
  wf (Beam (Attn := Attn) k nb gs pad bos eos ml).
Proof.
  unfold wf, Beam. cbn. repeat split; try constructor; try done.
  apply length_replicate.
Qed.

Lemma current_state_length b :
  wf b → length (get_current_state b) = size b.
Proof.
  intros (Hlen & _ & Htok & _). unfold get_current_state.
  destruct (last (tokens b)) as [row|] eqn:Hlast.
  - rewrite Forall_forall in Htok. simpl. by eapply Htok, last_Some_elem_of.
  - apply last_None in Hlast. rewrite Hlast in Hlen. discriminate.
Qed.

(** The candidates of a step on [size] rows of [v] scores. *)
Lemma candidates_shape b (word_probs : list (list score)) (v : nat) :
  0 < size b → length word_probs = size b →
  Forall (λ row, length row = v) word_probs →
  Forall (λ c, c.1 < length (candidates b word_probs))
         (candidates b word_probs)
  ∧ length (candidates b word_probs)
    = match backpointers b with [] => v | _ => size b * v end.
Proof.
  intros Hk Hrows Hw. unfold candidates.
  set (masked := if step_count b <? min_length b
                 then (λ row, <[eos b := NegInf]> row) <$> word_probs
                 else word_probs).
  assert (Hm : length masked = size b
               ∧ Forall (λ row, length row = v) masked).
  { subst masked. destruct (_ <? _); [| done].
    rewrite length_fmap. split; [done |].
    apply Forall_fmap. eapply Forall_impl; [exact Hw |].
    intros row Hr. simpl. by rewrite length_insert. }
  destruct Hm as [Hml Hmw]. split.
  - apply Forall_forall. intros c [i [sc [-> Hi]]]%elem_of_lookup_imap.
    rewrite length_imap. simpl. by eapply lookup_lt_Some.
  - rewrite length_imap. destruct (backpointers b).
    + destruct masked as [|row masked]; [simpl in Hml; lia |].
      cbn [take concat]. rewrite app_nil_r. by inversion Hmw.
    + rewrite (concat_uniform_length _ v).
      * by rewrite length_imap, Hml.
      * apply Forall_forall.
        intros row [i [row0 [-> Hi]]]%elem_of_lookup_imap.
        rewrite length_fmap. rewrite Forall_forall in Hmw.
        by eapply Hmw, list_elem_of_lookup_2.
Qed.

(** [advance] on [size] rows of [v >= size] scores keeps the history
    rectangular and selects [size] origins among the slots. *)
Lemma advanced_wf b (word_probs : list (list score))
    (attn_out : list (list Attn)) (v : nat) :
  wf b → 0 < size b → size b ≤ v →
  length word_probs = size b →
  Forall (λ row, length row = v) word_probs →
  wf (advanced b word_probs attn_out)
  ∧ length (get_current_origin (advanced b word_probs attn_out)) = size b
  ∧ Forall (λ p, p < size b)
           (get_current_origin (advanced b word_probs attn_out)).
Proof.
  intros (Hlen & Hattn & Htok & Hbp & Hat & Hfin) Hk Hv Hrows Hw.
  destruct (candidates_shape b word_probs v Hk Hrows Hw) as [Hidx Hcl].
  set (best := take (size b) (sort_desc snd (candidates b word_probs))).
  assert (Hnw : length (default [] (head word_probs)) = v).
  { destruct word_probs as [|row wp]; [simpl in Hrows; lia |].
    simpl. by inversion Hw. }
  assert (Hbl : length best = size b).
  { subst best. rewrite length_take, BeamFacts.sort_desc_length, Hcl.
    destruct (backpointers b); nia. }
  assert (Hbi : Forall (λ c : nat * score, c.1 / v < size b) best).
  { subst best. apply Forall_take, sort_desc_Forall.
    eapply Forall_impl; [exact Hidx |]. intros c Hc. simpl in Hc.
    rewrite Hcl in Hc. destruct (backpointers b).
    - rewrite Nat.div_small by done. done.
    - apply Nat.Div0.div_lt_upper_bound. lia. }
  assert (Horig : length ((λ c : nat * score, c.1 / v) <$> best) = size b
                  ∧ Forall (λ p, p < size b)
                           ((λ c : nat * score, c.1 / v) <$> best)).
  { rewrite length_fmap. split; [done |]. by apply Forall_fmap. }
  split; [| split].
  - unfold wf, advanced. cbn [tokens backpointers attn finished size].
    fold best. rewrite Hnw. rewrite !length_app. cbn [length].
    repeat split.
    + lia.
    + lia.
    + apply Forall_app. split; [done |]. constructor; [| constructor].
      by rewrite length_fmap.
    + apply Forall_app. split; [done |]. constructor; [| constructor]. done.
    + apply Forall_app. split; [done |]. constructor; [| constructor].
      rewrite length_fmap. apply Horig.
    + apply Forall_app. split.
      * eapply Forall_impl; [exact Hfin |]. intros f [? ?]. split; [lia | done].
      * apply Forall_forall. intros f [[i [tok sc]] [Hin Hf]]%list_elem_of_omap.
        apply elem_of_lookup_imap in Hin as (i' & x & Heq & Hx).
        simplify_eq.
        destruct (tok =? eos b); [| discriminate]. injection Hf as <-.
        cbn [fst snd]. unfold step_count. split; [lia |].
        apply lookup_lt_Some in Hx.
        rewrite length_zip_with in Hx. rewrite !length_fmap in Hx. lia.
  - unfold get_current_origin, advanced. cbn [backpointers]. fold best.
    rewrite Hnw, last_snoc. apply Horig.
  - unfold get_current_origin, advanced. cbn [backpointers]. fold best.
    rewrite Hnw, last_snoc. apply Horig.
Qed.

(** The walk of [get_hyp] succeeds from every step and slot that exist. *)
Lemma walk_Ok b (j k : nat) (hyp : list nat) (att : list (list Attn)) :
  wf b → j ≤ length (backpointers b) → k < size b →
  ∃ r, walk b j k hyp att = Ok r.
Proof.
  intros (Hlen & Hattn & Htok & Hbp & Hat & _).
  revert k hyp att. induction j as [|j IH]; intros k hyp att Hj Hk.
  { simpl. eauto. }
  cbn [walk].
  destruct (lookup_lt_is_Some_2 (tokens b) (S j)) as [trow Htrow]; [lia |].
  destruct (lookup_lt_is_Some_2 (attn b) j) as [arow Harow]; [lia |].
  destruct (lookup_lt_is_Some_2 (backpointers b) j) as [brow Hbrow]; [lia |].
  rewrite Htrow, Harow, Hbrow. cbn [mbind option_bind].
  rewrite Forall_forall in Htok. rewrite Forall_forall in Hbp.
  rewrite Forall_forall in Hat.
  destruct (lookup_lt_is_Some_2 trow k) as [tok ->].
  { rewrite (Htok trow); [done | by eapply list_elem_of_lookup_2]. }
  destruct (lookup_lt_is_Some_2 arow k) as [a ->].
  { rewrite (Hat arow); [done | by eapply list_elem_of_lookup_2]. }
  destruct (Hbp brow) as [Hbl Hblt]; [by eapply list_elem_of_lookup_2 |].
  destruct (lookup_lt_is_Some_2 brow k) as [k' Hk']; [lia |].
  rewrite Hk'. apply IH; [lia |].
  rewrite Forall_forall in Hblt. by eapply Hblt, list_elem_of_lookup_2.
Qed.

Lemma walk_history b b' (j k : nat) (hyp : list nat) (att : list (list Attn)) :
  tokens b' = tokens b → attn b' = attn b → backpointers b' = backpointers b →
  walk b' j k hyp att = walk b j k hyp att.
Proof.
  intros Ht Ha Hb. revert k hyp att.
  induction j as [|j IH]; intros k hyp att; [done |].
  cbn [walk]. rewrite Ht, Ha, Hb.
  destruct (_ ≫= _) as [tok|]; [| done].
  destruct (_ ≫= _) as [a|]; [| done].
  destruct (_ ≫= _) as [k'|]; [| done]. apply IH.
Qed.

(** Every hypothesis ranked by [sort_finished] can be read back. *)
Lemma ranked_readable b (minimum : nat) b' scs ks :
  wf b →
  sort_finished b minimum = Ok (b', (scs, ks)) →
  Forall (λ '(t, k), ∃ r, get_hyp b' t k = Ok r) ks.
Proof.
  intros Hwf. pose proof Hwf as (_ & _ & _ & _ & _ & Hfin).
  unfold sort_finished. cbv zeta.
  destruct (_ <? _); [done |]. intros [= <- <- <-].
  apply Forall_fmap, Forall_take. unfold ranked. cbv zeta.
  apply sort_desc_Forall, Forall_app. split.
  - eapply Forall_impl; [exact Hfin |]. intros [[sc t] k] [Ht Hk].
    unfold compose. cbn [fst snd] in *. unfold get_hyp.
    rewrite (walk_history b) by done. by apply walk_Ok.
  - apply Forall_fmap. apply Forall_take. apply Forall_forall.
    intros i Hi. unfold compose. cbn [fst snd]. unfold get_hyp.
    rewrite (walk_history b) by done. apply walk_Ok; [done | done |].
    unfold unfinished_slots in Hi.
    apply list_elem_of_In, List.filter_In in Hi as [Hi _].
    apply list_elem_of_In, elem_of_seq in Hi. lia.
Qed.

End Shape.

End BeamShape.

(** *** The driver on well-shaped outputs *)

Lemma mapM_returns {A B} (f : A → M B) (l : list A) :
  Forall (λ x, ∃ y, outcome (f x) = Ok y) l → ∃ ys, outcome (mapM f l) = Ok ys.
Proof.
  induction 1 as [|x l [y Hy] _ [ys IH]]; [by exists [] |].
  exists (y :: ys). cbn [mapM]. by rewrite outcome_bind, Hy, outcome_bind, IH.
Qed.

Section Returns.

Context {EncIn EncStates MemCol Cell PrevTurns Title DecOut Attn : Type}.

Variable markers : Markers.
Variable self : @Generator EncIn EncStates MemCol Cell PrevTurns DecOut
                           SpecBeam.score Attn SpecBeam.scorer.
Variable batch : @Batch EncIn PrevTurns Title.
Variable gt_prefix : Z.

Local Abbreviation BC := (@SpecBeam.spec_beam Attn).
Local Abbreviation sound :=
  (λ b : SpecBeam.beam Attn, SpecBeam.wf b ∧ SpecBeam.size b = beam_size self).

Lemma item_attn_Ok ml (attn : list Attn) (src_len j : nat) :
  0 < beam_size self → j < size batch → j < length ml →
  length attn = beam_size self * size batch * src_len →
  ∃ a, item_attn self batch ml attn j = Ok a.
Proof.
  intros Hk Hj Hml Hlen. unfold item_attn, unbottle.
  destruct (view3_Ok (beam_size self) (size batch) src_len attn)
    as (t & -> & _ & Ht); [done | lia | done |].
  rewrite py_index_nat.
  destruct (lookup_lt_is_Some_2 ml j Hml) as [n ->].
  destruct (select_item_Ok t (size batch) src_len j Ht Hj) as (rows & -> & _).
  eauto.
Qed.

Lemma advance_each_returns ml i out (attn : list Attn) j bs st v :
  0 < beam_size self → beam_size self ≤ v →
  length out = beam_size self →
  Forall (λ plane, length plane = size batch
                   ∧ Forall (λ row : list SpecBeam.score, length row = v)
                            plane) out →
  (∀ j', j' < size batch → ∃ a, item_attn self batch ml attn j' = Ok a) →
  Forall (λ b, sound b ∧ SpecBeam.done b = false) bs →
  shaped (beam_size self) (size batch) st →
  j + length bs ≤ size batch →
  ∃ bs' st',
    outcome (advance_each BC self batch ml i out attn j bs st) = Ok (bs', st')
    ∧ Forall sound bs'
    ∧ shaped (beam_size self) (size batch) st'.
Proof.
  intros Hk Hv Hout Hplanes Hattn Hbs. revert j st.
  induction Hbs as [|b bs [[Hwf Hsz] Hpending] _ IH]; intros j st Hst Hj.
  { exists [], st. split; [reflexivity | split; [constructor | exact Hst]]. }
  cbn [length] in Hj. cbn [advance_each].
  destruct (select_item_Ok out (size batch) v j Hplanes) as (wp & Hwp & Hl & Hw);
    [lia |].
  destruct (Hattn j) as [a Ha]; [lia |].
  destruct (BeamShape.advanced_wf b wp a v) as (Hwf' & Hol & Holt);
    [done | lia | lia | lia | done |].
  rewrite Hsz in Hol, Holt.
  destruct Hst as [Hst1 Hst2].
  destruct (beam_update_returns j
              (SpecBeam.get_current_origin (SpecBeam.advanced b wp a))
              (beam_size self) (size batch) st)
    as (st1 & Hupd & Hs1 & Hs2); [done | done | done | done | lia |].
  destruct (IH (S j) st1) as (bs' & st' & Hrec & Hbs' & Hst'); [done | lia |].
  exists (SpecBeam.advanced b wp a :: bs'), st'.
  split; [| split; [constructor; [by split |] |]]; try done.
  unfold item_scores, bind, lift, emit, ret. rewrite Hwp, Ha.
  assert (Hadv : advance BC b wp a = Ok (SpecBeam.advanced b wp a)).
  { cbn [advance BC SpecBeam.spec_beam]. unfold SpecBeam.advance.
    by rewrite Hpending. }
  rewrite Hadv. cbv beta iota.
  change (get_current_origin BC (SpecBeam.advanced b wp a))
    with (SpecBeam.get_current_origin (SpecBeam.advanced b wp a)).
  rewrite Hupd.
  destruct (advance_each BC self batch ml i out attn (S j) bs st1) as [l r].
  cbn [outcome snd] in Hrec. subst r. reflexivity.
Qed.

Section Loop.

Variable mb : @MemoryBank MemCol.
Variable ml : list nat.
Variable vocab_size src_len : nat.
Hypothesis Hmodel : well_shaped self batch mb ml vocab_size src_len.
Hypothesis Hk : 0 < beam_size self.
Hypothesis Hv : beam_size self ≤ vocab_size.
Hypothesis Hml : size batch ≤ length ml.

Lemma step_returns i bs st :
  bs ≠ [] → length bs = size batch →
  Forall (λ b, sound b ∧ SpecBeam.done b = false) bs →
  shaped (beam_size self) (size batch) st →
  ∃ bs' st',
    outcome (step BC self batch mb ml i bs st) = Ok (bs', st')
    ∧ length bs' = size batch
    ∧ Forall sound bs'
    ∧ shaped (beam_size self) (size batch) st'.
Proof using Hmodel Hk Hv Hml.
  intros Hne Hlen Hbs Hst.
  assert (HN : 0 < size batch).
  { destruct bs; [done |]. simpl in Hlen. lia. }
  destruct (stack_t_view_Ok (get_current_state BC <$> bs) (beam_size self))
    as [inp Hinp].
  { by destruct bs. }
  { apply Forall_fmap. eapply Forall_impl; [exact Hbs |].
    intros b [[Hwf Hsz] _]. simpl. rewrite <- Hsz.
    by apply BeamShape.current_state_length. }
  destruct (Hmodel inp st Hst) as (Hscores & Hattn & Hst').
  unfold step. rewrite outcome_bind, outcome_lift, Hinp. cbn beta iota.
  rewrite outcome_bind. cbn [outcome emit snd].
  destruct (decoder (model self) [inp] mb st ml) as [[dec_out st1] attn].
  cbn [fst snd] in *.
  destruct (view3_Ok (beam_size self) (size batch) vocab_size
              (generator_forward (model self) dec_out))
    as (out & Hview & Hout & Hplanes); [done | done | done |].
  rewrite outcome_bind, outcome_lift. unfold unbottle at 1. rewrite Hview.
  cbn beta iota.
  destruct (advance_each_returns ml i out attn 0 bs st1 vocab_size)
    as (bs' & st' & Hrec & Hbs' & Hshape); try done.
  { intros j' Hj'. eapply item_attn_Ok; [done | done | lia | done]. }
  { lia. }
  exists bs', st'.
  split; [exact Hrec | split; [| split; [exact Hbs' | exact Hshape]]].
  apply advance_each_length in Hrec.
  etransitivity; [exact Hrec | exact Hlen].
Qed.

(** With a single beam the loop never advances a beam that is done: it
    stops as soon as the beam is. *)
Lemma stepping_returns range bs st :
  size batch = 1 →
  length bs = size batch → Forall sound bs →
  shaped (beam_size self) (size batch) st →
  ∃ bs' st',
    outcome (stepping BC self batch mb ml range bs st) = Ok (bs', st')
    ∧ Forall sound bs'.
Proof using Hmodel Hk Hv Hml.
  intros Hone.
  revert bs st. induction range as [|i range IH]; intros bs st Hlen Hbs Hst.
  { by exists bs, st. }
  rewrite stepping_outcome_cons.
  destruct (forallb (done BC) bs) eqn:Hdone; [by exists bs, st |].
  destruct (step_returns i bs st) as (bs1 & st1 & -> & Hl1 & Hb1 & Hs1);
    try done.
  { intros ->. discriminate. }
  { destruct bs as [|b [|b' bs]]; cbn [length] in Hlen; try lia.
    cbn [forallb] in Hdone. rewrite andb_true_r in Hdone.
    inversion Hbs as [|? ? Hb _]; subst.
    constructor; [by split | constructor]. }
  by apply IH.
Qed.

End Loop.

Lemma extract_returns b :
  n_best self ≤ beam_size self →
  sound b → ∃ row, outcome (extract BC self b) = Ok row.
Proof.
  intros Hnb [Hwf Hsz]. unfold extract. rewrite outcome_bind, outcome_lift.
  change (sort_finished BC b (n_best self))
    with (SpecBeam.sort_finished b (n_best self)).
  destruct (BeamFacts.sort_finished_returns b (n_best self))
    as [[b' [scs ks]] Hsort]; [lia |].
  pose proof (BeamShape.ranked_readable b (n_best self) b' scs ks Hwf Hsort)
    as Hks.
  rewrite Hsort. cbn beta iota.
  destruct (mapM_returns
              (λ '(times, k), lift (get_hyp BC b' times k))
              (take (n_best self) ks)) as [hyps Hhyps].
  { apply Forall_take. eapply Forall_impl; [exact Hks |].
    intros [t k] [r Hr]. exists r. by rewrite outcome_lift. }
  rewrite outcome_bind, Hhyps. eauto.
Qed.

Lemma from_beam_returns bs :
  n_best self ≤ beam_size self →
  Forall sound bs → ∃ fb, outcome (_from_beam BC self bs) = Ok fb.
Proof.
  intros Hnb Hbs. unfold _from_beam.
  destruct (mapM_returns (extract BC self) bs) as [rows Hrows].
  { eapply Forall_impl; [exact Hbs |]. intros b Hb.
    by apply extract_returns. }
  rewrite outcome_bind, Hrows. eauto.
Qed.

(** With the optional context present the stages before the loop return. *)
Lemma prepare_returns previous_turns title :
  prev_turns batch = Some previous_turns →
  item_title batch = Some title →
  ∃ mb st, outcome (prepare self batch gt_prefix)
           = Ok (mb, tile (beam_size self) (lengths batch), st).
Proof.
  intros Hp Ht. unfold prepare.
  rewrite (encode_with_context self batch previous_turns title Hp Ht).
  rewrite outcome_bind. cbn [outcome ret snd]. cbn beta iota.
  rewrite outcome_bind, forced_prefix_outcome. eauto.
Qed.

(** A run on a single item returns when [n_best] is within the beam size,
    the beam is built, the stages before the loop return a state of the
    right shape and the model keeps to the shapes.  (With several items the
    run fails as soon as one beam is done before the others: the loop then
    advances a finished beam.) *)
Lemma generate_batch_returns bs0 mb ml st vocab_size src_len :
  size batch = 1 → n_best self ≤ beam_size self →
  0 < beam_size self → beam_size self ≤ vocab_size →
  size batch ≤ length ml →
  outcome (make_beams markers BC self batch gt_prefix) = Ok bs0 →
  outcome (prepare self batch gt_prefix) = Ok (mb, ml, st) →
  shaped (beam_size self) (size batch) st →
  well_shaped self batch mb ml vocab_size src_len →
  ∃ r, outcome (generate_batch markers BC self batch gt_prefix) = Ok r.
Proof.
  intros Hone Hnb Hk Hv Hml Hbs0 Hprep Hst Hmodel.
  assert (Hsound : Forall sound bs0 ∧ length bs0 = size batch).
  { apply mapM_Ok in Hbs0. split.
    - apply Forall_lookup. intros m b Hb.
      destruct (Forall2_lookup_r _ _ _ _ _ Hbs0 Hb) as (x & _ & Hnew).
      apply new_beam_Ok in Hnew as (pad & bos & eos & ->).
      split; [apply BeamShape.Beam_wf | done].
    - apply Forall2_length in Hbs0. by rewrite length_seq in Hbs0. }
  destruct Hsound as [Hsound Hlen].
  destruct (stepping_returns mb ml vocab_size src_len Hmodel Hk Hv Hml
              (seq 0 (max_length self)) bs0 st) as (bsF & stF & Hloop & HF);
    try done.
  destruct (from_beam_returns bsF Hnb HF) as [fb Hfb].
  unfold generate_batch.
  rewrite outcome_bind, Hbs0. cbn beta iota.
  rewrite outcome_bind, Hprep. cbn beta iota.
  rewrite outcome_bind, Hloop. cbn beta iota.
  rewrite outcome_bind, Hfb. eauto.
Qed.

End Returns.

(** ** The driver on the small model *)

Section Runs.

Local Abbreviation g := (Scenario.gen 3 1 4 1).
Local Abbreviation run := (Scenario.run (Scenario.gen 3 1 4 1)).

(** The memory bank, the memory lengths and the state with which the loop
    starts on [Cases.twins]. *)
Local Abbreviation twins_bank :=
  (MemList [[0; 0; 0; 0; 0; 0]; [7; 8; 7; 8; 7; 8]]).
Local Abbreviation twins_lengths := [2; 1; 2; 1; 2; 1].
Local Abbreviation twins_state := [[0; 0]; [0; 0]; [0; 0]].

(** The beams built for a batch. *)
Local Abbreviation beams_of batch gt_prefix :=
  (match outcome (make_beams Scenario.the_markers SpecBeam.spec_beam g
                             batch gt_prefix) with
   | Ok bs => bs
   | Raise _ => []
   end).

(** C2: a batch without [prev_turns] does not get its fallback: the run
    stops at line 125 with a [NameError], because [predict_with_context] is
    bound only in the branch that has the context. *)
Theorem generate_batch_fails_without_prev_turns :
  run Scenario.no_context 1
  = ([], Raise (NameError "predict_with_context")).
Proof. vm_compute. reflexivity. Qed.

Lemma generate_batch_gold_score_and_batch_witness :
  ∃ r, outcome (run Cases.twins 1) = Ok r
       ∧ gold_score r = replicate 2 0%Z
       ∧ batch_entry r = Cases.twins.
Proof.
  eexists. split; [vm_compute; reflexivity |].
  apply (generate_batch_gold_score_and_batch
           Scenario.the_markers SpecBeam.spec_beam g Cases.twins 1).
  vm_compute. reflexivity.
Defined.

(** C8 does not hold of the code as stated: with [gt_prefix = 1] and a beam
    of size 3 the state with which the run on [two_items] enters the loop
    is not the state built by [init_decoder_state], which has one row, but
    that state repeated three times. *)
Lemma loop_state_is_not_the_initial_state :
  ¬ (∀ bs mb ml st,
       outcome (make_beams Scenario.the_markers SpecBeam.spec_beam g
                           Scenario.two_items 1) = Ok bs →
       outcome (prepare g Scenario.two_items 1) = Ok (mb, ml, st) →
       run Scenario.two_items 1
       = (let! '(bs', _) := stepping SpecBeam.spec_beam g Scenario.two_items
                                     mb ml (seq 0 4) bs st in
          let! r := _from_beam SpecBeam.spec_beam g bs' in
          ret {| predictions := fb_predictions r;
                 scores := fb_scores r;
                 attention := fb_attention r;
                 gold_score := [0; 0]%Z;
                 batch_entry := Scenario.two_items |}) →
       st = init_decoder_state Scenario.toy [0; 1]
              (encoder Scenario.toy [0; 1] [2; 1]).2
              (encoder Scenario.toy [0; 1] [2; 1]).1).
Proof.
  intros H.
  specialize (H (beams_of Scenario.two_items 1)
                (MemList [[0; 1; 0; 1; 0; 1]; [7; 8; 7; 8; 7; 8]])
                [2; 1; 2; 1; 2; 1] [[0; 1]; [0; 1]; [0; 1]]).
  assert (Hst : [[0; 1]; [0; 1]; [0; 1]] = [[0; 1]])
    by (apply H; vm_compute; reflexivity).
  discriminate Hst.
Qed.

Lemma forced_prefix_then_repeated_witness :
  log (prepare g Scenario.two_items 2) = [EvForced 1]
  ∧ [[0; 1]; [0; 1]; [0; 1]] = repeat_beam_size_times 3 [[0; 1]]
  ∧ log (run Scenario.two_items 2)
    = EvForced 1
      :: log (stepping SpecBeam.spec_beam g Scenario.two_items
                (MemList [[0; 1; 0; 1; 0; 1]; [7; 8; 7; 8; 7; 8]])
                [2; 1; 2; 1; 2; 1] (seq 0 4)
                (beams_of Scenario.two_items 2) [[0; 1]; [0; 1]; [0; 1]]).
Proof.
  destruct (forced_prefix_then_repeated
              Scenario.the_markers SpecBeam.spec_beam g Scenario.two_items 2
              (MemList [[0; 1]; [7; 8]]) (Some true) [[0; 1]]
              (beams_of Scenario.two_items 2)
              (MemList [[0; 1; 0; 1; 0; 1]; [7; 8; 7; 8; 7; 8]])
              [2; 1; 2; 1; 2; 1] [[0; 1]; [0; 1]; [0; 1]])
    as (_ & Hlog & Hst & Hrun).
  - vm_compute. reflexivity.
  - vm_compute. reflexivity.
  - vm_compute. reflexivity.
  - split; [exact Hlog |]. split; [exact Hst |].
    unfold Scenario.run. rewrite Hrun, Hlog. reflexivity.
Defined.

Lemma beams_seeded_with_bos_witness :
  ∃ bs, outcome (make_beams Scenario.the_markers SpecBeam.spec_beam g
                            Scenario.two_items 1) = Ok bs
        ∧ length bs = 2.
Proof.
  eexists. split; [vm_compute; reflexivity |].
  apply (beams_seeded_with_bos Scenario.the_markers SpecBeam.spec_beam g
           Scenario.two_items 1).
  vm_compute. reflexivity.
Defined.

(** C1 does not hold of the code: in the run on [two_items] the first beam
    is done after two steps, the second is not, and [advance] is called on
    the first beam again at iteration 2 (where the Beam of the spec stops
    the run). *)
Lemma advance_called_on_done_beam :
  ¬ (∀ i j d, EvAdvance i j d ∈ log (run Scenario.two_items 1) → d = false).
Proof.
  intros H. specialize (H 2 0 true). discriminate H.
  apply (list_elem_of_lookup_2 _ 14). vm_compute. reflexivity.
Qed.

Lemma advance_only_while_some_beam_pending_witness :
  EvAllDone 2 false ∈ log (run Scenario.two_items 1)
  ∧ ∃ ds, advances_at 1 (log (run Cases.twins 1)) = imap (EvAdvance 1) ds
          ∧ length ds = 2.
Proof.
  split.
  - apply (proj1 (advance_only_while_some_beam_pending
                    Scenario.the_markers SpecBeam.spec_beam g
                    Scenario.two_items 1) 2 0 true).
    apply (list_elem_of_lookup_2 _ 14). vm_compute. reflexivity.
  - destruct (proj2 (advance_only_while_some_beam_pending
                       Scenario.the_markers SpecBeam.spec_beam g
                       Cases.twins 1) 1) as (ds & Hds & _ & Hfull).
    exists ds. split; [exact Hds |]. apply Hfull.
    + apply (list_elem_of_lookup_2 _ 7). vm_compute. reflexivity.
    + right. right. exists true.
      apply (list_elem_of_lookup_2 _ 12). vm_compute. reflexivity.
Defined.

Lemma stepping_loop_bounded_witness : 1 < 2.
Proof.
  apply (proj1 (proj2 (stepping_loop_bounded
                         Scenario.the_markers SpecBeam.spec_beam g
                         Scenario.first_item 1)) 2 1).
  - apply (list_elem_of_lookup_2 _ 8). vm_compute. reflexivity.
  - apply (list_elem_of_lookup_2 _ 5). vm_compute. reflexivity.
Defined.

(** The first step on [Cases.twins], from a state whose slots differ: both
    beams advance, and every slot of either item then holds what slot 0 of
    that item held, slot 0 being the origin of the three hypotheses. *)
Lemma state_reindexed_per_beam_witness :
  ∃ bs' st',
    outcome (step SpecBeam.spec_beam g Cases.twins twins_bank twins_lengths 0
                  (beams_of Cases.twins 1) [[10; 20]; [11; 21]; [12; 22]])
    = Ok (bs', st')
    ∧ length bs' = 2
    ∧ ∃ b', bs' !! 1 = Some b'
            ∧ get_current_origin SpecBeam.spec_beam b' = [0; 0; 0]
            ∧ entry st' 2 1 = Some 20.
Proof.
  eexists _, _. split; [vm_compute; reflexivity |].
  assert (Hinp : stack_t_view (get_current_state SpecBeam.spec_beam
                                 <$> beams_of Cases.twins 1)
                 = Ok [1; 0; 1; 0; 1; 0]) by (vm_compute; reflexivity).
  destruct (state_reindexed_per_beam SpecBeam.spec_beam g Cases.twins
              twins_bank twins_lengths 0 (beams_of Cases.twins 1)
              [[10; 20]; [11; 21]; [12; 22]] _ _ _ eq_refl Hinp)
    as (out & _ & Hlen & Hall).
  split; [exact Hlen |].
  destruct (beams_of Cases.twins 1 !! 1) as [b|] eqn:Hb;
    [| vm_compute in Hb; discriminate].
  destruct (Hall 1 b Hb)
    as (b' & wp & am & st_a & st_b & Hb' & _ & _ & _ & _ & _ & _ & Hst').
  exists b'. split; [exact Hb' |].
  vm_compute in Hb'. injection Hb' as Heq. subst b'.
  split; [reflexivity |]. apply (Hst' 2 0). reflexivity.
Defined.

(** The small model answers from the memory bank alone and hands the state
    on unchanged. *)
Lemma toy_same_step_outputs mb ml :
  same_step_outputs Scenario.toy Scenario.toy mb mb ml eq.
Proof.
  intros inp st1 st2 Hst. cbn. repeat split. exact Hst.
Defined.

Lemma state_rel_eq_refl (st : list (list nat)) : state_rel eq st st.
Proof.
  induction st as [|row st IH]; constructor; [| exact IH].
  induction row; constructor; [reflexivity | assumption].
Defined.

Lemma generate_batch_deterministic_witness :
  generate_batch Scenario.the_markers SpecBeam.spec_beam
                 (with_model g Scenario.toy) Cases.twins 1
  = generate_batch Scenario.the_markers SpecBeam.spec_beam
                   g Cases.twins 1.
Proof.
  apply (generate_batch_deterministic
           Scenario.the_markers SpecBeam.spec_beam g Scenario.toy
           Cases.twins 1 eq
           twins_bank twins_bank twins_lengths twins_state twins_state).
  - vm_compute. reflexivity.
  - vm_compute. reflexivity.
  - apply state_rel_eq_refl.
  - apply toy_same_step_outputs.
Defined.


(** On [Cases.twins], the outputs of the small model agree slice-wise with
    its outputs on the first item alone. *)
Lemma toy_slices_agree_first :
  slices_agree g Cases.twins Scenario.first_item 0
    twins_bank (MemList [[0; 0; 0]; [7; 7; 7]])
    twins_lengths [2; 2; 2].
Proof.
  intros cur c inp inp1 st st1 _ _ _ Hcol. cbv zeta.
  split; [exact Hcol |]. split.
  - intros out Hout. vm_compute in Hout. injection Hout as <-.
    eexists. split; vm_compute; reflexivity.
  - vm_compute. reflexivity.
Defined.


(** The small model keeps to the shapes, so its runs on one item with
    context return. *)
Lemma toy_well_shaped :
  well_shaped g Scenario.second_item
    (MemList [[1; 1; 1]; [8; 8; 8]]) [1; 1; 1] 5 2.
Proof.
  intros inp st Hst. cbv zeta.
  split; [vm_compute; reflexivity |].
  split; [vm_compute; reflexivity | exact Hst].
Qed.

Lemma second_item_returns : ∃ r, outcome (run Scenario.second_item 1) = Ok r.
Proof.
  eapply (generate_batch_returns Scenario.the_markers g Scenario.second_item 1
            _ (MemList [[1; 1; 1]; [8; 8; 8]])
            [1; 1; 1] [[1]; [1]; [1]] 5 2).
  - reflexivity.
  - simpl. lia.
  - simpl. lia.
  - simpl. lia.
  - simpl. lia.
  - vm_compute. reflexivity.
  - vm_compute. reflexivity.
  - split; [reflexivity | repeat constructor].
  - apply toy_well_shaped.
Qed.

End Runs.

(** * More of the generator *)

(** ** Flattening and unflattening *)

Lemma chunks_lookup {T} (n w : nat) (m : list T) (i : nat) :
  i < n → chunks n w m !! i = Some (take w (drop (i * w) m)).
Proof.
  revert m i. induction n as [|n IH]; intros m i Hi; [lia |].
  destruct i as [|i]; simpl; [done |].
  rewrite IH by lia. by rewrite drop_drop.
Qed.

Lemma concat_chunks {T} (n w : nat) (m : list T) :
  concat (chunks n w m) = take (n * w) m.
Proof.
  revert m. induction n as [|n IH]; intros m; simpl; [done |].
  by rewrite IH, take_take_drop.
Qed.

Lemma view3_Ok_inv {T} (d0 d1 : nat) (m : list T) t :
  view3 d0 d1 m = Ok t →
  d0 * d1 ≠ 0
  ∧ length m / (d0 * d1) * (d0 * d1) = length m
  ∧ t = chunks d0 d1 (chunks (d0 * d1) (length m / (d0 * d1)) m).
Proof.
  unfold view3.
  destruct (Nat.eqb_spec (d0 * d1) 0); [discriminate |].
  destruct (Nat.eqb_spec (length m / (d0 * d1) * (d0 * d1)) (length m));
    [| discriminate].
  by intros [= <-].
Qed.

Section Layout.

Context {EncIn EncStates MemCol Cell PrevTurns Title DecOut Score Attn Scorer : Type}.

Variable self : @Generator EncIn EncStates MemCol Cell PrevTurns DecOut
                           Score Attn Scorer.
Variable batch : @Batch EncIn PrevTurns Title.

(** X1: after [unbottle], the slice [[:, j]] of a tensor lists, slot by
    slot, the rows the flat tensor holds at the positions
    [slot * batch_size + j]: the row of hypothesis slot [k] of batch item
    [j] is row [k * batch_size + j] of the model's output. *)
Theorem unbottle_item_layout {T} (m : list T) out j :
  unbottle self batch m = Ok out →
  j < size batch →
  ∃ rows,
    select_item out j = Ok rows
    ∧ length rows = beam_size self
    ∧ ∀ k, k < beam_size self →
        rows !! k
        = Some (take (length m / (beam_size self * size batch))
                     (drop ((k * size batch + j)
                            * (length m / (beam_size self * size batch))) m)).
Proof.
  unfold unbottle. intros (Hnz & Hdiv & ->)%view3_Ok_inv Hj.
  set (w := length m / (beam_size self * size batch)) in *.
  set (k0 := beam_size self) in *. set (n := size batch) in *.
  assert (Hplane : ∀ k, k < k0 →
            chunks k0 n (chunks (k0 * n) w m) !! k
            = Some (take n (drop (k * n) (chunks (k0 * n) w m)))).
  { intros k Hk. by apply chunks_lookup. }
  assert (Hrow : ∀ k, k < k0 →
            take n (drop (k * n) (chunks (k0 * n) w m)) !! j
            = Some (take w (drop ((k * n + j) * w) m))).
  { intros k Hk. rewrite lookup_take_lt, lookup_drop by done.
    apply chunks_lookup. nia. }
  assert (Hgen : ∀ planes : list (list (list T)),
            (∀ k plane, planes !! k = Some plane → is_Some (plane !! j)) →
            ∃ rows, select_item planes j = Ok rows
                    ∧ length rows = length planes
                    ∧ ∀ k plane, planes !! k = Some plane →
                                 rows !! k = plane !! j).
  { induction planes as [|plane planes IH]; intros Hall.
    { exists []. by repeat split. }
    destruct (Hall 0 plane eq_refl) as [row Hrow0].
    destruct IH as (rows & Hsel & Hlen & Hlk).
    { intros k pl Hpl. by apply (Hall (S k)). }
    exists (row :: rows). simpl. rewrite Hrow0, Hsel.
    split; [done |]. split; [by rewrite Hlen |].
    intros [|k] pl Hpl; simpl in *; [by injection Hpl as <- | by apply Hlk]. }
  destruct (Hgen (chunks k0 n (chunks (k0 * n) w m)))
    as (rows & Hsel & Hlen & Hlk).
  { intros k plane Hk.
    assert (k < k0).
    { apply lookup_lt_Some in Hk. by rewrite chunks_length in Hk. }
    rewrite Hplane in Hk by done. injection Hk as <-.
    rewrite Hrow by done. eauto. }
  exists rows. split; [done |]. split; [by rewrite Hlen, chunks_length |].
  intros k Hk. rewrite (Hlk k _ (Hplane k Hk)). by apply Hrow.
Qed.

(** X2: [unbottle] only regroups: flattening its result gives the tensor's
    data back, and [bottle] of the same tensor is [unbottle] of it with the
    first two dimensions merged; the two fail on the same tensors. *)
Theorem bottle_unbottle {T} (m : list T) :
  bottle self batch m
  = match unbottle self batch m with
    | Ok out => Ok (concat out)
    | Raise e => Raise e
    end
  ∧ ∀ out, unbottle self batch m = Ok out → concat (concat out) = m.
Proof.
  split.
  - unfold bottle, unbottle, view2, view3.
    rewrite (Nat.mul_comm (size batch) (beam_size self)).
    destruct (Nat.eqb_spec (beam_size self * size batch) 0); [done |].
    destruct (Nat.eqb_spec
                (length m / (beam_size self * size batch)
                 * (beam_size self * size batch)) (length m))
      as [Hdiv|]; [| done].
    f_equal. rewrite concat_chunks. symmetry. apply take_ge.
    by rewrite chunks_length.
  - unfold unbottle. intros out (Hnz & Hdiv & ->)%view3_Ok_inv.
    rewrite concat_chunks, take_ge by (by rewrite chunks_length).
    rewrite concat_chunks. apply take_ge. lia.
Qed.

End Layout.

Lemma omap_total_lookup {A B} (f : A → option B) (l : list A) :
  Forall (λ x, is_Some (f x)) l →
  length (omap f l) = length l
  ∧ ∀ j x, l !! j = Some x → omap f l !! j = f x.
Proof.
  induction 1 as [|x l [y Hy] _ [IHlen IHlk]]; [done |].
  cbn [omap list_omap]. rewrite Hy. split; [simpl; by rewrite IHlen |].
  intros [|j] x' Hx'; simpl in *; [by injection Hx' as <- | by apply IHlk].
Qed.

Lemma lookup_concat_uniform {T} (ls : list (list T)) (w i j : nat) :
  Forall (λ l, length l = w) ls → j < w →
  concat ls !! (i * w + j) = ls !! i ≫= (λ l, l !! j).
Proof.
  intros Hall Hj. revert i. induction Hall as [|l ls Hl _ IH]; intros i.
  { done. }
  destruct i as [|i]; simpl.
  - rewrite lookup_app_l by lia. done.
  - rewrite lookup_app_r by lia. rewrite <- IH. f_equal. lia.
Qed.

(** X3: the decoder input built at lines 139-140 lists the current tokens
    slot by slot: position [slot * batch_size + j] holds the token of that
    slot of beam [j].  It exists exactly when there is at least one beam and
    all beams have the same number of current tokens. *)
Theorem stack_t_view_layout (rows : list (list nat)) (inp : list nat) :
  stack_t_view rows = Ok inp →
  ∃ k,
    rows ≠ []
    ∧ Forall (λ r, length r = k) rows
    ∧ length inp = k * length rows
    ∧ ∀ c j r, c < k → rows !! j = Some r →
        inp !! (c * length rows + j) = r !! c.
Proof.
  unfold stack_t_view. destruct rows as [|r0 rows0]; [discriminate |].
  set (rows := r0 :: rows0).
  destruct (forallb _ rows) eqn:Hall; [| discriminate]. intros [= <-].
  exists (length r0).
  assert (Hlen : Forall (λ r, length r = length r0) rows).
  { apply Forall_forall. intros r Hr%list_elem_of_In.
    rewrite forallb_forall in Hall. by apply Nat.eqb_eq, Hall. }
  assert (Hcol : ∀ c, c < length r0 →
            length (omap (λ r' : list nat, r' !! c) rows) = length rows
            ∧ ∀ j r, rows !! j = Some r →
                omap (λ r' : list nat, r' !! c) rows !! j = r !! c).
  { intros c Hc. apply omap_total_lookup.
    eapply Forall_impl; [exact Hlen |]. intros r Hr. cbv beta in *.
    apply lookup_lt_is_Some_2. lia. }
  assert (Hcols : Forall (λ l : list nat, length l = length rows)
            ((λ k, omap (λ r' : list nat, r' !! k) rows)
               <$> seq 0 (length r0))).
  { apply Forall_fmap, Forall_forall. intros c Hc%elem_of_seq. simpl.
    apply Hcol. lia. }
  split; [done |]. split; [done |]. split.
  - rewrite (BeamShape.concat_uniform_length _ (length rows)) by done.
    by rewrite length_fmap, length_seq.
  - intros c j r Hc Hj.
    rewrite lookup_concat_uniform by (done || by eapply lookup_lt_Some).
    rewrite list_lookup_fmap, (lookup_seq_lt _ _ _ Hc). simpl.
    by apply Hcol.
Qed.

Lemma tile_lookup {T} (k : nat) (t : list T) (i j : nat) :
  i < k → j < length t → tile k t !! (i * length t + j) = t !! j.
Proof.
  intros Hi Hj. unfold tile.
  rewrite lookup_concat_uniform; [| | done].
  - by rewrite lookup_replicate_2.
  - apply Forall_forall. by intros l [-> _]%elem_of_replicate.
Qed.

Section Lengths.

Context {EncIn EncStates MemCol Cell PrevTurns Title DecOut Score Attn Scorer : Type}.

Variable self : @Generator EncIn EncStates MemCol Cell PrevTurns DecOut
                           Score Attn Scorer.
Variable batch : @Batch EncIn PrevTurns Title.
Variable gt_prefix : Z.

(** X4: the [memory_lengths] given to the decoder and used to cut the
    attention rows (lines 129, 154, 182) repeat [batch.lengths] once per
    hypothesis slot: the entry at position [slot * len(lengths) + j] is
    [lengths[j]], so [memory_lengths[j]] is the source length of batch item
    [j]. *)
Theorem memory_lengths_layout mb ml st :
  outcome (prepare self batch gt_prefix) = Ok (mb, ml, st) →
  length ml = beam_size self * length (lengths batch)
  ∧ ∀ k j, k < beam_size self → j < length (lengths batch) →
      ml !! (k * length (lengths batch) + j) = lengths batch !! j.
Proof.
  intros H. unfold prepare in H. bind_ok H. destruct a as [[mb0 pwc] st0].
  bind_ok H. unfold repeat_src in H. bind_ok H. injection H as _ <- _.
  split.
  - unfold tile.
    rewrite (BeamShape.concat_uniform_length _ (length (lengths batch))).
    + by rewrite length_replicate.
    + apply Forall_forall. by intros l [-> _]%elem_of_replicate.
  - intros k j Hk Hj. by apply tile_lookup.
Qed.

End Lengths.

(** ** Seeding, context and the shape of the result *)

Lemma py_index_out_of_range {A} (l : list A) (i : Z) :
  (i < - Z.of_nat (length l) ∨ Z.of_nat (length l) ≤ i)%Z →
  py_index l i = Raise IndexError.
Proof.
  intros Hi. unfold py_index.
  destruct (Z.ltb_spec i 0).
  - destruct (Z.ltb_spec (i + Z.of_nat (length l)) 0); [done | lia].
  - destruct (Z.ltb_spec i 0); [lia |].
    rewrite (proj2 (lookup_ge_None l (Z.to_nat i))) by lia. done.
Qed.

Lemma py_index_wraps {A} (l : list A) (i : Z) :
  (- Z.of_nat (length l) ≤ i < 0)%Z →
  ∃ x, l !! Z.to_nat (Z.of_nat (length l) + i) = Some x
       ∧ py_index l i = Ok x.
Proof.
  intros Hi. unfold py_index.
  destruct (Z.ltb_spec i 0); [| lia].
  destruct (Z.ltb_spec (i + Z.of_nat (length l)) 0); [lia |].
  destruct (lookup_lt_is_Some_2 l (Z.to_nat (i + Z.of_nat (length l))))
    as [x Hx]; [lia |].
  rewrite Hx. exists x. split; [| done].
  by rewrite Z.add_comm.
Qed.

Lemma mapM_raises {A B} (f : A → M B) (l : list A) (x : A) :
  x ∈ l → (∃ e, outcome (f x) = Raise e) →
  ∃ e, outcome (mapM f l) = Raise e.
Proof.
  intros Hx [e He]. induction l as [|y l IH]; [by apply elem_of_nil in Hx |].
  cbn [mapM]. rewrite outcome_bind.
  destruct (outcome (f y)) as [b|e'] eqn:Hy; [| eauto].
  apply elem_of_cons in Hx as [-> | Hx]; [congruence |].
  destruct (IH Hx) as [e'' He'']. rewrite outcome_bind, He''. eauto.
Qed.

Section Seeding.

Context {EncIn EncStates MemCol Cell PrevTurns Title DecOut Score Attn Scorer : Type}.

Variable markers : Markers.
Variable BC : @BeamClass Score Attn Scorer.
Variable self : @Generator EncIn EncStates MemCol Cell PrevTurns DecOut
                           Score Attn Scorer.
Variable batch : @Batch EncIn PrevTurns Title.
Variable gt_prefix : Z.

Local Abbreviation the_run := (generate_batch markers BC self batch gt_prefix).

Lemma run_aborts_with_beams e :
  outcome (make_beams markers BC self batch gt_prefix) = Raise e →
  the_run = ([], Raise e).
Proof.
  intros H. unfold generate_batch.
  pose proof (make_beams_log markers BC self batch gt_prefix) as Hlog.
  destruct (make_beams markers BC self batch gt_prefix) as [l r].
  cbn [log outcome fst snd] in *. by subst.
Qed.

(** X5: a batch item whose non-empty context is shorter than [gt_prefix]
    (or, for a negative index, shorter than [1 - gt_prefix]) makes
    [get_bos] raise [IndexError], and the whole batch is given up before
    any call of the model. *)
Theorem short_context_aborts_batch j w ws :
  j < size batch →
  context_data_decoder_tokens batch !! j = Some (Some (w :: ws)) →
  (Z.of_nat (length (w :: ws)) < gt_prefix
   ∨ gt_prefix ≤ - Z.of_nat (length (w :: ws)))%Z →
  get_bos markers self batch gt_prefix j = Raise IndexError
  ∧ ∃ e, the_run = ([], Raise e).
Proof.
  intros Hj Hctx Hgt.
  assert (Hbos : get_bos markers self batch gt_prefix j = Raise IndexError).
  { unfold get_bos. rewrite py_index_nat, Hctx.
    rewrite py_index_out_of_range by lia. done. }
  split; [done |].
  destruct (mapM_raises (new_beam markers BC self batch gt_prefix)
              (seq 0 (size batch)) j) as [e He].
  { apply elem_of_seq. lia. }
  { unfold new_beam. rewrite outcome_bind, outcome_lift.
    destruct (dict_get _ _); [| eauto].
    rewrite outcome_bind, outcome_lift, Hbos. eauto. }
  exists e. by apply run_aborts_with_beams.
Qed.

(** X6: for [gt_prefix <= 0] the index [gt_prefix - 1] counts from the end
    of a non-empty context: the beam is seeded with the token at position
    [len + gt_prefix - 1]; with [gt_prefix = 0] that is the last token.  A
    word the vocabulary does not know raises [KeyError]. *)
Theorem nonpositive_prefix_counts_from_end j w ws :
  context_data_decoder_tokens batch !! j = Some (Some (w :: ws)) →
  (- Z.of_nat (length (w :: ws)) < gt_prefix ≤ 0)%Z →
  ∃ word,
    (w :: ws) !! Z.to_nat (Z.of_nat (length (w :: ws)) + gt_prefix - 1)
    = Some word
    ∧ get_bos markers self batch gt_prefix j
      = match word_to_ind (vocab self) !! word with
        | Some i => Ok i
        | None => Raise (KeyError word)
        end.
Proof.
  intros Hctx Hgt.
  destruct (py_index_wraps (w :: ws) (gt_prefix - 1)) as (word & Hword & Hidx);
    [lia |].
  exists word. split.
  { rewrite <- Hword. f_equal. lia. }
  unfold get_bos. rewrite py_index_nat, Hctx, Hidx. done.
Qed.

Lemma generate_batch_gold_score_lemma r :
  outcome the_run = Ok r → gold_score r = replicate (size batch) 0%Z.
Proof.
  unfold generate_batch. intros H. bind_ok H.
  destruct a0 as [[mb ml] st]. bind_ok H.
  destruct a0 as [bs st']. bind_ok H. by injection H as <-.
Qed.

(** X8: the dictionary returned has one entry per batch item in each of
    "predictions", "scores", "attention" and "gold_score". *)
Theorem result_has_batch_size_entries r :
  outcome the_run = Ok r →
  length (predictions r) = size batch
  ∧ length (scores r) = size batch
  ∧ length (attention r) = size batch
  ∧ length (gold_score r) = size batch.
Proof.
  intros H.
  pose proof (generate_batch_gold_score_lemma r H)
    as Hgold.
  apply generate_batch_Ok in H
    as (bs0 & mb & ml & st & bsF & stF & fb & Hbs0 & _ & Hloop & Hfb
        & -> & -> & ->).
  apply make_beams_length in Hbs0.
  destruct (stepping_preserves BC self batch (λ _, True) mb ml
              (seq 0 (max_length self)) bs0 st bsF stF) as [_ Hlen];
    [done | by apply Forall_true | done |].
  apply from_beam_Ok in Hfb as (rows & Hrows%Forall2_length & -> & -> & ->).
  rewrite !length_fmap, Hgold, length_replicate. repeat split; lia.
Qed.

End Seeding.

(** ** Hypotheses, decoding steps and the empty batch *)

Lemma mapM_lookup {A B} (f : A → M B) (l : list A) (ys : list B) i x :
  outcome (mapM f l) = Ok ys → l !! i = Some x →
  ∃ y, ys !! i = Some y ∧ outcome (f x) = Ok y.
Proof.
  intros H%mapM_Ok Hx.
  destruct (Forall2_lookup_l _ _ _ _ _ H Hx) as (y & Hy & Hf). eauto.
Qed.

Section Results.

Context {EncIn EncStates MemCol Cell PrevTurns Title DecOut Score Attn Scorer : Type}.

Variable markers : Markers.
Variable BC : @BeamClass Score Attn Scorer.
Variable self : @Generator EncIn EncStates MemCol Cell PrevTurns DecOut
                           Score Attn Scorer.
Variable batch : @Batch EncIn PrevTurns Title.
Variable gt_prefix : Z.

Local Abbreviation the_run := (generate_batch markers BC self batch gt_prefix).

Lemma extract_hypotheses b preds scs atts :
  outcome (extract BC self b) = Ok (preds, scs, atts) →
  ∃ b' ks,
    sort_finished BC b (n_best self) = Ok (b', (scs, ks))
    ∧ length preds = n_best self `min` length ks
    ∧ length atts = length preds
    ∧ ∀ i t k, i < n_best self → ks !! i = Some (t, k) →
        ∃ hyp att, get_hyp BC b' t k = Ok (hyp, att)
                   ∧ preds !! i = Some hyp ∧ atts !! i = Some att.
Proof.
  unfold extract. intros H.
  apply outcome_bind_Ok in H as ([b' [scs' ks]] & Hsort & H).
  apply outcome_bind_Ok in H as (hyps_attn & Hhyps & H).
  injection H as <- <- <-. exists b', ks.
  rewrite outcome_lift in Hsort.
  pose proof (Forall2_length _ _ _ (mapM_Ok _ _ _ Hhyps)) as Hlen.
  rewrite length_take in Hlen.
  split; [done |]. rewrite !length_fmap. split; [lia |]. split; [done |].
  intros i t k Hi Hk.
  destruct (mapM_lookup _ _ _ i (t, k) Hhyps) as ([hyp att] & Hy & Hget).
  { by rewrite lookup_take_lt. }
  rewrite outcome_lift in Hget. exists hyp, att.
  rewrite !list_lookup_fmap, Hy. done.
Qed.

(** X9: each entry of "predictions" is paired, position by position, with
    the entry of "attention": both are read by [get_hyp] from the same
    ranked pair of the beam that [sort_finished] left behind; there are
    [min(n_best, len(ks))] of them, and "scores" holds what
    [sort_finished] returned. *)
Theorem hypotheses_paired_with_attention r j preds atts :
  outcome the_run = Ok r →
  predictions r !! j = Some preds →
  attention r !! j = Some atts →
  ∃ b b' scs ks,
    sort_finished BC b (n_best self) = Ok (b', (scs, ks))
    ∧ scores r !! j = Some scs
    ∧ length preds = n_best self `min` length ks
    ∧ length atts = length preds
    ∧ ∀ i t k, i < n_best self → ks !! i = Some (t, k) →
        ∃ hyp att, get_hyp BC b' t k = Ok (hyp, att)
                   ∧ preds !! i = Some hyp ∧ atts !! i = Some att.
Proof.
  intros H Hp Ha.
  apply generate_batch_Ok in H
    as (bs0 & mb & ml & st & bsF & stF & fb & _ & _ & _ & Hfb
        & Epred & Esc & Eatt).
  apply from_beam_Ok in Hfb as (rows & Hrows & Fp & Fs & Fa).
  rewrite Epred, Fp, list_lookup_fmap in Hp.
  rewrite Eatt, Fa, list_lookup_fmap in Ha.
  destruct (rows !! j) as [[[p s] a]|] eqn:Hrow; [| discriminate].
  cbn in Hp, Ha. injection Hp as ->. injection Ha as ->.
  destruct (Forall2_lookup_r _ _ _ _ _ Hrows Hrow) as (b & Hb & Hext).
  apply extract_hypotheses in Hext as (b' & ks & Hsort & Hlp & Hla & Hall).
  exists b, b', s, ks. split; [done |]. split; [| done].
  by rewrite Esc, Fs, list_lookup_fmap, Hrow.
Qed.

Section Counting.

Variable memory_bank : @MemoryBank MemCol.
Variable memory_lengths : list nat.

Local Abbreviation the_step := (step BC self batch memory_bank memory_lengths).
Local Abbreviation the_stepping :=
  (stepping BC self batch memory_bank memory_lengths).

Lemma step_calls_decode i j (bs : list (beam BC)) n :
  List.filter is_decode (take n (step_calls BC i j bs)) = [].
Proof.
  pose proof (Forall_take _ n _ (step_calls_iteration BC i j bs)) as Hall.
  induction Hall as [|e l (_ & He & _) _ IH]; [reflexivity |].
  cbn [List.filter]. by rewrite He.
Qed.

Lemma step_calls_advances i j (bs : list (beam BC)) :
  length (List.filter is_advance (step_calls BC i j bs)) = length bs.
Proof.
  revert j. induction bs as [|b bs IH]; intros j; [reflexivity |].
  rewrite step_calls_cons. cbn [List.filter is_advance length].
  by rewrite IH.
Qed.

Lemma step_decodes i bs st :
  List.filter is_decode (log (the_step i bs st)) = []
  ∧ (∀ r, outcome (the_step i bs st) ≠ Ok r)
  ∨ List.filter is_decode (log (the_step i bs st)) = [EvDecode i].
Proof.
  destruct (step_log BC self batch memory_bank memory_lengths i bs st)
    as [[-> Hno] | (n & -> & _)]; [by left | right].
  cbn [List.filter is_decode]. by rewrite step_calls_decode.
Qed.

Lemma step_advances i bs st r :
  outcome (the_step i bs st) = Ok r →
  length (List.filter is_advance (log (the_step i bs st))) = length bs.
Proof.
  intros Hok.
  destruct (step_log BC self batch memory_bank memory_lengths i bs st)
    as [[_ Hno] | (n & -> & Hn)]; [by destruct (Hno r) |].
  destruct (Hn r Hok) as [Hlen _].
  rewrite take_ge by (rewrite step_calls_length; lia).
  cbn [List.filter is_advance]. apply step_calls_advances.
Qed.

Lemma stepping_decodes a m bs st :
  ∃ n, n ≤ m
       ∧ List.filter is_decode (log (the_stepping (seq a m) bs st))
         = EvDecode <$> seq a n.
Proof.
  revert a bs st. induction m as [|m IH]; intros a bs st.
  { exists 0. done. }
  cbn [seq]. rewrite stepping_log_cons. cbn [List.filter is_decode].
  destruct (forallb _ _); [exists 0; split; [lia | done] |].
  rewrite List.filter_app.
  destruct (step_decodes a bs st) as [[-> Hno] | ->].
  - exists 0. split; [lia |].
    destruct (outcome (the_step a bs st)) as [r|] eqn:Hr;
      [by destruct (Hno r) | done].
  - destruct (outcome (the_step a bs st)) as [[bs' st']|].
    + destruct (IH (S a) bs' st') as (n & Hn & ->).
      exists (S n). split; [lia | done].
    + exists 1. split; [lia | done].
Qed.

Lemma stepping_advances range bs st r :
  outcome (the_stepping range bs st) = Ok r →
  length (List.filter is_advance (log (the_stepping range bs st)))
  = steps_performed (log (the_stepping range bs st)) * length bs.
Proof.
  unfold steps_performed.
  revert bs st. induction range as [|i range IH]; intros bs st H;
    [reflexivity |].
  rewrite stepping_outcome_cons in H. rewrite stepping_log_cons.
  cbn [List.filter is_advance is_decode].
  destruct (forallb _ _); [reflexivity |].
  destruct (outcome (the_step i bs st)) as [[bs' st']|] eqn:Hstep;
    [| discriminate].
  rewrite !List.filter_app, !length_app.
  rewrite (step_advances i bs st _ Hstep).
  destruct (step_decodes i bs st) as [[_ Hno] | ->];
    [by destruct (Hno _ Hstep) |].
  rewrite (IH bs' st' H).
  rewrite (step_length BC self batch _ _ _ _ _ _ _ Hstep).
  cbn [length]. lia.
Qed.

End Counting.

(** X10: the decoder steps of a run are those of the iterations
    [0, 1, ..., n-1] in this order, for some [n <= max_length]; in a run
    that returns, [advance] has been called [n * batch.size] times. *)
Theorem decoding_steps_consecutive :
  steps_performed (log the_run) ≤ max_length self
  ∧ List.filter is_decode (log the_run)
    = EvDecode <$> seq 0 (steps_performed (log the_run))
  ∧ ∀ r, outcome the_run = Ok r →
      length (List.filter is_advance (log the_run))
      = steps_performed (log the_run) * size batch.
Proof.
  assert (Hprep : ∀ p : event → bool,
            (∀ n, p (EvForced n) = false) →
            List.filter p (log (prepare self batch gt_prefix)) = []).
  { intros p Hp.
    pose proof (prepare_log_iteration self batch gt_prefix) as Hall.
    induction Hall as [|e l He _ IH]; [reflexivity |].
    cbn [List.filter]. destruct e; try discriminate. by rewrite Hp. }
  assert (Hfilter : ∃ n, n ≤ max_length self
            ∧ List.filter is_decode (log the_run) = EvDecode <$> seq 0 n).
  { rewrite run_log.
    destruct (outcome (make_beams _ _ _ _ _)) as [bs|];
      [| exists 0; split; [lia | done]].
    rewrite List.filter_app, Hprep by done.
    destruct (outcome (prepare _ _ _)) as [[[mb ml] st]|];
      [| exists 0; split; [lia | done]].
    apply stepping_decodes. }
  destruct Hfilter as (n & Hn & Hf).
  assert (Hsteps : steps_performed (log the_run) = n).
  { unfold steps_performed. by rewrite Hf, length_fmap, length_seq. }
  rewrite Hsteps. split; [done |]. split; [done |].
  intros r Hr. rewrite <- Hsteps. unfold steps_performed.
  apply generate_batch_Ok in Hr
    as (bs0 & mb & ml & st & bsF & stF & fb & Hbs0 & Hp & Hloop & _).
  rewrite run_log, Hbs0, Hp, !List.filter_app, !Hprep by done.
  cbn [app]. rewrite <- (make_beams_length _ _ _ _ _ _ Hbs0).
  by eapply stepping_advances.
Qed.

Lemma prepare_with_context previous_turns title :
  prev_turns batch = Some previous_turns →
  item_title batch = Some title →
  ∃ mb st, outcome (prepare self batch gt_prefix)
           = Ok (mb, tile (beam_size self) (lengths batch), st).
Proof.
  intros Hp Ht. unfold prepare.
  rewrite (encode_with_context self batch previous_turns title Hp Ht).
  rewrite outcome_bind. cbn [outcome ret snd]. cbn beta iota.
  rewrite outcome_bind, forced_prefix_outcome. eauto.
Qed.

(** X11: on a batch of size 0 with its context present, the run builds no
    beam, performs no decoding step and returns empty lists. *)
Theorem empty_batch_returns_empty previous_turns title :
  size batch = 0 →
  prev_turns batch = Some previous_turns →
  item_title batch = Some title →
  outcome the_run
  = Ok {| predictions := []; scores := []; attention := [];
          gold_score := []; batch_entry := batch |}
  ∧ steps_performed (log the_run) = 0.
Proof.
  intros Hsize Hp Ht.
  destruct (prepare_with_context previous_turns title Hp Ht)
    as (mb & st & Hprep).
  assert (Hloop : ∀ range ml,
            outcome (stepping BC self batch mb ml range [] st) = Ok ([], st)
            ∧ List.filter is_decode
                (log (stepping BC self batch mb ml range [] st)) = []).
  { intros [|i range] ml; [done |].
    by rewrite stepping_outcome_cons, stepping_log_cons. }
  split.
  - unfold generate_batch, make_beams. rewrite Hsize. cbn [seq mapM].
    rewrite outcome_bind. cbn [outcome ret snd].
    rewrite outcome_bind, Hprep. cbn beta iota.
    rewrite outcome_bind, (proj1 (Hloop _ _)). cbn beta iota.
    reflexivity.
  - unfold steps_performed. rewrite run_log.
    unfold make_beams. rewrite Hsize. cbn [seq mapM outcome ret snd].
    rewrite Hprep. cbn beta iota. rewrite List.filter_app, (proj2 (Hloop _ _)).
    rewrite app_nil_r.
    pose proof (prepare_log_iteration self batch gt_prefix) as Hall.
    induction Hall as [|e l He _ IH]; [reflexivity |].
    cbn [List.filter]. destruct e; try discriminate. done.
Qed.

End Results.

(** ** The properties above on runs of the toy model *)

Section MoreRuns.

Local Abbreviation g := (Scenario.gen 3 1 4 1).
Local Abbreviation run := (Scenario.run (Scenario.gen 3 1 4 1)).

Lemma unbottle_item_layout_witness :
  ∃ rows,
    select_item [[[1; 2]; [3; 4]]; [[5; 6]; [7; 8]]; [[9; 10]; [11; 12]]] 1
    = Ok rows
    ∧ length rows = 3
    ∧ ∀ k, k < 3 →
        rows !! k = Some (take 2 (drop ((k * 2 + 1) * 2) (seq 1 12))).
Proof.
  apply (unbottle_item_layout g Scenario.two_items (seq 1 12)
           [[[1; 2]; [3; 4]]; [[5; 6]; [7; 8]]; [[9; 10]; [11; 12]]] 1).
  - vm_compute. reflexivity.
  - vm_compute. lia.
Defined.

Lemma bottle_unbottle_witness :
  concat (concat [[[1; 2]; [3; 4]]; [[5; 6]; [7; 8]]; [[9; 10]; [11; 12]]])
  = seq 1 12.
Proof.
  apply (proj2 (bottle_unbottle g Scenario.two_items (seq 1 12))).
  vm_compute. reflexivity.
Defined.

Lemma stack_t_view_layout_witness :
  ∃ k, [[1; 2; 3]; [4; 5; 6]] ≠ []
       ∧ Forall (λ r, length r = k) [[1; 2; 3]; [4; 5; 6]]
       ∧ length [1; 4; 2; 5; 3; 6] = k * 2
       ∧ ∀ c j r, c < k → [[1; 2; 3]; [4; 5; 6]] !! j = Some r →
           [1; 4; 2; 5; 3; 6] !! (c * 2 + j) = r !! c.
Proof.
  apply (stack_t_view_layout [[1; 2; 3]; [4; 5; 6]] [1; 4; 2; 5; 3; 6]).
  vm_compute. reflexivity.
Defined.

Lemma memory_lengths_layout_witness :
  length [2; 1; 2; 1; 2; 1] = 3 * 2
  ∧ ∀ k j, k < 3 → j < 2 →
      [2; 1; 2; 1; 2; 1] !! (k * 2 + j) = [2; 1] !! j.
Proof.
  apply (memory_lengths_layout g Scenario.two_items 1
           (MemList [tile 3 [0; 1]; tile 3 [7; 8]]) [2; 1; 2; 1; 2; 1]
           (repeat_beam_size_times 3 [[0; 1]])).
  vm_compute. reflexivity.
Defined.

Lemma short_context_aborts_batch_witness :
  get_bos Scenario.the_markers g Scenario.two_items 3 0 = Raise IndexError
  ∧ ∃ e, run Scenario.two_items 3 = ([], Raise e).
Proof.
  apply (short_context_aborts_batch Scenario.the_markers SpecBeam.spec_beam
           g Scenario.two_items 3 0 "<go>" ["hello"]).
  - vm_compute. lia.
  - reflexivity.
  - left. vm_compute. reflexivity.
Defined.

Lemma nonpositive_prefix_counts_from_end_witness :
  ∃ word,
    ["<go>"; "hello"] !! Z.to_nat (Z.of_nat 2 + 0 - 1) = Some word
    ∧ get_bos Scenario.the_markers g Scenario.two_items 0 0
      = match word_to_ind Scenario.the_vocab !! word with
        | Some i => Ok i
        | None => Raise (KeyError word)
        end.
Proof.
  apply (nonpositive_prefix_counts_from_end Scenario.the_markers
           g Scenario.two_items 0 0 "<go>" ["hello"]).
  - reflexivity.
  - vm_compute. split; [reflexivity | discriminate].
Defined.

Lemma result_has_batch_size_entries_witness :
  ∃ r, outcome (run Cases.twins 1) = Ok r
       ∧ length (predictions r) = 2
       ∧ length (scores r) = 2
       ∧ length (attention r) = 2
       ∧ length (gold_score r) = 2.
Proof.
  eexists. split; [vm_compute; reflexivity |].
  apply (result_has_batch_size_entries Scenario.the_markers
           SpecBeam.spec_beam g Cases.twins 1).
  vm_compute. reflexivity.
Defined.

Lemma hypotheses_paired_with_attention_witness :
  ∃ r preds atts,
    outcome (run Cases.twins 1) = Ok r
    ∧ predictions r !! 0 = Some preds
    ∧ attention r !! 0 = Some atts
    ∧ length atts = length preds.
Proof.
  eexists. eexists. eexists.
  split; [vm_compute; reflexivity |].
  split; [vm_compute; reflexivity |].
  split; [vm_compute; reflexivity |].
  destruct (hypotheses_paired_with_attention Scenario.the_markers
              SpecBeam.spec_beam g Cases.twins 1 _ 0 _ _
              ltac:(vm_compute; reflexivity) ltac:(vm_compute; reflexivity)
              ltac:(vm_compute; reflexivity))
    as (b & b' & scs & ks & _ & _ & _ & Hlen & _).
  exact Hlen.
Defined.

Lemma decoding_steps_consecutive_witness :
  length (List.filter is_advance (log (run Cases.twins 1)))
  = steps_performed (log (run Cases.twins 1)) * 2.
Proof.
  destruct (decoding_steps_consecutive Scenario.the_markers
              SpecBeam.spec_beam g Cases.twins 1) as (_ & _ & H).
  eapply H. vm_compute. reflexivity.
Defined.

Lemma empty_batch_returns_empty_witness :
  outcome (run Cases.no_items 1)
  = Ok {| predictions := []; scores := []; attention := [];
          gold_score := []; batch_entry := Cases.no_items |}
  ∧ steps_performed (log (run Cases.no_items 1)) = 0.
Proof.
  apply (empty_batch_returns_empty Scenario.the_markers SpecBeam.spec_beam
           g Cases.no_items 1 [] tt); reflexivity.
Defined.

End MoreRuns.

(** * Properties of the trainer *)

Section TrainerFacts.

Import Training.

Context {W Inputs Targets Lengths Outputs Attns DecState LossVal BStat
         Stats Time Ppl Loss Extra Data Net Gen Tensor OptimState
         NumBatches : Type}.

Variable C : @Collaborators W Inputs Targets Lengths Outputs Attns DecState
                            LossVal BStat Stats Time Ppl Loss Extra Data Net
                            Gen Tensor OptimState NumBatches.

Local Abbreviation Batch := (@Batch Inputs Targets Lengths).
Local Abbreviation Run := (@Run W Inputs Targets Lengths DecState).
Local Abbreviation call := (call Batch DecState).
Local Abbreviation ReportFunc := (@ReportFunc W Stats Time Extra NumBatches).
Local Abbreviation Iter := (@Iter Inputs Targets Lengths NumBatches).

Implicit Types (w : W) (self : @Trainer Net) (opt : @Opt Extra)
  (total_stats report_stats : Stats) (report_func : option ReportFunc).

Lemma run_bind {A B} (m : Run A) (k : A → Run B) w :
  calls (bind m k w)
  = calls (m w) ++ match returned (m w) with
                   | Returned a => calls (k a (world (m w)))
                   | Raised _ => []
                   end
  ∧ world (bind m k w)
    = match returned (m w) with
      | Returned a => world (k a (world (m w)))
      | Raised _ => world (m w)
      end
  ∧ returned (bind m k w)
    = match returned (m w) with
      | Returned a => returned (k a (world (m w)))
      | Raised e => Raised e
      end.
Proof.
  unfold bind, calls, world, returned.
  destruct (m w) as [[l w'] [a|e]]; cbn.
  - by destruct (k a w') as [[l' w''] r].
  - by rewrite app_nil_r.
Qed.

Lemma calls_bind {A B} (m : Run A) (k : A → Run B) w :
  calls (bind m k w)
  = calls (m w) ++ match returned (m w) with
                   | Returned a => calls (k a (world (m w)))
                   | Raised _ => []
                   end.
Proof. apply run_bind. Qed.

Lemma world_bind {A B} (m : Run A) (k : A → Run B) w :
  world (bind m k w)
  = match returned (m w) with
    | Returned a => world (k a (world (m w)))
    | Raised _ => world (m w)
    end.
Proof. apply run_bind. Qed.

Lemma returned_bind {A B} (m : Run A) (k : A → Run B) w :
  returned (bind m k w)
  = match returned (m w) with
    | Returned a => returned (k a (world (m w)))
    | Raised e => Raised e
    end.
Proof. apply run_bind. Qed.

(** One batch of [_gradient_accumulation]. *)
Lemma accumulate_each_single (batch : Batch) total_stats report_stats w :
  ∃ (detached : bool) total_stats' report_stats' w',
    accumulate_each C [batch] total_stats report_stats w
    = ([ZeroGrad; Forward batch (Some None); ComputeLoss TrainLoss batch;
        Backward; OptimStep] ++ (if detached then [Detach] else []),
       w', Returned (total_stats', report_stats')).
Proof.
  cbn [accumulate_each]. unfold bind, act, ask, ret.
  destruct (model_call C _ _ _ _ _) as [w1 [[outputs attns] dec_state]].
  destruct (compute_loss C _ _ _ _) as [w2 [loss batch_stats]].
  destruct dec_state as [d|].
  - by exists true; eexists _, _, _.
  - by exists false; eexists _, _, _.
Qed.

Lemma bind_assoc {A B D} (m : Run A) (f : A → Run B) (k : B → Run D) w :
  bind (bind m f) k w = bind m (λ a, bind (f a) k) w.
Proof.
  unfold bind. destruct (m w) as [[l w'] [a|e]]; [| reflexivity].
  destruct (f a w') as [[l1 w1] [b|e]]; [| reflexivity].
  destruct (k b w1) as [[l2 w2] r]. by rewrite app_assoc.
Qed.

Lemma bind_ext {A B} (m : Run A) (f g : A → Run B) w :
  (∀ a w', f a w' = g a w') → bind m f w = bind m g w.
Proof.
  intros H. unfold bind. destruct (m w) as [[l w'] [a|e]]; [| reflexivity].
  by rewrite H.
Qed.

Lemma bind_ret_l {A B} (a : A) (k : A → Run B) w : bind (ret a) k w = k a w.
Proof. unfold bind, ret. by destruct (k a w) as [[l w'] r]. Qed.

Lemma accumulate_each_app (g1 g2 : list Batch) total_stats report_stats w :
  accumulate_each C (g1 ++ g2) total_stats report_stats w
  = bind (accumulate_each C g1 total_stats report_stats)
         (λ '(total_stats, report_stats),
            accumulate_each C g2 total_stats report_stats) w.
Proof.
  revert total_stats report_stats w.
  induction g1 as [|batch g1 IH]; intros total_stats report_stats w.
  { cbn [app accumulate_each]. by rewrite bind_ret_l. }
  cbn [app accumulate_each].
  rewrite bind_assoc. apply bind_ext. intros [] w1.
  rewrite bind_assoc. apply bind_ext. intros [[outputs attns] dec_state] w2.
  rewrite bind_assoc. apply bind_ext. intros [loss batch_stats] w3.
  rewrite bind_assoc. apply bind_ext. intros [] w4.
  rewrite bind_assoc. apply bind_ext. intros [] w5.
  rewrite bind_assoc. apply bind_ext. intros [] w6.
  apply IH.
Qed.

Lemma accumulate_each_step (batch : Batch) rest total_stats report_stats w :
  ∃ (detached : bool) total_stats' report_stats' w',
    accumulate_each C (batch :: rest) total_stats report_stats w
    = let '(l, w'', r) :=
        accumulate_each C rest total_stats' report_stats' w' in
      ([ZeroGrad; Forward batch (Some None); ComputeLoss TrainLoss batch;
        Backward; OptimStep] ++ (if detached then [Detach] else []) ++ l,
       w'', r).
Proof.
  destruct (accumulate_each_single batch total_stats report_stats w)
    as (detached & t & r & w' & H).
  exists detached, t, r, w'.
  change (batch :: rest) with ([batch] ++ rest).
  rewrite accumulate_each_app. unfold bind. rewrite H.
  destruct (accumulate_each C rest t r w') as [[l w''] r'].
  by rewrite <- app_assoc.
Qed.

Lemma accumulate_each_returns (g : list Batch) total_stats report_stats w :
  ∃ total_stats' report_stats',
    returned (accumulate_each C g total_stats report_stats w)
    = Returned (total_stats', report_stats').
Proof.
  revert total_stats report_stats w.
  induction g as [|batch g IH]; intros total_stats report_stats w.
  { by eexists _, _. }
  destruct (accumulate_each_step batch g total_stats report_stats w)
    as (detached & t & r & w' & ->).
  destruct (IH t r w') as (t' & r' & H).
  destruct (accumulate_each C g t r w') as [[l w''] r'']. eauto.
Qed.

Lemma accumulate_each_Forall (P : call → Prop) (g : list Batch)
    total_stats report_stats w :
  P ZeroGrad → (∀ b, P (Forward b (Some None))) →
  (∀ b, P (ComputeLoss TrainLoss b)) → P Backward → P OptimStep → P Detach →
  Forall P (calls (accumulate_each C g total_stats report_stats w)).
Proof.
  intros Hz Hf Hl Hb Ho Hd. revert total_stats report_stats w.
  induction g as [|batch g IH]; intros total_stats report_stats w.
  { constructor. }
  destruct (accumulate_each_step batch g total_stats report_stats w)
    as (detached & t & r & w' & ->).
  specialize (IH t r w').
  destruct (accumulate_each C g t r w') as [[l w''] r''].
  unfold calls in *. cbn [fst] in *.
  repeat (apply Forall_cons; split; [done |]).
  destruct detached; [apply Forall_cons; split; [done |] |]; exact IH.
Qed.

Lemma accumulate_each_steps (g : list Batch) total_stats report_stats w :
  optimizer_steps (calls (accumulate_each C g total_stats report_stats w))
  = length g.
Proof.
  revert total_stats report_stats w.
  induction g as [|batch g IH]; intros total_stats report_stats w.
  { reflexivity. }
  destruct (accumulate_each_step batch g total_stats report_stats w)
    as (detached & t & r & w' & ->).
  specialize (IH t r w').
  destruct (accumulate_each C g t r w') as [[l w''] r''].
  unfold calls, optimizer_steps in *. cbn [fst] in *.
  destruct detached; cbn; by rewrite IH.
Qed.

Lemma gradient_accumulation_unfold self (g : list Batch)
    total_stats report_stats w :
  _gradient_accumulation C self g total_stats report_stats w
  = let w0 := if (1 <? grad_accum_count self)%Z
              then model_zero_grad C w else w in
    let '(l, w', r) := accumulate_each C g total_stats report_stats w0 in
    ((if (1 <? grad_accum_count self)%Z then [ZeroGrad] else []) ++ l, w', r).
Proof.
  unfold _gradient_accumulation, bind, act, ret.
  destruct (1 <? grad_accum_count self)%Z; cbn;
    by destruct (accumulate_each C g _ _ _) as [[l w'] r].
Qed.

Lemma gradient_accumulation_returns self (g : list Batch)
    total_stats report_stats w :
  ∃ total_stats' report_stats',
    returned (_gradient_accumulation C self g total_stats report_stats w)
    = Returned (total_stats', report_stats').
Proof.
  rewrite gradient_accumulation_unfold. cbv zeta.
  destruct (accumulate_each_returns g total_stats report_stats
              (if (1 <? grad_accum_count self)%Z
               then model_zero_grad C w else w)) as (t & r & H).
  destruct (accumulate_each C g _ _ _) as [[l w'] r']. eauto.
Qed.

Lemma gradient_accumulation_Forall (P : call → Prop) self (g : list Batch)
    total_stats report_stats w :
  P ZeroGrad → (∀ b, P (Forward b (Some None))) →
  (∀ b, P (ComputeLoss TrainLoss b)) → P Backward → P OptimStep → P Detach →
  Forall P
    (calls (_gradient_accumulation C self g total_stats report_stats w)).
Proof.
  intros Hz Hf Hl Hb Ho Hd.
  rewrite gradient_accumulation_unfold. cbv zeta.
  pose proof (accumulate_each_Forall P g total_stats report_stats
                (if (1 <? grad_accum_count self)%Z
                 then model_zero_grad C w else w) Hz Hf Hl Hb Ho Hd) as H.
  destruct (accumulate_each C g _ _ _) as [[l w'] r'].
  unfold calls in *. cbn [fst] in *.
  destruct (1 <? _)%Z; [by constructor | done].
Qed.

Lemma gradient_accumulation_steps self (g : list Batch)
    total_stats report_stats w :
  optimizer_steps
    (calls (_gradient_accumulation C self g total_stats report_stats w))
  = length g.
Proof.
  rewrite gradient_accumulation_unfold. cbv zeta.
  pose proof (accumulate_each_steps g total_stats report_stats
                (if (1 <? grad_accum_count self)%Z
                 then model_zero_grad C w else w)) as H.
  destruct (accumulate_each C g _ _ _) as [[l w'] r'].
  unfold calls, optimizer_steps in *. cbn [fst] in *.
  by destruct (1 <? _)%Z.
Qed.

Lemma reports_with_steps_silent (l1 l2 : list call) steps :
  Forall (λ c, ∀ e k, c ≠ Report e k) l1 →
  reports_with_steps steps (l1 ++ l2)
  = reports_with_steps (steps + optimizer_steps l1) l2.
Proof.
  unfold optimizer_steps. intros H. revert steps.
  induction H as [|c l1 Hc _ IH]; intros steps.
  { cbn. by rewrite Nat.add_0_r. }
  destruct c; cbn; rewrite ?IH; try (f_equal; lia).
  by destruct (Hc epoch batch_idx).
Qed.

Lemma optimizer_steps_app (l1 l2 : list call) :
  optimizer_steps (l1 ++ l2) = optimizer_steps l1 + optimizer_steps l2.
Proof. unfold optimizer_steps. by rewrite List.filter_app, length_app. Qed.

Lemma succ_div_mod (i c : nat) :
  0 < c →
  (i mod c + 1 = c → S i / c = S (i / c) ∧ S i mod c = 0)
  ∧ (i mod c + 1 ≠ c → S i / c = i / c ∧ S i mod c = S (i mod c)).
Proof.
  intros Hc.
  pose proof (Nat.div_mod i c ltac:(lia)) as Hi.
  pose proof (Nat.mod_upper_bound i c ltac:(lia)) as Hlt.
  split; intros H.
  - split.
    + symmetry. apply (Nat.div_unique _ _ _ 0); lia.
    + symmetry. apply (Nat.mod_unique _ _ (S (i / c))); lia.
  - split.
    + symmetry. apply (Nat.div_unique _ _ _ (S (i mod c))); lia.
    + symmetry. apply (Nat.mod_unique _ _ (i / c)); lia.
Qed.

Lemma calls_triple {A} (l : list call) w (r : try A) : calls (l, w, r) = l.
Proof. reflexivity. Qed.

Lemma world_triple {A} (l : list call) w (r : try A) : world (l, w, r) = w.
Proof. reflexivity. Qed.

Lemma returned_triple {A} (l : list call) w (r : try A) :
  returned (l, w, r) = r.
Proof. reflexivity. Qed.

Lemma bind_run {A B} (m : Run A) (k : A → Run B) w l w' a :
  m w = (l, w', Returned a) →
  bind m k w = let '(l', w'', r) := k a w' in (l ++ l', w'', r).
Proof. intros H. unfold bind. by rewrite H. Qed.

Lemma bind_act {B} (c : call) (f : W → W) (k : unit → Run B) w :
  bind (act c f) k w = let '(l, w', r) := k tt (f w) in (c :: l, w', r).
Proof. reflexivity. Qed.

(** The extra [zero_grad] at the start of a group is absorbed by the one
    that precedes the first forward pass. *)
Lemma gradient_accumulation_nonempty self (g : list Batch)
    total_stats report_stats w :
  (∀ w, model_zero_grad C (model_zero_grad C w) = model_zero_grad C w) →
  g ≠ [] →
  world (_gradient_accumulation C self g total_stats report_stats w)
  = world (accumulate_each C g total_stats report_stats w)
  ∧ returned (_gradient_accumulation C self g total_stats report_stats w)
    = returned (accumulate_each C g total_stats report_stats w).
Proof.
  intros Hidem Hg. rewrite gradient_accumulation_unfold. cbv zeta.
  assert (Hsame : accumulate_each C g total_stats report_stats
                    (model_zero_grad C w)
                  = accumulate_each C g total_stats report_stats w).
  { destruct g as [|batch rest]; [done |]. cbn [accumulate_each].
    rewrite 2!bind_act. by rewrite Hidem. }
  destruct (1 <? _)%Z; cbv iota; [rewrite Hsame |]; clear Hsame;
    by destruct (accumulate_each C g total_stats report_stats w)
         as [[l w'] r].
Qed.

Section Loop.

Variable self : @Trainer Net.
Variable opt : @Opt Extra.
Variable epoch : nat.
Variable num_batches : NumBatches.

Local Abbreviation finish :=
  (λ '(true_batchs, total_stats, report_stats),
     if 0 <? length (true_batchs : list Batch)
     then _gradient_accumulation C self true_batchs total_stats report_stats
     else ret (total_stats, report_stats)).

Local Abbreviation report_calls report_func batch_idx :=
  (match report_func : option ReportFunc with
   | Some _ => [Report epoch batch_idx : call]
   | None => []
   end).

Lemma report_step report_func batch_idx total_stats report_stats w :
  ∃ report_stats' w',
    (report_func = None → report_stats' = report_stats ∧ w' = w)
    ∧ ∀ A (k : Stats → Run A),
        bind (match report_func with
              | Some f =>
                  ask (Report epoch batch_idx)
                      (f opt epoch batch_idx num_batches
                         (stats_start_time C total_stats) report_stats)
              | None => ret report_stats
              end) k w
        = let '(l, w'', r) := k report_stats' w' in
          (report_calls report_func batch_idx ++ l, w'', r).
Proof.
  destruct report_func as [f|].
  - destruct (f opt epoch batch_idx num_batches
                (stats_start_time C total_stats) report_stats w)
      as [w' report_stats'] eqn:Hf.
    exists report_stats', w'. split; [done |]. intros A k.
    unfold bind, ask. rewrite Hf. by destruct (k report_stats' w') as [[l w''] r].
  - exists report_stats, w. split; [done |]. intros A k.
    rewrite bind_ret_l. by destruct (k report_stats w) as [[l w''] r].
Qed.

Lemma epoch_loop_keep report_func batch rest batch_idx true_batchs accum
    total_stats report_stats w :
  (accum + 1 =? grad_accum_count self)%Z = false →
  ∃ report_stats' w',
    (report_func = None → report_stats' = report_stats ∧ w' = w)
    ∧ ∀ A (k : _ → Run A),
        bind (epoch_loop C self opt epoch report_func num_batches
                (batch :: rest) batch_idx true_batchs accum total_stats
                report_stats) k w
        = let '(l, w'', r) :=
            bind (epoch_loop C self opt epoch report_func num_batches rest
                    (S batch_idx) (true_batchs ++ [batch]) (accum + 1)%Z
                    total_stats report_stats') k w' in
          (report_calls report_func batch_idx ++ l, w'', r).
Proof.
  intros Hc.
  destruct (report_step report_func batch_idx total_stats report_stats w)
    as (report_stats' & w' & Hnone & Hrep).
  exists report_stats', w'. split; [done |]. intros A k.
  cbn [epoch_loop]. rewrite Hc.
  rewrite bind_assoc, bind_ret_l. cbv beta iota.
  rewrite bind_assoc. apply Hrep.
Qed.

Lemma epoch_loop_flush report_func batch rest batch_idx true_batchs accum
    total_stats report_stats w :
  (accum + 1 =? grad_accum_count self)%Z = true →
  ∃ total_stats' report_stats1 report_stats' w',
    returned (_gradient_accumulation C self (true_batchs ++ [batch])
                total_stats report_stats w)
    = Returned (total_stats', report_stats1)
    ∧ (report_func = None →
       report_stats' = report_stats1
       ∧ w' = world (_gradient_accumulation C self (true_batchs ++ [batch])
                       total_stats report_stats w))
    ∧ ∀ A (k : _ → Run A),
        bind (epoch_loop C self opt epoch report_func num_batches
                (batch :: rest) batch_idx true_batchs accum total_stats
                report_stats) k w
        = let '(l, w'', r) :=
            bind (epoch_loop C self opt epoch report_func num_batches rest
                    (S batch_idx) [] 0%Z total_stats' report_stats') k w' in
          (calls (_gradient_accumulation C self (true_batchs ++ [batch])
                    total_stats report_stats w)
           ++ report_calls report_func batch_idx ++ l, w'', r).
Proof.
  intros Hc.
  destruct (gradient_accumulation_returns self (true_batchs ++ [batch])
              total_stats report_stats w) as (t1 & r1 & Hret).
  destruct (_gradient_accumulation C self (true_batchs ++ [batch])
              total_stats report_stats w) as [[l1 w1] res] eqn:HGA.
  unfold returned in Hret. cbn [snd] in Hret. subst res.
  destruct (report_step report_func batch_idx t1 r1 w1)
    as (report_stats' & w' & Hnone & Hrep).
  exists t1, r1, report_stats', w'. split; [done |]. split; [done |].
  intros A k. cbn [epoch_loop]. rewrite Hc.
  rewrite !bind_assoc. erewrite bind_run by exact HGA. cbv beta iota.
  rewrite bind_ret_l. cbv beta iota. rewrite bind_assoc, Hrep.
  destruct (bind _ k w') as [[l w''] r].
  unfold calls. cbn [fst]. reflexivity.
Qed.

Local Abbreviation count := (Z.to_nat (grad_accum_count self)).

(** The calls of the loop and of the leftover group, when [batch_idx]
    batches have been read and the last [batch_idx mod count] of them are
    pending. *)
Lemma epoch_loop_calls report_func (batches : list Batch) batch_idx
    true_batchs accum total_stats report_stats w :
  (0 < grad_accum_count self)%Z →
  accum = Z.of_nat (batch_idx mod count) →
  length true_batchs = batch_idx mod count →
  let r := bind (epoch_loop C self opt epoch report_func num_batches batches
                   batch_idx true_batchs accum total_stats report_stats)
                finish w in
  reports_with_steps (count * (batch_idx / count)) (calls r)
  = match report_func with
    | Some _ => (λ k, (k, count * (S k / count)))
                <$> seq batch_idx (length batches)
    | None => []
    end
  ∧ optimizer_steps (calls r) = length true_batchs + length batches
  ∧ Forall (λ c, training_call c = true) (calls r)
  ∧ ∃ total_stats' report_stats',
      returned r = Returned (total_stats', report_stats').
Proof.
  intros Hpos. cbv zeta.
  assert (Hsilent : ∀ g t r w0,
            Forall (λ c : call, ∀ e k, c ≠ Report e k)
              (calls (_gradient_accumulation C self g t r w0))).
  { intros. by apply gradient_accumulation_Forall. }
  assert (Htrain : ∀ g t r w0,
            Forall (λ c : call, training_call c = true)
              (calls (_gradient_accumulation C self g t r w0))).
  { intros. by apply gradient_accumulation_Forall. }
  revert batch_idx true_batchs accum total_stats report_stats w.
  induction batches as [|batch rest IH];
    intros batch_idx true_batchs accum total_stats report_stats w Ha Hlen.
  { cbn [epoch_loop]. rewrite bind_ret_l. cbv beta iota.
    cbn [length seq fmap list_fmap]. rewrite Nat.add_0_r.
    destruct (Nat.ltb_spec 0 (length true_batchs)) as [Hnz | Hz].
    - split.
      { rewrite <- (app_nil_r (calls _)).
        rewrite reports_with_steps_silent by apply Hsilent.
        by destruct report_func. }
      split; [apply gradient_accumulation_steps |].
      split; [apply Htrain | apply gradient_accumulation_returns].
    - split; [by destruct report_func |].
      split; [cbn; lia |]. split; [constructor | by eexists _, _]. }
  assert (Hcount : 0 < count) by lia.
  destruct (succ_div_mod batch_idx count Hcount) as [Hflush Hkeep].
  destruct (Z.eqb_spec (accum + 1) (grad_accum_count self)) as [Hc | Hc].
  - destruct (Hflush ltac:(lia)) as [Hdiv Hmod].
    destruct (epoch_loop_flush report_func batch rest batch_idx true_batchs
                accum total_stats report_stats w)
      as (t' & r1 & r' & w' & _ & _ & Hstep);
      [by apply Z.eqb_eq |].
    rewrite Hstep.
    specialize (IH (S batch_idx) [] 0%Z t' r' w').
    destruct IH as (Hrep & Hsteps & Hall & t'' & r'' & Hret);
      [by rewrite Hmod | by rewrite Hmod |].
    destruct (bind _ _ w') as [[l w''] res].
    rewrite calls_triple, returned_triple in *.
    split.
    { rewrite reports_with_steps_silent by apply Hsilent.
      rewrite gradient_accumulation_steps, length_app.
      cbn [length]. rewrite Hlen.
      replace (count * (batch_idx / count) + (batch_idx mod count + 1))
        with (count * (S batch_idx / count)) by (rewrite Hdiv; lia).
      destruct report_func; cbn [app reports_with_steps length seq fmap
                                 list_fmap]; by rewrite Hrep. }
    split.
    { rewrite !optimizer_steps_app, gradient_accumulation_steps, Hsteps,
        length_app.
      destruct report_func; cbn; lia. }
    split; [| eauto].
    apply Forall_app. split; [apply Htrain |].
    apply Forall_app. split; [| done].
    destruct report_func; by repeat constructor.
  - destruct (Hkeep ltac:(lia)) as [Hdiv Hmod].
    destruct (epoch_loop_keep report_func batch rest batch_idx true_batchs
                accum total_stats report_stats w)
      as (r' & w' & _ & Hstep);
      [by apply Z.eqb_neq |].
    rewrite Hstep.
    specialize (IH (S batch_idx) (true_batchs ++ [batch]) (accum + 1)%Z
                   total_stats r' w').
    destruct IH as (Hrep & Hsteps & Hall & t'' & r'' & Hret);
      [rewrite Hmod; lia | rewrite length_app, Hmod; cbn; lia |].
    destruct (bind _ _ w') as [[l w''] res].
    rewrite calls_triple, returned_triple in *.
    rewrite Hdiv in Hrep.
    split.
    { destruct report_func; cbn [app reports_with_steps length seq fmap
                                 list_fmap]; rewrite Hrep; [| done].
      by rewrite Hdiv. }
    split.
    { rewrite optimizer_steps_app, Hsteps, length_app.
      destruct report_func; cbn; lia. }
    split; [| eauto].
    apply Forall_app. split; [| done].
    destruct report_func; by repeat constructor.
Qed.

(** Without a report function and with an idempotent [zero_grad], the loop
    and the leftover group leave the world and the statistics that one pass
    over the pending and the remaining batches leaves. *)
Lemma epoch_loop_no_report (batches : list Batch) batch_idx true_batchs
    accum total_stats report_stats w :
  (∀ w, model_zero_grad C (model_zero_grad C w) = model_zero_grad C w) →
  let r := bind (epoch_loop C self opt epoch None num_batches batches
                   batch_idx true_batchs accum total_stats report_stats)
                finish w in
  let r' := accumulate_each C (true_batchs ++ batches) total_stats
                            report_stats w in
  world r = world r' ∧ returned r = returned r'.
Proof.
  intros Hidem. cbv zeta.
  revert batch_idx true_batchs accum total_stats report_stats w.
  induction batches as [|batch rest IH];
    intros batch_idx true_batchs accum total_stats report_stats w.
  { cbn [epoch_loop]. rewrite bind_ret_l, app_nil_r. cbv beta iota.
    destruct true_batchs as [|b tb]; [done |].
    by apply gradient_accumulation_nonempty. }
  replace (true_batchs ++ batch :: rest)
    with ((true_batchs ++ [batch]) ++ rest) by (by rewrite <- app_assoc).
  destruct ((accum + 1 =? grad_accum_count self)%Z) eqn:Hc.
  - destruct (epoch_loop_flush None batch rest batch_idx true_batchs
                accum total_stats report_stats w Hc)
      as (t' & r1 & r' & w' & Hret & Hnone & Hstep).
    destruct (Hnone eq_refl) as [-> ->]. rewrite Hstep.
    specialize (IH (S batch_idx) [] 0%Z t' r1
                   (world (_gradient_accumulation C self
                             (true_batchs ++ [batch]) total_stats
                             report_stats w))).
    destruct (gradient_accumulation_nonempty self (true_batchs ++ [batch])
                total_stats report_stats w Hidem) as [Hw Hr];
      [by destruct true_batchs |].
    rewrite accumulate_each_app, world_bind, returned_bind.
    rewrite <- Hr, Hret, <- Hw. cbn [app] in IH.
    destruct (bind _ _ _) as [[l w''] res].
    unfold world, returned in *. cbn [fst snd] in *. exact IH.
  - destruct (epoch_loop_keep None batch rest batch_idx true_batchs
                accum total_stats report_stats w Hc)
      as (r' & w' & Hnone & Hstep).
    destruct (Hnone eq_refl) as [-> ->]. rewrite Hstep.
    specialize (IH (S batch_idx) (true_batchs ++ [batch]) (accum + 1)%Z
                   total_stats report_stats w).
    destruct (bind _ _ _) as [[l w''] res].
    unfold world, returned in *. cbn [fst snd] in *. exact IH.
Qed.

End Loop.

Local Abbreviation leftover self :=
  (λ '(true_batchs, total_stats, report_stats),
     if 0 <? length (true_batchs : list Batch)
     then _gradient_accumulation C self true_batchs total_stats report_stats
     else ret (total_stats, report_stats)).

Lemma bind_ask {A B} (c : call) (f : W → W * A) (k : A → Run B) w :
  bind (ask c f) k w
  = let '(l, w', r) := k (f w).2 (f w).1 in (c :: l, w', r).
Proof. unfold bind, ask. by destruct (f w) as [w' a]. Qed.

(** [train_epoch] on an iterator that is not exhausted: the three calls
    before the loop, then the loop and the leftover group. *)
Lemma train_epoch_unfold self num_batches (batches : list Batch) opt epoch
    report_func w :
  ∃ self',
    grad_accum_count self' = grad_accum_count self
    ∧ cuda self' = use_gpu C opt
    ∧ train_epoch C self (Some (num_batches, batches)) opt epoch
                  report_func w
      = let s1 := Statistics C (model_train C w) in
        let s2 := Statistics C s1.1 in
        let '(l, w', r) :=
          bind (epoch_loop C self' opt epoch report_func num_batches batches
                           0 [] 0%Z s1.2 s2.2) (leftover self') s2.1 in
        ([ModelTrain; NewStatistics; NewStatistics] ++ l, w',
         match r with
         | Returned (total_stats, _) => Returned (self', total_stats)
         | Raised e => Raised e
         end).
Proof.
  exists {| model := model self; pad_id := pad_id self;
            shard_size := shard_size self; data_type := data_type self;
            norm_method := norm_method self;
            grad_accum_count := grad_accum_count self;
            cuda := use_gpu C opt |}.
  split; [reflexivity |]. split; [reflexivity |].
  unfold train_epoch. rewrite bind_act, !bind_ask. cbn [next].
  rewrite bind_ret_l. cbv beta iota zeta.
  set (self' := Build_Trainer _ _ _ _ _ _ _).
  set (T := (Statistics C (model_train C w)).2).
  set (w1 := (Statistics C (model_train C w)).1).
  set (R := (Statistics C w1).2). set (w2 := (Statistics C w1).1).
  match goal with
  | |- context [bind ?m ?f w2] =>
      assert (Heq : bind m f w2
                    = bind (bind m (leftover self'))
                           (λ '(total_stats, _), ret (self', total_stats)) w2)
  end.
  { rewrite bind_assoc. apply bind_ext. by intros [[tb t] r] w'. }
  rewrite Heq. unfold bind at 1.
  destruct (bind _ (leftover self') w2) as [[l w'] [[t r]|e]]; cbn;
    by rewrite ?app_nil_r.
Qed.

Lemma train_epoch_exhausted self opt epoch report_func w :
  calls (train_epoch C self None opt epoch report_func w)
  = [ModelTrain; NewStatistics; NewStatistics]
  ∧ returned (train_epoch C self None opt epoch report_func w)
    = Raised StopIteration.
Proof.
  unfold train_epoch. rewrite bind_act, !bind_ask. by cbn.
Qed.

(** X12: with [grad_accum_count = c > 0] the report function is called once
    per batch, with [batch_idx = 0, 1, ...] in this order, and the call for
    batch [k] comes when [c * ((k + 1) / c)] optimizer steps have been
    made: the batches of a group that is not yet full have not been
    trained on.  At the end of the epoch the optimizer has stepped once
    per batch. *)
Theorem reports_follow_whole_groups self num_batches (batches : list Batch)
    opt epoch report_func w :
  (0 < grad_accum_count self)%Z →
  let r := train_epoch C self (Some (num_batches, batches)) opt epoch
                       report_func w in
  let c := Z.to_nat (grad_accum_count self) in
  reports_with_steps 0 (calls r)
  = match report_func with
    | Some _ => (λ k, (k, c * (S k / c))) <$> seq 0 (length batches)
    | None => []
    end
  ∧ optimizer_steps (calls r) = length batches.
Proof.
  intros Hpos. cbv zeta.
  destruct (train_epoch_unfold self num_batches batches opt epoch
              report_func w) as (self' & Hc & _ & ->).
  cbv zeta.
  assert (Hcount : 0 < Z.to_nat (grad_accum_count self)) by lia.
  destruct (epoch_loop_calls self' opt epoch num_batches report_func batches
              0 [] 0%Z (Statistics C (model_train C w)).2
              (Statistics C (Statistics C (model_train C w)).1).2
              (Statistics C (Statistics C (model_train C w)).1).1)
    as (Hrep & Hsteps & _); [lia | | |].
  { by rewrite Nat.mod_small by lia. }
  { by rewrite Nat.mod_small by lia. }
  rewrite Hc, Nat.div_small, Nat.mul_0_r in Hrep by lia.
  destruct (bind _ _ _) as [[l w'] res].
  rewrite calls_triple in *. split; [exact Hrep | exact Hsteps].
Qed.

(** X13: [train_epoch] only puts the model in training mode, creates
    statistics, and runs zero_grad / forward with [dec_state = None] /
    training loss / backward / optimizer step / detach and the report
    function: it never evaluates, saves or changes the learning rate, and
    never hands a decoder state to the model.  On an iterator that yields
    something it returns, with [self.cuda] set from the options; on an
    exhausted one it raises [StopIteration] after the statistics are
    created. *)
Theorem train_epoch_calls self train_iter opt epoch report_func w :
  (0 < grad_accum_count self)%Z →
  let r := train_epoch C self train_iter opt epoch report_func w in
  Forall (λ c, training_call c = true) (calls r)
  ∧ match train_iter with
    | Some _ =>
        ∃ self' total_stats,
          returned r = Returned (self', total_stats)
          ∧ grad_accum_count self' = grad_accum_count self
          ∧ cuda self' = use_gpu C opt
    | None =>
        returned r = Raised StopIteration
        ∧ calls r = [ModelTrain; NewStatistics; NewStatistics]
    end.
Proof.
  intros Hpos. cbv zeta. destruct train_iter as [[num_batches batches]|].
  - destruct (train_epoch_unfold self num_batches batches opt epoch
                report_func w) as (self' & Hc & Hcuda & ->).
    cbv zeta.
    assert (Hcount : 0 < Z.to_nat (grad_accum_count self')) by lia.
    destruct (epoch_loop_calls self' opt epoch num_batches report_func
                batches 0 [] 0%Z (Statistics C (model_train C w)).2
                (Statistics C (Statistics C (model_train C w)).1).2
                (Statistics C (Statistics C (model_train C w)).1).1)
      as (_ & _ & Hall & t & r & Hret); [lia | | |].
    { by rewrite Nat.mod_small by lia. }
    { by rewrite Nat.mod_small by lia. }
    destruct (bind _ _ _) as [[l w'] res].
    rewrite returned_triple in Hret. subst res.
    rewrite calls_triple in Hall. rewrite calls_triple, returned_triple.
    split.
    + by repeat constructor.
    + by exists self', t.
  - destruct (train_epoch_exhausted self opt epoch report_func w)
      as [Hcalls Hret].
    rewrite Hcalls, Hret. split; [by repeat constructor | done].
Qed.

(** X14: [grad_accum_count] does not change what an epoch computes.  When
    [zero_grad] is idempotent and there is no report function, the world
    [train_epoch] leaves and the statistics it returns are the same for
    every value of [grad_accum_count]: gradients are zeroed before every
    forward pass and the optimizer steps after every batch, so nothing is
    accumulated. *)
Theorem grad_accum_count_is_immaterial self count train_iter opt epoch w :
  (∀ w, model_zero_grad C (model_zero_grad C w) = model_zero_grad C w) →
  let r := train_epoch C self train_iter opt epoch None w in
  let r' := train_epoch C (with_grad_accum_count self count) train_iter opt
                        epoch None w in
  world r = world r'
  ∧ total_stats_of (returned r) = total_stats_of (returned r').
Proof.
  intros Hidem. cbv zeta. destruct train_iter as [[num_batches batches]|].
  2:{ unfold train_epoch. rewrite !bind_act, !bind_ask. by cbn. }
  destruct (train_epoch_unfold self num_batches batches opt epoch None w)
    as (self1 & _ & _ & ->).
  destruct (train_epoch_unfold (with_grad_accum_count self count)
              num_batches batches opt epoch None w) as (self2 & _ & _ & ->).
  cbv zeta.
  destruct (epoch_loop_no_report self1 opt epoch num_batches batches 0 []
              0%Z (Statistics C (model_train C w)).2
              (Statistics C (Statistics C (model_train C w)).1).2
              (Statistics C (Statistics C (model_train C w)).1).1 Hidem)
    as [Hw1 Hr1].
  destruct (epoch_loop_no_report self2 opt epoch num_batches batches 0 []
              0%Z (Statistics C (model_train C w)).2
              (Statistics C (Statistics C (model_train C w)).1).2
              (Statistics C (Statistics C (model_train C w)).1).1 Hidem)
    as [Hw2 Hr2].
  cbv zeta in *. rewrite <- Hw2 in Hw1. rewrite <- Hr2 in Hr1.
  destruct (bind _ (leftover self1) _) as [[l1 w1] res1].
  destruct (bind _ (leftover self2) _) as [[l2 w2] res2].
  rewrite world_triple in Hw1. rewrite returned_triple in Hr1.
  rewrite (world_triple l2), (returned_triple l2) in *. subst w2 res2.
  rewrite !world_triple, !returned_triple.
  split; [done |]. by destruct res1 as [[t r]|e].
Qed.

Lemma validate_each_step (batch : Batch) rest (stats : Stats) w :
  ∃ stats' w',
    validate_each C (batch :: rest) stats w
    = let '(l, w'', r) := validate_each C rest stats' w' in
      (Forward batch None :: ComputeLoss ValidLoss batch :: l, w'', r).
Proof.
  cbn [validate_each]. unfold bind, ask.
  destruct (model_call C _ _ _ _ _) as [w1 [[outputs attns] dec_state]].
  destruct (compute_loss C _ _ _ _) as [w2 [loss batch_stats]].
  exists (stats_update C stats batch_stats), w2.
  by destruct (validate_each C rest _ w2) as [[l w3] r].
Qed.

Lemma validate_each_calls (batches : list Batch) (stats : Stats) w :
  Forall (λ c, validation_call c = true)
         (calls (validate_each C batches stats w))
  ∧ ∃ stats', returned (validate_each C batches stats w) = Returned stats'.
Proof.
  revert stats w. induction batches as [|batch rest IH]; intros stats w.
  { split; [constructor | by eexists]. }
  destruct (validate_each_step batch rest stats w) as (stats' & w' & ->).
  destruct (IH stats' w') as [Hall [stats'' Hret]].
  destruct (validate_each C rest stats' w') as [[l w''] r].
  rewrite calls_triple in Hall. rewrite returned_triple in Hret.
  rewrite calls_triple, returned_triple.
  split; [by repeat constructor | by eexists].
Qed.

(** X15: [validate] only switches modes, creates statistics, runs the model
    with three arguments and computes the validation loss: no gradient is
    zeroed or propagated, the optimizer does not step.  On an iterator that
    yields something it returns and its last call puts the model back in
    training mode; on an exhausted one it raises [StopIteration] and the
    model stays in evaluation mode. *)
Theorem validate_calls self (valid_iter : Iter) w :
  let r := validate C self valid_iter w in
  Forall (λ c, validation_call c = true ∧ changes_parameters c = false)
         (calls r)
  ∧ match valid_iter with
    | Some _ =>
        (∃ stats, returned r = Returned stats)
        ∧ last (calls r) = Some ModelTrain
    | None =>
        returned r = Raised StopIteration
        ∧ calls r = [ModelEval; NewStatistics]
    end.
Proof.
  cbv zeta. unfold validate. rewrite bind_act, bind_ask.
  destruct valid_iter as [[num_val_batches batches]|]; cbn [next].
  - rewrite bind_ret_l. cbv beta iota.
    destruct (validate_each_calls batches (Statistics C (model_eval C w)).2
                (Statistics C (model_eval C w)).1) as [Hall [stats Hret]].
    destruct (validate_each C batches _ _) as [[l w'] r] eqn:Hv.
    rewrite calls_triple in Hall. rewrite returned_triple in Hret. subst r.
    erewrite bind_run by exact Hv. cbn. split; [| split].
    + repeat (apply Forall_cons; split; [done |]).
      apply Forall_app. split; [| by repeat constructor].
      eapply Forall_impl; [exact Hall |]. intros c Hc. split; [done |].
      by destruct c.
    + by eexists.
    + by rewrite !last_cons, last_snoc.
  - cbn. split; [by repeat constructor | done].
Qed.

Lemma quiet_calls (l : list call) :
  Forall (λ c, training_call c = true ∨ validation_call c = true
               ∨ ∃ name gpu, c = DataGenerator name gpu) l →
  saved_epochs l = [] ∧ learning_rate_updates l = [].
Proof.
  unfold saved_epochs, learning_rate_updates.
  induction 1 as [|c l Hc _ [IH1 IH2]]; [done |].
  destruct c; cbn; try done;
    by destruct Hc as [? | [? | (? & ? & ?)]].
Qed.

Lemma init_returned (net : wrapped Net) pad_id' shard_size'
    data_type' norm_method' count w0 self :
  returned (__init__ C net pad_id' shard_size' data_type' norm_method'
                     count w0) = Returned self →
  (0 < grad_accum_count self)%Z ∧ cuda self = false.
Proof.
  unfold __init__. destruct (Z.ltb_spec 0 count).
  - rewrite bind_act. cbn. intros [= <-]. by cbn.
  - by cbn.
Qed.

Lemma bind_drop_checkpoint {B} self opt epoch (valid_stats : Stats)
    (k : unit → Run B) w :
  bind (drop_checkpoint C self opt epoch valid_stats) k w
  = let path := checkpoint_path C opt epoch valid_stats in
    let '(l, w', r) :=
      k tt (torch_save C (checkpoint C self opt epoch w) path w) in
    (TorchSave epoch path :: l, w', r).
Proof. reflexivity. Qed.

Section Learn.

Variable opt : @Opt Extra.
Variable data : Data.
Variable report_func : option ReportFunc.

Hypothesis generator_yields :
  ∀ name gpu w, (data_generator C data name gpu w).2 ≠ None.

Local Abbreviation due epoch :=
  ((start_checkpoint_at opt <=? Z.of_nat epoch)%Z).

Lemma learn_epochs_step self epoch rest w :
  (0 < grad_accum_count self)%Z →
  ∃ self' w' (quiet : list call) path,
    (0 < grad_accum_count self')%Z
    ∧ saved_epochs quiet = []
    ∧ learning_rate_updates quiet = []
    ∧ learn_epochs C self opt data report_func (epoch :: rest) w
      = let '(l, w'', r) :=
          learn_epochs C self' opt data report_func rest w' in
        (quiet ++ [UpdateLearningRate epoch]
         ++ (if due epoch then [TorchSave epoch path] else []) ++ l,
         w'', r).
Proof using generator_yields.
  intros Hpos. cbn [learn_epochs]. rewrite bind_ask.
  set (g1 := data_generator C data "train" (use_gpu C opt) w).
  pose proof (generator_yields "train" (use_gpu C opt) w) as Hit1.
  fold g1 in Hit1.
  destruct (train_epoch_calls self g1.2 opt epoch report_func g1.1 Hpos)
    as [Hall1 Hret1].
  destruct g1.2 as [it1|] eqn:E1; [| done].
  destruct Hret1 as (self' & train_stats & Hret1 & Hc' & _).
  destruct (train_epoch C self (Some it1) opt epoch report_func g1.1)
    as [[l1 w1] res1] eqn:Htrain.
  rewrite returned_triple in Hret1. subst res1.
  rewrite calls_triple in Hall1.
  erewrite bind_run by exact Htrain. cbv beta iota.
  rewrite bind_ask.
  set (g2 := data_generator C data "dev" (use_gpu C opt) w1).
  pose proof (generator_yields "dev" (use_gpu C opt) w1) as Hit2.
  fold g2 in Hit2.
  destruct (validate_calls self' g2.2 g2.1) as [Hall2 Hret2].
  destruct g2.2 as [it2|] eqn:E2; [| done].
  destruct Hret2 as [[valid_stats Hret2] _].
  destruct (validate C self' (Some it2) g2.1) as [[l2 w2] res2] eqn:Hvalid.
  rewrite returned_triple in Hret2. subst res2.
  rewrite calls_triple in Hall2.
  erewrite bind_run by exact Hvalid.
  unfold epoch_step. rewrite bind_act.
  set (w3 := optim_update_learning_rate C _ _ w2).
  exists self'.
  destruct (quiet_calls
              (DataGenerator "train" (use_gpu C opt) :: l1
               ++ DataGenerator "dev" (use_gpu C opt) :: l2))
    as [Hq1 Hq2].
  { constructor; [right; right; by eexists _, _ |]. apply Forall_app. split.
    - eapply Forall_impl; [exact Hall1 |]. by left.
    - constructor; [right; right; by eexists _, _ |].
      eapply Forall_impl; [exact Hall2 |]. intros c [Hc _]. by right; left. }
  exists (if due epoch
          then torch_save C (checkpoint C self' opt epoch w3)
                          (checkpoint_path C opt epoch valid_stats) w3
          else w3),
         (DataGenerator "train" (use_gpu C opt) :: l1
          ++ DataGenerator "dev" (use_gpu C opt) :: l2),
         (checkpoint_path C opt epoch valid_stats).
  split; [lia |]. split; [done |]. split; [done |].
  destruct (due epoch); cbv iota.
  - rewrite bind_drop_checkpoint. cbv zeta.
    destruct (learn_epochs C self' opt data report_func rest _)
      as [[l w''] r].
    cbn. by rewrite <- app_assoc.
  - rewrite bind_ret_l.
    destruct (learn_epochs C self' opt data report_func rest _)
      as [[l w''] r].
    cbn. by rewrite <- app_assoc.
Qed.

Lemma learn_epochs_calls self range w :
  (0 < grad_accum_count self)%Z →
  let r := learn_epochs C self opt data report_func range w in
  (∃ self', returned r = Returned self')
  ∧ learning_rate_updates (calls r) = range
  ∧ saved_epochs (calls r) = List.filter (λ epoch, due epoch) range.
Proof using generator_yields.
  cbv zeta. revert self w. induction range as [|epoch rest IH];
    intros self w Hpos.
  { split; [by eexists | done]. }
  destruct (learn_epochs_step self epoch rest w Hpos)
    as (self' & w' & quiet & path & Hpos' & Hq1 & Hq2 & ->).
  destruct (IH self' w' Hpos') as ([self'' Hret] & Hlr & Hsaved).
  destruct (learn_epochs C self' opt data report_func rest w')
    as [[l w''] r].
  rewrite calls_triple in Hlr, Hsaved. rewrite returned_triple in Hret.
  rewrite calls_triple, returned_triple.
  split; [by eexists |].
  unfold learning_rate_updates, saved_epochs in *.
  rewrite !omap_app, Hq1, Hq2, Hlr, Hsaved. cbn [List.filter].
  by destruct (due epoch).
Qed.

(** X16: for a trainer that [__init__] returned and a data generator whose
    iterators always yield something, [learn] returns; it updates the
    learning rate once per epoch, for the epochs [0 .. epochs-1] in this
    order, and saves a checkpoint exactly for the epochs [e] with
    [start_checkpoint_at <= e], in increasing order: none at all when
    [start_checkpoint_at >= epochs]. *)
Theorem learn_checkpoints (net : wrapped Net) pad_id' shard_size'
    data_type' norm_method' count w0 self w :
  returned (__init__ C net pad_id' shard_size' data_type' norm_method'
                     count w0) = Returned self →
  let r := learn C self opt data report_func w in
  (∃ self', returned r = Returned self')
  ∧ learning_rate_updates (calls r) = seq 0 (Z.to_nat (epochs opt))
  ∧ saved_epochs (calls r)
    = List.filter (λ epoch, (start_checkpoint_at opt <=? Z.of_nat epoch)%Z)
                  (seq 0 (Z.to_nat (epochs opt))).
Proof using generator_yields.
  intros [Hpos _]%init_returned. by apply learn_epochs_calls.
Qed.

End Learn.

(** *** What a checkpoint holds *)

Lemma prefix_spec (sub s : string) :
  String.prefix sub s = true ↔ ∃ q, s = sub +:+ q.
Proof.
  revert s. induction sub as [|a sub IH]; intros s.
  { split; [by exists s | by destruct s]. }
  destruct s as [|b s]; cbn; [split; [done | by intros [q ?]] |].
  destruct (Ascii.ascii_dec a b) as [-> | Hne].
  - rewrite IH. split; intros [q Hq]; exists q; [by rewrite Hq |].
    by injection Hq.
  - split; [done |]. intros [q Hq]. by injection Hq as -> _.
Qed.

Lemma contains_spec (sub s : string) :
  contains sub s = true ↔ ∃ p q, s = p +:+ sub +:+ q.
Proof.
  induction s as [|b s IH].
  - cbn [contains]. rewrite orb_false_r, prefix_spec. split.
    + intros [q Hq]. by exists "", q.
    + intros (p & q & Hpq). destruct p; [by exists q |]. discriminate.
  - cbn [contains]. rewrite orb_true_iff, prefix_spec, IH. split.
    + intros [[q Hq] | (p & q & Hpq)]; [by exists "", q |].
      exists (String b p), q. cbn. by rewrite Hpq.
    + intros (p & q & Hpq). destruct p as [|c p]; [left; by exists q |].
      right. exists p, q. cbn in Hpq. by injection Hpq.
Qed.

(** X17: the "model" entry of a checkpoint holds exactly the parameters of
    the (unwrapped) model whose name does not contain the word generator,
    wherever in the name it stands, each with its value; the "epoch" entry
    is the epoch given, and the wrapper [DataParallel] makes no
    difference. *)
Theorem checkpoint_leaves_out_generator self opt epoch w :
  let ck := checkpoint C self opt epoch w in
  let params := net_state_dict C (unwrap (model self)) w in
  (∀ p q, ck_model ck !! (p +:+ "generator" +:+ q) = None)
  ∧ (∀ k, (∀ p q, k ≠ p +:+ "generator" +:+ q) →
          ck_model ck !! k = params !! k)
  ∧ ck_epoch ck = epoch
  ∧ ∀ self', unwrap (model self') = unwrap (model self) →
             checkpoint C self' opt epoch w = ck.
Proof.
  cbv zeta. unfold checkpoint. cbn [ck_model ck_epoch].
  split; [| split; [| split]].
  - intros p q. apply map_lookup_filter_None. right. intros x _. cbn.
    rewrite (proj2 (contains_spec "generator" (p +:+ "generator" +:+ q)));
      [done | by exists p, q].
  - intros k Hk.
    destruct (net_state_dict C (unwrap (model self)) w !! k) as [x|] eqn:E.
    + apply map_lookup_filter_Some. split; [done |]. cbn.
      destruct (contains "generator" k) eqn:Hck; [| done].
      apply contains_spec in Hck as (p & q & ->). by destruct (Hk p q).
    + apply map_lookup_filter_None. by left.
  - done.
  - intros self' ->. done.
Qed.

End TrainerFacts.

(** * Properties of the dataset script *)

Section DatasetFacts.

Import Dataset.

Context {W Schema Lexicon Scenario KB Session Example : Type}.

Variable E : @Env W Schema Lexicon Scenario KB Session Example.

Local Abbreviation system := (system Schema Lexicon).
Local Abbreviation call := (call Scenario).
Local Abbreviation State := (@State W).
Local Abbreviation Run := (@Run W Scenario).

Implicit Types (s : State) (agents : list system).

Lemma dataset_bind_run {A B} (m : Run A) (k : A → Run B) s l s' a :
  m s = (l, s', Returned a) →
  bind m k s = let '(l', s'', r) := k a s' in (l ++ l', s'', r).
Proof. intros H. unfold bind. by rewrite H. Qed.

Lemma dataset_bind_raised {A B} (m : Run A) (k : A → Run B) s l s' e :
  m s = (l, s', Raised e) → bind m k s = (l, s', Raised e).
Proof. intros H. unfold bind. by rewrite H. Qed.

Local Abbreviation n := (Z.of_nat (length (scenarios_list E))).

(** One iteration with two agents and a scenario that has two knowledge
    bases. *)
Lemma examples_loop_step agents range examples s agent0 agent1 scenario
    kb0 kb1 :
  agents !! 0 = Some agent0 → agents !! 1 = Some agent1 →
  scenarios_list E !! Z.to_nat (num_examples s mod n) = Some scenario →
  kbs E scenario !! 0 = Some kb0 → kbs E scenario !! 1 = Some kb1 →
  ∃ ex s',
    num_examples s' = (num_examples s + 1)%Z
    ∧ files s' = files s
    ∧ examples_loop E agents (S range) examples s
      = let '(l, s'', r) :=
          examples_loop E agents range (examples ++ [ex]) s' in
        (Simulated (num_examples s mod n) scenario :: l, s'', r).
Proof.
  intros Ha0 Ha1 Hsc Hk0 Hk1.
  assert (Hn : (n =? 0)%Z = false).
  { apply Z.eqb_neq. apply lookup_lt_Some in Hsc. lia. }
  cbn [examples_loop]. rewrite Hn.
  unfold bind, read_num_examples, lift, index, in_world,
    assign_num_examples.
  rewrite Hsc, Ha0, Hk0. cbn.
  destruct (new_session E agent0 0 kb0 (world s)) as [w1 session0].
  rewrite Ha1, Hk1. cbn.
  destruct (new_session E agent1 1 kb1 w1) as [w2 session1]. cbn.
  destruct (simulate E scenario [session0; session1] w2) as [w3 ex]. cbn.
  exists ex, {| num_examples := num_examples s + 1; files := files s;
                world := w3 |}.
  split; [reflexivity |]. split; [reflexivity |].
  by destruct (examples_loop E agents range (examples ++ [ex]) _)
       as [[l s''] r].
Qed.

Local Abbreviation position s i :=
  (((num_examples s + Z.of_nat i) mod n)%Z).

Lemma dataset_calls_triple {A} (l : list call) s (r : try A) :
  calls (l, s, r) = l.
Proof. reflexivity. Qed.

Lemma dataset_state_triple {A} (l : list call) s (r : try A) :
  state (l, s, r) = s.
Proof. reflexivity. Qed.

Lemma dataset_returned_triple {A} (l : list call) s (r : try A) :
  returned (l, s, r) = r.
Proof. reflexivity. Qed.

Lemma examples_loop_round_robin agents range examples s agent0 agent1 :
  agents !! 0 = Some agent0 → agents !! 1 = Some agent1 →
  scenarios_list E ≠ [] →
  Forall (λ scenario, 2 ≤ length (kbs E scenario)) (scenarios_list E) →
  let r := examples_loop E agents range examples s in
  ∃ new,
    returned r = Returned (examples ++ new)
    ∧ length new = range
    ∧ num_examples (state r) = (num_examples s + Z.of_nat range)%Z
    ∧ files (state r) = files s
    ∧ Forall2 (λ i c, ∃ scenario,
                 scenarios_list E !! Z.to_nat (position s i) = Some scenario
                 ∧ c = Simulated (position s i) scenario)
              (seq 0 range) (calls r).
Proof.
  intros Ha0 Ha1 Hne Hkbs. cbv zeta.
  assert (Hn : (0 < n)%Z) by (destruct (scenarios_list E); [done | cbn; lia]).
  revert examples s. induction range as [|range IH]; intros examples s.
  { exists []. cbn. rewrite app_nil_r, Z.add_0_r.
    repeat split; constructor. }
  destruct (lookup_lt_is_Some_2 (scenarios_list E)
              (Z.to_nat (num_examples s mod n))) as [scenario Hsc].
  { pose proof (Z.mod_pos_bound (num_examples s) n Hn). lia. }
  assert (Hlen : 2 ≤ length (kbs E scenario)).
  { rewrite Forall_forall in Hkbs. apply Hkbs.
    by eapply list_elem_of_lookup_2. }
  destruct (lookup_lt_is_Some_2 (kbs E scenario) 0) as [kb0 Hk0]; [lia |].
  destruct (lookup_lt_is_Some_2 (kbs E scenario) 1) as [kb1 Hk1]; [lia |].
  destruct (examples_loop_step agents range examples s agent0 agent1
              scenario kb0 kb1 Ha0 Ha1 Hsc Hk0 Hk1)
    as (ex & s' & Hnum & Hfiles & ->).
  destruct (IH (examples ++ [ex]) s') as (new & Hret & Hlen' & Hn' & Hf & Hall).
  destruct (examples_loop E agents range (examples ++ [ex]) s')
    as [[l s''] r].
  rewrite dataset_returned_triple in Hret.
  rewrite dataset_state_triple in Hn', Hf. rewrite dataset_calls_triple in Hall.
  rewrite dataset_returned_triple, dataset_state_triple, dataset_calls_triple.
  subst r. exists (ex :: new).
  split; [by rewrite <- app_assoc |]. split; [cbn; lia |].
  split; [lia |]. split; [congruence |].
  cbn [seq]. constructor.
  - exists scenario. change (Z.of_nat 0) with 0%Z. by rewrite Z.add_0_r.
  - rewrite <- fmap_S_seq. apply Forall2_fmap_l.
    eapply Forall2_impl; [exact Hall |]. cbv beta.
    intros i c (sc & Hsc' & ->). unfold compose. rewrite Hnum in Hsc' |- *.
    replace (num_examples s + Z.of_nat (S i))%Z
      with (num_examples s + 1 + Z.of_nat i)%Z by lia.
    by exists sc.
Qed.

Lemma simulated_positions (l : list call) (f : nat → Z) (range : list nat) :
  Forall2 (λ i c, ∃ scenario : Scenario,
             scenarios_list E !! Z.to_nat (f i) = Some scenario
             ∧ c = Simulated (f i) scenario) range l →
  simulated l = f <$> range.
Proof.
  unfold simulated. induction 1 as [|i c range l (sc & _ & ->) _ IH];
    [done |].
  cbn. by rewrite IH.
Qed.

Lemma generate_examples_run agents description examples_path max_examples
    s agent0 agent1 :
  agents !! 0 = Some agent0 → agents !! 1 = Some agent1 →
  scenarios_list E ≠ [] →
  Forall (λ scenario, 2 ≤ length (kbs E scenario)) (scenarios_list E) →
  ∃ sims examples w,
    generate_examples E agents description examples_path max_examples s
    = (sims ++ [Wrote examples_path],
       {| num_examples := num_examples s + Z.of_nat (Z.to_nat max_examples);
          files := <[examples_path := dumps E examples
                                      +:+ String (Ascii.ascii_of_nat 10) ""]>
                     (files s);
          world := w |},
       Returned tt)
    ∧ length examples = Z.to_nat max_examples
    ∧ Forall2 (λ i c, ∃ scenario,
                 scenarios_list E !! Z.to_nat (position s i) = Some scenario
                 ∧ c = Simulated (position s i) scenario)
              (seq 0 (Z.to_nat max_examples)) sims.
Proof.
  intros Ha0 Ha1 Hne Hkbs.
  destruct (examples_loop_round_robin agents (Z.to_nat max_examples) [] s
              agent0 agent1 Ha0 Ha1 Hne Hkbs)
    as (new & Hret & Hlen & Hnum & Hfiles & Hall).
  unfold generate_examples.
  destruct (examples_loop E agents (Z.to_nat max_examples) [] s)
    as [[l s'] r] eqn:Hloop.
  rewrite dataset_returned_triple in Hret.
  rewrite dataset_state_triple in Hnum, Hfiles.
  rewrite dataset_calls_triple in Hall. subst r.
  erewrite dataset_bind_run by exact Hloop. cbn.
  exists l, new, (world s'). rewrite Hnum, Hfiles. done.
Qed.

(** X18: with at least one scenario, two agents and two knowledge bases in
    every scenario, [generate_examples] returns; it simulates
    [max_examples] dialogues, the [i]-th on the scenario at position
    [(num_examples + i) % len(scenarios_list)], advances the global
    [num_examples] by their number and then writes the examples, in this
    order, to [examples_path], serialised by one call of [json.dumps]. *)
Theorem generate_examples_round_robin agents description examples_path
    max_examples s agent0 agent1 :
  agents !! 0 = Some agent0 → agents !! 1 = Some agent1 →
  scenarios_list E ≠ [] →
  Forall (λ scenario, 2 ≤ length (kbs E scenario)) (scenarios_list E) →
  let r := generate_examples E agents description examples_path
                             max_examples s in
  let m := Z.to_nat max_examples in
  returned r = Returned tt
  ∧ num_examples (state r) = (num_examples s + Z.of_nat m)%Z
  ∧ (∃ examples,
       length examples = m
       ∧ files (state r)
         = <[examples_path := dumps E examples
                              +:+ String (Ascii.ascii_of_nat 10) ""]>
             (files s))
  ∧ (∃ sims,
       calls r = sims ++ [Wrote examples_path]
       ∧ Forall2 (λ i c, ∃ scenario,
                    scenarios_list E !! Z.to_nat (position s i)
                    = Some scenario
                    ∧ c = Simulated (position s i) scenario)
                 (seq 0 m) sims)
  ∧ simulated (calls r) = (λ i, position s i) <$> seq 0 m.
Proof.
  intros Ha0 Ha1 Hne Hkbs. cbv zeta.
  destruct (generate_examples_run agents description examples_path
              max_examples s agent0 agent1 Ha0 Ha1 Hne Hkbs)
    as (sims & examples & w & -> & Hlen & Hall).
  rewrite dataset_returned_triple, dataset_state_triple, dataset_calls_triple.
  cbn [num_examples files].
  split; [done |]. split; [done |]. split; [by exists examples |].
  split; [by exists sims |].
  unfold simulated. rewrite omap_app. cbn. rewrite app_nil_r.
  by apply (simulated_positions sims (λ i, position s i)).
Qed.

Local Abbreviation writes_nothing m :=
  (∀ s, files (state ((m : Run _) s)) = files s
        ∧ Forall (λ c : call, ∀ path, c ≠ Wrote path)
                 (calls ((m : Run _) s))).

Lemma writes_nothing_bind {A B} (m : Run A) (k : A → Run B) :
  writes_nothing m → (∀ a, writes_nothing (k a)) →
  writes_nothing (bind m k).
Proof.
  intros Hm Hk s. unfold bind. specialize (Hm s).
  destruct (m s) as [[l s'] [a|e]]; [| done].
  rewrite dataset_state_triple, dataset_calls_triple in Hm.
  destruct Hm as [Hf Hc]. specialize (Hk a s').
  destruct (k a s') as [[l' s''] r].
  rewrite dataset_state_triple, dataset_calls_triple in *.
  destruct Hk as [Hf' Hc']. split; [congruence | by apply Forall_app].
Qed.

Lemma writes_nothing_lift {A} (r : try A) : writes_nothing (lift r).
Proof. intros s. split; [done | constructor]. Qed.

Lemma writes_nothing_in_world {A} (l : list call) (f : W → W * A) :
  Forall (λ c : call, ∀ path, c ≠ Wrote path) l →
  writes_nothing (in_world l f).
Proof. intros Hl s. unfold in_world. by destruct (f (world s)). Qed.

(** The loop writes no file, whatever happens in it. *)
Lemma examples_loop_files agents range examples :
  writes_nothing (examples_loop E agents range examples).
Proof.
  revert examples. induction range as [|range IH]; intros examples.
  { intros s. split; [done | constructor]. }
  cbn [examples_loop].
  apply writes_nothing_bind; [intros s; split; [done | constructor] |].
  intros num. destruct (_ =? 0)%Z; [intros s; split; [done | constructor] |].
  apply writes_nothing_bind; [apply writes_nothing_lift |]. intros scenario.
  apply writes_nothing_bind; [apply writes_nothing_lift |]. intros agent0.
  apply writes_nothing_bind; [apply writes_nothing_lift |]. intros kb0.
  apply writes_nothing_bind; [by apply writes_nothing_in_world |].
  intros session0.
  apply writes_nothing_bind; [apply writes_nothing_lift |]. intros agent1.
  apply writes_nothing_bind; [apply writes_nothing_lift |]. intros kb1.
  apply writes_nothing_bind; [by apply writes_nothing_in_world |].
  intros session1.
  apply writes_nothing_bind;
    [apply writes_nothing_in_world; by repeat constructor |].
  intros ex.
  apply writes_nothing_bind; [intros s; split; [done | constructor] |].
  intros num'.
  apply writes_nothing_bind; [intros s; split; [done | constructor] |].
  intros _. apply IH.
Qed.

(** X19: the file is opened only after the loop of lines 52-58: an
    exception raised in the loop is the exception of [generate_examples],
    and no file has been written or changed.  With no scenario and a
    positive [max_examples] the loop raises [ZeroDivisionError] at once;
    with [max_examples <= 0] nothing is simulated and the dump of the empty
    list is written, also when there is no scenario or no agent. *)
Theorem generate_examples_writes_after_loop agents description examples_path
    max_examples s :
  let r := generate_examples E agents description examples_path
                             max_examples s in
  (∀ e, returned (examples_loop E agents (Z.to_nat max_examples) [] s)
        = Raised e →
        r = (calls (examples_loop E agents (Z.to_nat max_examples) [] s),
             state (examples_loop E agents (Z.to_nat max_examples) [] s),
             Raised e)
        ∧ files (state r) = files s
        ∧ Forall (λ c, ∀ path, c ≠ Wrote path) (calls r))
  ∧ (scenarios_list E = [] → (0 < max_examples)%Z →
     r = ([], s, Raised ZeroDivisionError))
  ∧ ((max_examples ≤ 0)%Z →
     calls r = [Wrote examples_path]
     ∧ returned r = Returned tt
     ∧ num_examples (state r) = num_examples s
     ∧ files (state r)
       = <[examples_path := dumps E []
                            +:+ String (Ascii.ascii_of_nat 10) ""]>
           (files s)).
Proof.
  cbv zeta. unfold generate_examples. split; [| split].
  - intros e.
    destruct (examples_loop_files agents (Z.to_nat max_examples) [] s)
      as [Hf Hc].
    unfold bind.
    destruct (examples_loop E agents (Z.to_nat max_examples) [] s)
      as [[l s'] [examples|e']]; [by cbn |].
    cbn in *. by intros [= ->].
  - intros Hnil Hpos.
    destruct (Z.to_nat max_examples) as [|range] eqn:Hm; [lia |].
    unfold bind at 1. cbn [examples_loop]. rewrite Hnil. reflexivity.
  - intros Hle. replace (Z.to_nat max_examples) with 0 by lia. by cbn.
Qed.

Variable args : Args.

Lemma comprehension_raises {A B} (f : A → try B) (l : list A) x e :
  x ∈ l → f x = Raised e → ∃ e', comprehension f l = Raised e'
    ∧ ∃ y, y ∈ l ∧ f y = Raised e'.
Proof.
  intros Hx Hf. induction l as [|y l IH]; [by apply elem_of_nil in Hx |].
  cbn [comprehension]. destruct (f y) as [b|e'] eqn:Hy.
  2:{ exists e'. split; [done |]. exists y. split; [by left | done]. }
  apply elem_of_cons in Hx as [-> | Hx]; [congruence |].
  destruct (IH Hx) as (e' & -> & z & Hz & Hfz).
  exists e'. split; [done |]. exists z. split; [by right | done].
Qed.

Lemma get_system_raised name e :
  get_system E args name = Raised e →
  e = AssertionError ∧ name = "neural"
                     ∧ truthy_string (model_path args) = false
  ∨ e = ValueError ("Unknown system " +:+ name)
    ∧ name ∉ ["simple"; "heuristic"; "neural"].
Proof.
  unfold get_system.
  destruct (String.eqb_spec name "simple"); [done |].
  destruct (String.eqb_spec name "heuristic"); [done |].
  destruct (String.eqb_spec name "neural") as [-> |].
  - destruct (truthy_string _); [done |]. intros [= <-]. by left.
  - intros [= <-]. right. split; [done |].
    rewrite !elem_of_cons, elem_of_nil. tauto.
Qed.

(** X20: if one of the agent names is not simple, heuristic or neural, or
    is neural while no model path is given, the script raises before it
    simulates or writes anything: [ValueError] naming the first unknown
    system, or [AssertionError].  Without [--agents], or with an empty
    list, two simple systems are used. *)
Theorem script_needs_known_agents s name :
  ((agents args = None ∨ agents args = Some []) →
   make_agents E args = Returned [SimpleSystem; SimpleSystem])
  ∧ (name ∈ agent_names args →
     (name ∉ ["simple"; "heuristic"; "neural"]
      ∨ (name = "neural" ∧ truthy_string (model_path args) = false)) →
     ∃ e, script E args s = ([], s, Raised e)
          ∧ (e = AssertionError
             ∨ (∃ unknown, unknown ∈ agent_names args
                  ∧ (unknown ∉ ["simple"; "heuristic"; "neural"])
                  ∧ e = ValueError ("Unknown system " +:+ unknown)))).
Proof.
  split.
  { unfold make_agents, agent_names. by intros [-> | ->]. }
  intros Hname Hbad.
  assert (Hraise : ∃ e, get_system E args name = Raised e).
  { unfold get_system. destruct Hbad as [Hbad | [-> Hpath]].
    - rewrite !elem_of_cons, elem_of_nil in Hbad.
      destruct (String.eqb_spec name "simple"); [tauto |].
      destruct (String.eqb_spec name "heuristic"); [tauto |].
      destruct (String.eqb_spec name "neural"); [tauto |]. by eexists.
    - cbn. rewrite Hpath. by eexists. }
  destruct Hraise as [e0 He0].
  destruct (comprehension_raises (get_system E args) (agent_names args)
              name e0 Hname He0) as (e & Hmake & y & Hy & Hfy).
  exists e. split.
  - unfold script, bind, lift. fold (make_agents E args).
    unfold make_agents. by rewrite Hmake.
  - apply get_system_raised in Hfy as [(-> & _) | (-> & Hunknown)];
      [by left | right; by exists y].
Qed.

Lemma single_agent_generate agent description examples_path max_examples
    s :
  scenarios_list E ≠ [] → (0 < max_examples)%Z →
  ∃ s', generate_examples E [agent] description examples_path
                          max_examples s
        = ([], s', Raised IndexError)
        ∧ files s' = files s.
Proof.
  intros Hne Hpos.
  assert (Hn : (Z.of_nat (length (scenarios_list E)) =? 0)%Z = false).
  { apply Z.eqb_neq. destruct (scenarios_list E); [done | cbn; lia]. }
  unfold generate_examples.
  destruct (Z.to_nat max_examples) as [|range] eqn:Hm; [lia |].
  assert (Hloop : ∃ s',
            examples_loop E [agent] (S range) [] s
            = ([], s', Raised IndexError) ∧ files s' = files s).
  { cbn [examples_loop].
    erewrite dataset_bind_run by reflexivity. cbv beta. rewrite Hn.
    destruct (scenarios_list E !! Z.to_nat (num_examples s mod n))
      as [scenario|] eqn:E1.
    2:{ exists s. split; [| done].
        erewrite dataset_bind_raised; [reflexivity |].
        unfold lift, index. by rewrite E1. }
    erewrite dataset_bind_run by (unfold lift, index; rewrite E1; reflexivity).
    erewrite dataset_bind_run by reflexivity.
    destruct (kbs E scenario !! 0) as [kb0|] eqn:E2.
    2:{ exists s. split; [| done].
        erewrite dataset_bind_raised; [reflexivity |].
        unfold lift, index. by rewrite E2. }
    erewrite dataset_bind_run by (unfold lift, index; rewrite E2; reflexivity).
    destruct (new_session E agent 0 kb0 (world s)) as [w1 session0] eqn:E3.
    erewrite dataset_bind_run
      by (unfold in_world; rewrite E3; reflexivity).
    eexists.
    split; [erewrite dataset_bind_raised; reflexivity | reflexivity]. }
  destruct Hloop as (s' & Hloop & Hf). exists s'. split; [| done].
  by erewrite dataset_bind_raised by exact Hloop.
Qed.

(** X21: with a single agent the script cannot build the second session:
    as soon as an example is asked for it raises [IndexError], and nothing
    is simulated or written. *)
Theorem script_needs_two_agents s name agent max_examples path :
  agents args = Some [name] →
  get_system E args name = Returned agent →
  scenarios_list E ≠ [] →
  train_max_examples args = Some max_examples → (0 < max_examples)%Z →
  train_examples_paths args !! 0 = Some path →
  let r := script E args s in
  returned r = Raised IndexError
  ∧ calls r = []
  ∧ files (state r) = files s.
Proof.
  intros Hagents Hsys Hne Hmax Hpos Hpath. cbv zeta.
  unfold script.
  erewrite dataset_bind_run.
  2:{ unfold lift, make_agents, agent_names. rewrite Hagents.
      cbn [comprehension]. rewrite Hsys. reflexivity. }
  erewrite dataset_bind_run by reflexivity.
  rewrite Hmax. destruct max_examples as [|m|m]; [lia | | lia].
  cbn [truthy_int default]. unfold id.
  set (s1 := {| num_examples := scenario_offset args; files := files s;
                world := world s |}).
  destruct (single_agent_generate agent "train" path (Z.pos m) s1 Hne Hpos)
    as (s' & Hgen & Hf).
  erewrite dataset_bind_raised.
  2:{ erewrite dataset_bind_run
        by (unfold lift, index; rewrite Hpath; reflexivity).
      rewrite Hgen. reflexivity. }
  by cbn.
Qed.

Lemma positions_NoDup (offset : Z) (k : nat) :
  k ≤ length (scenarios_list E) →
  NoDup ((λ i, ((offset + Z.of_nat i) mod n)%Z) <$> seq 0 k).
Proof.
  intros Hk. apply NoDup_fmap_2_strong; [| apply NoDup_seq].
  intros i j Hi%elem_of_seq Hj%elem_of_seq Heq.
  assert (Hn : (0 < n)%Z) by lia.
  pose proof (Z.div_mod (offset + Z.of_nat i) n ltac:(lia)) as Di.
  pose proof (Z.div_mod (offset + Z.of_nat j) n ltac:(lia)) as Dj.
  rewrite Heq in Di.
  assert ((offset + Z.of_nat i) / n = (offset + Z.of_nat j) / n)%Z by nia.
  lia.
Qed.

Lemma optional_generate agents description (max_examples : option Z)
    (paths : list string) path s agent0 agent1 :
  agents !! 0 = Some agent0 → agents !! 1 = Some agent1 →
  scenarios_list E ≠ [] →
  Forall (λ scenario, 2 ≤ length (kbs E scenario)) (scenarios_list E) →
  paths !! 0 = Some path →
  ∃ l s',
    (if truthy_int max_examples
     then bind (lift (index paths 0))
               (λ path, generate_examples E agents description path
                                          (default 0%Z max_examples))
     else ret tt) s
    = (l, s', Returned tt)
    ∧ num_examples s'
      = (num_examples s
         + Z.of_nat (Z.to_nat (default 0%Z max_examples)))%Z
    ∧ simulated l
      = (λ i, position s i)
        <$> seq 0 (Z.to_nat (default 0%Z max_examples)).
Proof.
  intros Ha0 Ha1 Hne Hkbs Hpath.
  destruct (truthy_int max_examples) eqn:Htruthy.
  - destruct (generate_examples_run agents description path
                (default 0%Z max_examples) s agent0 agent1 Ha0 Ha1 Hne Hkbs)
      as (sims & examples & w & Hgen & _ & Hall).
    eexists _, _. split; [| split].
    + erewrite dataset_bind_run
        by (unfold lift, index; rewrite Hpath; reflexivity).
      rewrite Hgen. reflexivity.
    + reflexivity.
    + unfold simulated. cbn [app]. rewrite omap_app. cbn.
      rewrite app_nil_r.
      by apply (simulated_positions sims (λ i, position s i)).
  - exists [], s. split; [done |].
    assert (Hzero : Z.to_nat (default 0%Z max_examples) = 0).
    { destruct max_examples as [[| |]|]; done || (cbn; lia). }
    rewrite Hzero. split; [lia | done].
Qed.

(** X22: with known agents (two at least), a non-empty scenario list with
    two knowledge bases per scenario and both output paths given, the
    script returns; the test examples continue the rotation where the
    train examples stopped: over the two calls the [i]-th dialogue uses the
    scenario at position [(scenario_offset + i) % len(scenarios_list)], so
    no scenario is used twice as long as the two sets together are not
    larger than the scenario list. *)
Theorem script_train_then_test s systems agent0 agent1 train_path
    test_path :
  make_agents E args = Returned systems →
  systems !! 0 = Some agent0 → systems !! 1 = Some agent1 →
  scenarios_list E ≠ [] →
  Forall (λ scenario, 2 ≤ length (kbs E scenario)) (scenarios_list E) →
  train_examples_paths args !! 0 = Some train_path →
  test_examples_paths args !! 0 = Some test_path →
  let r := script E args s in
  let m1 := Z.to_nat (default 0%Z (train_max_examples args)) in
  let m2 := Z.to_nat (default 0%Z (test_max_examples args)) in
  returned r = Returned tt
  ∧ num_examples (state r) = (scenario_offset args + Z.of_nat (m1 + m2))%Z
  ∧ simulated (calls r)
    = (λ i, ((scenario_offset args + Z.of_nat i) mod n)%Z)
      <$> seq 0 (m1 + m2)
  ∧ (m1 + m2 ≤ length (scenarios_list E) → NoDup (simulated (calls r))).
Proof.
  intros Hmake Ha0 Ha1 Hne Hkbs Hp1 Hp2. cbv zeta.
  set (m1 := Z.to_nat (default 0%Z (train_max_examples args))).
  set (m2 := Z.to_nat (default 0%Z (test_max_examples args))).
  set (s1 := {| num_examples := scenario_offset args; files := files s;
                world := world s |}).
  destruct (optional_generate systems "train" (train_max_examples args)
              (train_examples_paths args) train_path s1 agent0 agent1
              Ha0 Ha1 Hne Hkbs Hp1) as (l1 & s2 & Hrun1 & Hnum1 & Hsim1).
  destruct (optional_generate systems "test" (test_max_examples args)
              (test_examples_paths args) test_path s2 agent0 agent1
              Ha0 Ha1 Hne Hkbs Hp2) as (l2 & s3 & Hrun2 & Hnum2 & Hsim2).
  assert (Hscript : script E args s = (l1 ++ l2, s3, Returned tt)).
  { unfold script.
    erewrite dataset_bind_run by (unfold lift; rewrite Hmake; reflexivity).
    erewrite dataset_bind_run by reflexivity.
    erewrite dataset_bind_run by exact Hrun1.
    rewrite Hrun2. reflexivity. }
  rewrite Hscript.
  rewrite dataset_returned_triple, dataset_state_triple, dataset_calls_triple.
  assert (Hsim : simulated (l1 ++ l2)
                 = (λ i, ((scenario_offset args + Z.of_nat i) mod n)%Z)
                   <$> seq 0 (m1 + m2)).
  { unfold simulated in *. rewrite omap_app, Hsim1, Hsim2.
    rewrite seq_app, fmap_app. f_equal. cbn [Nat.add].
    replace (seq m1 m2) with (seq (m1 + 0) m2) by (f_equal; lia).
    rewrite <- (fmap_add_seq m1 0 m2), <- list_fmap_compose.
    apply list_fmap_ext. intros _ i _. unfold compose.
    rewrite Hnum1. unfold s1. cbn [num_examples]. fold m1. f_equal. lia. }
  split; [done |]. split.
  { rewrite Hnum2, Hnum1. unfold s1. cbn [num_examples]. fold m1 m2. lia. }
  split; [done |].
  intros Hle. rewrite Hsim. by apply positions_NoDup.
Qed.

End DatasetFacts.

(** ** The trainer and the script on the toy worlds *)

Section TrainerRuns.

Import Training.

Local Abbreviation toy := TrainingToy.toy.
Local Abbreviation start := ((0, 0) : TrainingToy.World).

Lemma reports_follow_whole_groups_witness :
  reports_with_steps 0
    (calls (train_epoch toy (TrainingToy.trainer 2)
              (Some (3, TrainingToy.batches)) TrainingToy.options 0
              (Some TrainingToy.report) start))
  = [(0, 0); (1, 2); (2, 2)]
  ∧ optimizer_steps
      (calls (train_epoch toy (TrainingToy.trainer 2)
                (Some (3, TrainingToy.batches)) TrainingToy.options 0
                (Some TrainingToy.report) start))
    = 3.
Proof.
  apply (reports_follow_whole_groups toy (TrainingToy.trainer 2) 3
           TrainingToy.batches TrainingToy.options 0
           (Some TrainingToy.report) start).
  reflexivity.
Defined.

Lemma train_epoch_calls_witness :
  Forall (λ c, training_call c = true)
    (calls (train_epoch toy (TrainingToy.trainer 2)
              (Some (3, TrainingToy.batches)) TrainingToy.options 0
              (Some TrainingToy.report) start)).
Proof.
  apply (proj1 (train_epoch_calls toy (TrainingToy.trainer 2)
                  (Some (3, TrainingToy.batches)) TrainingToy.options 0
                  (Some TrainingToy.report) start eq_refl)).
Defined.

Lemma grad_accum_count_is_immaterial_witness :
  world (train_epoch toy (TrainingToy.trainer 1)
           (Some (3, TrainingToy.batches)) TrainingToy.options 0 None start)
  = world (train_epoch toy (TrainingToy.trainer 2)
             (Some (3, TrainingToy.batches)) TrainingToy.options 0 None
             start).
Proof.
  apply (proj1 (grad_accum_count_is_immaterial toy (TrainingToy.trainer 1) 2
                  (Some (3, TrainingToy.batches)) TrainingToy.options 0
                  start (λ w, eq_refl))).
Defined.

Lemma learn_checkpoints_witness :
  learning_rate_updates
    (calls (learn toy (TrainingToy.trainer 2) TrainingToy.options tt
              (Some TrainingToy.report) start))
  = [0; 1; 2]
  ∧ saved_epochs
      (calls (learn toy (TrainingToy.trainer 2) TrainingToy.options tt
                (Some TrainingToy.report) start))
    = [1; 2].
Proof.
  apply (proj2 (learn_checkpoints toy TrainingToy.options tt
                  (Some TrainingToy.report)
                  (λ name gpu w, ltac:(discriminate))
                  (DataParallel tt) 0 32 "text" "sents" 2 start
                  (TrainingToy.trainer 2) start eq_refl)).
Defined.

Lemma checkpoint_leaves_out_generator_witness :
  ck_model (checkpoint toy (TrainingToy.trainer 2) TrainingToy.options 1
              start)
  !! "decoder.generator.bias" = None.
Proof.
  apply (proj1 (checkpoint_leaves_out_generator toy (TrainingToy.trainer 2)
                  TrainingToy.options 1 start) "decoder." ".bias").
Defined.

End TrainerRuns.

Section ScriptRuns.

Import Dataset.

Local Abbreviation env := DatasetToy.env.
Local Abbreviation simple := (SimpleSystem : system unit unit).

Lemma generate_examples_round_robin_witness :
  simulated (calls (generate_examples env [simple; simple] "train"
                      "train.json" 2 DatasetToy.start))
  = [2%Z; 0%Z].
Proof.
  apply (proj2 (proj2 (proj2 (proj2
           (generate_examples_round_robin env [simple; simple] "train"
              "train.json" 2 DatasetToy.start simple simple
              eq_refl eq_refl ltac:(discriminate)
              ltac:(repeat constructor)))))).
Defined.

Lemma generate_examples_writes_after_loop_witness :
  calls (generate_examples env [] "train" "train.json" 0 DatasetToy.start)
  = [Wrote "train.json"]
  ∧ generate_examples env [] "train" "train.json" 1 DatasetToy.start
    = ([], DatasetToy.start, Raised IndexError).
Proof.
  split.
  - apply (proj1 (proj2 (proj2
             (generate_examples_writes_after_loop env [] "train" "train.json"
                0 DatasetToy.start)) ltac:(lia))).
  - apply (proj1 (proj1
             (generate_examples_writes_after_loop env [] "train" "train.json"
                1 DatasetToy.start) IndexError eq_refl)).
Defined.

Lemma script_needs_known_agents_witness :
  ∃ e, script env (DatasetToy.arguments (Some ["simple"; "oracle"]))
              DatasetToy.start
       = ([], DatasetToy.start, Raised e).
Proof.
  destruct (proj2 (script_needs_known_agents env
                     (DatasetToy.arguments (Some ["simple"; "oracle"]))
                     DatasetToy.start "oracle"))
    as (e & He & _).
  - apply (list_elem_of_lookup_2 _ 1). reflexivity.
  - left. rewrite !elem_of_cons, elem_of_nil.
    intros [H | [H | [H | []]]]; discriminate H.
  - by exists e.
Defined.

Lemma script_needs_two_agents_witness :
  returned (script env (DatasetToy.arguments (Some ["heuristic"]))
                   DatasetToy.start)
  = Raised IndexError.
Proof.
  apply (proj1 (script_needs_two_agents env
                  (DatasetToy.arguments (Some ["heuristic"]))
                  DatasetToy.start "heuristic" HeuristicSystem 2
                  "train.json" eq_refl eq_refl ltac:(discriminate)
                  eq_refl eq_refl eq_refl)).
Defined.

Lemma script_train_then_test_witness :
  simulated (calls (script env (DatasetToy.arguments None)
                           DatasetToy.start))
  = [2%Z; 0%Z; 1%Z]
  ∧ NoDup (simulated (calls (script env (DatasetToy.arguments None)
                                    DatasetToy.start))).
Proof.
  destruct (script_train_then_test env (DatasetToy.arguments None)
              DatasetToy.start [simple; simple] simple simple
              "train.json" "test.json" eq_refl eq_refl eq_refl
              ltac:(discriminate) ltac:(repeat constructor)
              eq_refl eq_refl) as (_ & _ & Hsim & Hnodup).
  split; [exact Hsim |]. apply Hnodup. vm_compute. lia.
Defined.

End ScriptRuns.
